(** * PUIPR: the ingestion/merge engine and its queries (SQLite variant)

    A shallow embedding of [app/main.go]: the schema of [ensureSchema], the
    transaction of [ingestItems], and the handlers [handleIngest],
    [handleSummary] and [handleUserIPs].

    Conventions.
    - A Go [string] and an SQLite TEXT value are byte sequences: [string].
    - A nullable column and a Go [*string] / [*int64] are [option].
    - A table is the list of its rows in rowid order.
    - Time stamps are stored as TEXT in RFC 3339 form, exactly as
      [ts.Format(time.RFC3339)] writes them, and are compared by SQLite as
      TEXT (bytewise).
    - LIKE is SQLite's: it reads both texts as UTF-8 characters up to the
      first NUL byte, folds the case of the letters A-Z only and refuses a
      pattern of more than 50000 bytes.

    The repository also holds a PostgreSQL variant of the same
    handlers, which keeps time stamps as TIMESTAMPTZ and answers an
    undecodable body with a count of 0; what follows embeds the SQLite
    variant. *)

From Stdlib Require Import ZArith List String Ascii Bool Lia Permutation.
From Stdlib Require Import Sorted OrderedTypeEx.
Import ListNotations.
Open Scope string_scope.
Open Scope Z_scope.

(** ** Go's [time] package: [time.Unix(sec, 0).UTC().Format(time.RFC3339)] *)

Definition secondsPerMinute : Z := 60.
Definition secondsPerHour : Z := 60 * secondsPerMinute.
Definition secondsPerDay : Z := 24 * secondsPerHour.
Definition daysPer400Years : Z := 365 * 400 + 97.
Definition daysPer100Years : Z := 365 * 100 + 24.
Definition daysPer4Years : Z := 365 * 4 + 1.

Definition absoluteZeroYear : Z := -292277022399.
Definition unixToInternal : Z :=
  (1969 * 365 + 1969 / 4 - 1969 / 100 + 1969 / 400) * secondsPerDay.
Definition internalToAbsolute : Z :=
  - ((absoluteZeroYear - 1) * 146097 / 400 * secondsPerDay).

(** [Time.abs] for a UTC time: seconds since the absolute zero year, as a
    [uint64]. *)
Definition abs_of_unix (sec : Z) : Z :=
  (sec + (unixToInternal + internalToAbsolute)) mod 2 ^ 64.

Definition isLeap (year : Z) : bool :=
  (Z.rem year 4 =? 0) && (negb (Z.rem year 100 =? 0) || (Z.rem year 400 =? 0)).

(** [daysBefore[m]]: days in a non-leap year before month [m+1]. *)
Definition daysBefore (m : Z) : Z :=
  nth (Z.to_nat m) [0; 31; 59; 90; 120; 151; 181; 212; 243; 273; 304; 334; 365] 0.

(** Year and day of the year of an absolute day count. *)
Definition absYearDay (d0 : Z) : Z * Z :=
  let n := d0 / daysPer400Years in
  let y := 400 * n in
  let d := d0 - daysPer400Years * n in
  let n := d / daysPer100Years in
  let n := n - Z.shiftr n 2 in
  let y := y + 100 * n in
  let d := d - daysPer100Years * n in
  let n := d / daysPer4Years in
  let y := y + 4 * n in
  let d := d - daysPer4Years * n in
  let n := d / 365 in
  let n := n - Z.shiftr n 2 in
  let y := y + n in
  let d := d - 365 * n in
  (y + absoluteZeroYear, d).

(** Month (January is 1) and day of the month of day [yday] of a year that
    is a leap year or not. *)
Definition monthDayOf (leap : bool) (yday : Z) : Z * Z :=
  let plain (day : Z) :=
    let month := day / 31 in
    let e := daysBefore (month + 1) in
    if e <=? day then (month + 2, day - e + 1)
    else (month + 1, day - daysBefore month + 1) in
  if leap then
    if 31 + 29 - 1 <? yday then plain (yday - 1)
    else if yday =? 31 + 29 - 1 then (2, 29)
    else plain yday
  else plain yday.

Definition monthDay (year yday : Z) : Z * Z := monthDayOf (isLeap year) yday.

(** [absDate(abs, true)]: year, month, day. *)
Definition absDate (abs : Z) : Z * Z * Z :=
  let '(year, yday) := absYearDay (abs / secondsPerDay) in
  let '(month, day) := monthDay year yday in
  (year, month, day).

(** [absClock(abs)]: hour, minute, second. *)
Definition absClock (abs : Z) : Z * Z * Z :=
  let sec := abs mod secondsPerDay in
  let hour := sec / secondsPerHour in
  let sec := sec - hour * secondsPerHour in
  let min := sec / secondsPerMinute in
  let sec := sec - min * secondsPerMinute in
  (hour, min, sec).

Definition digit_char (d : Z) : ascii := ascii_of_N (Z.to_N (48 + d)).

(** The decimal digits of [u >= 0], most significant first, before [acc]. *)
Fixpoint decimal_digits (fuel : nat) (u : Z) (acc : string) : string :=
  match fuel with
  | O => acc
  | S f =>
      let acc' := String (digit_char (u mod 10)) acc in
      if u / 10 =? 0 then acc' else decimal_digits f (u / 10) acc'
  end.

Fixpoint zeros (n : nat) : string :=
  match n with O => "" | S k => String "0" (zeros k) end.

(** [appendInt(b, x, width)]: sign, then the digits left-padded with zeros. *)
Definition appendInt (x : Z) (width : nat) : string :=
  let ds := decimal_digits 20 (Z.abs x) "" in
  (if x <? 0 then "-" else "") ++ zeros (width - String.length ds) ++ ds.

(** [t.Format(time.RFC3339)] of a UTC time without fractional seconds. *)
Definition appendFormatRFC3339 (abs : Z) : string :=
  let '(year, month, day) := absDate abs in
  let '(hour, min, sec) := absClock abs in
  appendInt year 4 ++ "-" ++ appendInt month 2 ++ "-" ++ appendInt day 2 ++ "T"
  ++ appendInt hour 2 ++ ":" ++ appendInt min 2 ++ ":" ++ appendInt sec 2 ++ "Z".

Definition formatRFC3339 (unix : Z) : string :=
  appendFormatRFC3339 (abs_of_unix unix).

(** [fmt.Sprintf("%d", x)]. *)
Definition sprint_d (x : Z) : string :=
  (if x <? 0 then "-" else "") ++ decimal_digits 20 (Z.abs x) "".

(** ** SQLite values: TEXT comparison, ORDER BY, LIKE *)

(** [a > b] on TEXT under the BINARY collation: bytewise, a proper prefix
    sorting first. *)
Definition text_gt (a b : string) : bool :=
  match String.compare a b with Gt => true | _ => false end.

Definition text_le (a b : string) : bool := negb (text_gt a b).

(** [CASE WHEN old > new THEN old ELSE new END]. *)
Definition case_greater (old new : string) : string :=
  if text_gt old new then old else new.

(** ORDER BY: rows are taken in scan order and sorted by insertion, so rows
    with equal keys keep their scan order (SQL itself leaves the order of
    such rows open). [le x y] says that [x] may come before [y]. *)
Fixpoint insert_by {A : Type} (le : A -> A -> bool) (x : A) (l : list A) : list A :=
  match l with
  | [] => [x]
  | y :: l' => if le x y then x :: l else y :: insert_by le x l'
  end.

Fixpoint order_by {A : Type} (le : A -> A -> bool) (l : list A) : list A :=
  match l with
  | [] => []
  | x :: l' => insert_by le x (order_by le l')
  end.

(** *** LIKE

    [x LIKE p] is SQLite's own function: [likeFunc] and [patternCompare] of
    its func.c, reading characters with [sqlite3Utf8Read] of utf.c. A TEXT
    value reaches them as its bytes followed by a terminating NUL, so a text
    is read up to its first NUL byte. *)

Definition byte_of (c : ascii) : Z := Z.of_N (N_of_ascii c).

(** The table [sqlite3Utf8Trans1]: the payload bits of a lead byte
    0xC0..0xFF. *)
Definition sqlite3Utf8Trans1 : list Z :=
  [ 0x00; 0x01; 0x02; 0x03; 0x04; 0x05; 0x06; 0x07;
    0x08; 0x09; 0x0a; 0x0b; 0x0c; 0x0d; 0x0e; 0x0f;
    0x10; 0x11; 0x12; 0x13; 0x14; 0x15; 0x16; 0x17;
    0x18; 0x19; 0x1a; 0x1b; 0x1c; 0x1d; 0x1e; 0x1f;
    0x00; 0x01; 0x02; 0x03; 0x04; 0x05; 0x06; 0x07;
    0x08; 0x09; 0x0a; 0x0b; 0x0c; 0x0d; 0x0e; 0x0f;
    0x00; 0x01; 0x02; 0x03; 0x04; 0x05; 0x06; 0x07;
    0x00; 0x01; 0x02; 0x03; 0x00; 0x01; 0x00; 0x00 ].

(** The inner loop of [sqlite3Utf8Read]: while the next byte [b] has
    [b & 0xc0 == 0x80], [c = (c<<6) + (0x3f & b)] on an unsigned 32-bit
    [c]; every continuation byte that follows is taken. *)
Fixpoint read_continuation (c : Z) (z : string) : Z * string :=
  match z with
  | String b z' =>
      if Z.land (byte_of b) 0xc0 =? 0x80
      then read_continuation
             (Z.land (Z.shiftl c 6) 0xFFFFFFFF + Z.land 0x3f (byte_of b)) z'
      else (c, z)
  | EmptyString => (c, z)
  end.

(** [sqlite3Utf8Read]: the next character and the text after it; character
    0 is the end of the text. An ill-formed character reads as U+FFFD. *)
Definition sqlite3Utf8Read (z : string) : Z * string :=
  match z with
  | EmptyString => (0, z)
  | String b z' =>
      let c := byte_of b in
      if 0xc0 <=? c then
        let '(c, rest) :=
          read_continuation (nth (Z.to_nat (c - 0xc0)) sqlite3Utf8Trans1 0) z' in
        (if (c <? 0x80) || (Z.land c 0xFFFFF800 =? 0xD800)
            || (Z.land c 0xFFFFFFFE =? 0xFFFE)
         then 0xFFFD else c,
         rest)
      else (c, z')
  end.

(** The characters that repeated calls of [sqlite3Utf8Read] give, up to the
    end of the text. *)
Fixpoint read_text (fuel : nat) (z : string) : list Z :=
  match fuel with
  | O => []
  | S fuel' =>
      let '(c, rest) := sqlite3Utf8Read z in
      if c =? 0 then [] else c :: read_text fuel' rest
  end.

Definition text_chars (z : string) : list Z := read_text (String.length z) z.

(** [sqlite3Tolower] and [sqlite3Toupper], which the matcher applies to
    characters below 0x80 only: the letters A-Z and a-z are folded. *)
Definition sqlite3Tolower (c : Z) : Z :=
  if (65 <=? c) && (c <=? 90) then c + 32 else c.

Definition sqlite3Toupper (c : Z) : Z :=
  if (97 <=? c) && (c <=? 122) then c - 32 else c.

Inductive Match := SQLITE_MATCH | SQLITE_NOMATCH | SQLITE_NOWILDCARDMATCH.

(** [likeInfoNorm]: [%] and [_], no escape character, case folded. *)
Definition matchAll : Z := 37.
Definition matchOne : Z := 95.

(** After a run of wildcards, [c] is the next character of the pattern: the
    text is searched for [c], in either case when [c] is below 0x80. *)
Definition found (c c2 : Z) : bool :=
  if c <? 0x80 then (c2 =? sqlite3Toupper c) || (c2 =? sqlite3Tolower c)
  else c2 =? c.

(** Outside a run of wildcards, pattern character [c] against text character
    [c2]. *)
Definition agrees (c c2 : Z) : bool :=
  (c =? c2)
  || ((sqlite3Tolower c =? sqlite3Tolower c2) && (c <? 0x80) && (c2 <? 0x80))
  || (c =? matchOne).

(** [patternCompare] on the characters of the pattern and of the text, both
    read from left to right. [wild] holds while the loop that follows a [%]
    is running: it skips further [%], takes one character of the text for
    every [_], and then searches the text for the next pattern character,
    comparing the rest at every place where it is found. An inner
    comparison that ends in [SQLITE_NOWILDCARDMATCH] ends the search. *)
Fixpoint patternCompare (zPattern : list Z) : bool -> list Z -> Match :=
  match zPattern with
  | [] => fun wild zString =>
      if wild then SQLITE_MATCH
      else match zString with [] => SQLITE_MATCH | _ :: _ => SQLITE_NOMATCH end
  | c :: zPattern' => fun wild zString =>
      if c =? matchAll then patternCompare zPattern' true zString
      else if wild then
        if c =? matchOne then
          match zString with
          | [] => SQLITE_NOWILDCARDMATCH
          | _ :: zString' => patternCompare zPattern' true zString'
          end
        else
          (fix search (zString : list Z) : Match :=
             match zString with
             | [] => SQLITE_NOWILDCARDMATCH
             | c2 :: zString' =>
                 if found c c2 then
                   match patternCompare zPattern' false zString' with
                   | SQLITE_NOMATCH => search zString'
                   | bMatch => bMatch
                   end
                 else search zString'
             end) zString
      else
        match zString with
        | [] => SQLITE_NOMATCH
        | c2 :: zString' =>
            if agrees c c2 then patternCompare zPattern' false zString'
            else SQLITE_NOMATCH
        end
  end.

(** [text LIKE pat] for a pattern that [likeFunc] accepts. *)
Definition like (pat text : string) : bool :=
  match patternCompare (text_chars pat) false (text_chars text) with
  | SQLITE_MATCH => true
  | _ => false
  end.

(** [SQLITE_LIMIT_LIKE_PATTERN_LENGTH], at its default. *)
Definition SQLITE_MAX_LIKE_PATTERN_LENGTH : Z := 50000.

(** [likeFunc]: a pattern of more bytes than the limit is an error of the
    statement. *)
Definition likeFunc (zB zA : string) : string + bool :=
  if SQLITE_MAX_LIKE_PATTERN_LENGTH <? Z.of_nat (String.length zB)
  then inl "LIKE or GLOB pattern too complex"
  else inr (like zB zA).

(** A WHERE clause over the rows of a scan; the statement fails with the
    first row whose condition fails. *)
Fixpoint where_rows {A : Type} (cond : A -> string + bool) (l : list A)
  : string + list A :=
  match l with
  | [] => inr []
  | x :: l' =>
      match cond x with
      | inl e => inl e
      | inr b =>
          match where_rows cond l' with
          | inl e => inl e
          | inr kept => inr (if b then x :: kept else kept)
          end
      end
  end.

(** [IFNULL(x, '')]. *)
Definition ifnull (x : option string) : string :=
  match x with Some v => v | None => "" end.

(** ** Go's [strings] package *)

Definition bytes (l : list N) : string :=
  string_of_list_ascii (map ascii_of_N l).

(** The UTF-8 encodings of the runes with [unicode.IsSpace]. *)
Definition unicode_spaces : list string :=
  map bytes
    [ [9]; [10]; [11]; [12]; [13]; [32]; [194; 133]; [194; 160];
      [225; 154; 128];
      [226; 128; 128]; [226; 128; 129]; [226; 128; 130]; [226; 128; 131];
      [226; 128; 132]; [226; 128; 133]; [226; 128; 134]; [226; 128; 135];
      [226; 128; 136]; [226; 128; 137]; [226; 128; 138];
      [226; 128; 168]; [226; 128; 169]; [226; 128; 175];
      [226; 129; 159]; [227; 128; 128] ]%N.

(** [strings.CutPrefix]. *)
Fixpoint cut_prefix (p s : string) : option string :=
  match p, s with
  | EmptyString, _ => Some s
  | String a p', String b s' => if (a =? b)%char then cut_prefix p' s' else None
  | String _ _, EmptyString => None
  end.

(** [strings.TrimPrefix]. *)
Definition TrimPrefix (s p : string) : string :=
  match cut_prefix p s with Some s' => s' | None => s end.

Fixpoint cut_any (ps : list string) (s : string) : option string :=
  match ps with
  | [] => None
  | p :: ps' => match cut_prefix p s with
                | Some s' => Some s'
                | None => cut_any ps' s
                end
  end.

Fixpoint trim_left (fuel : nat) (ps : list string) (s : string) : string :=
  match fuel with
  | O => s
  | S f => match cut_any ps s with
           | Some s' => trim_left f ps s'
           | None => s
           end
  end.

Definition reverse (s : string) : string :=
  string_of_list_ascii (rev (list_ascii_of_string s)).

(** [strings.TrimSpace]: leading and trailing white space removed. *)
Definition TrimSpace (s : string) : string :=
  let l := trim_left (String.length s) unicode_spaces s in
  reverse (trim_left (String.length l) (map reverse unicode_spaces) (reverse l)).

(** [strconv.ParseInt(s, 10, 64)]: [None] stands for an error. *)
Definition digit_value (c : ascii) : option Z :=
  let n := N_of_ascii c in
  if ((48 <=? n) && (n <=? 57))%N then Some (Z.of_N n - 48) else None.

Fixpoint parse_digits (s : string) (acc : Z) : option Z :=
  match s with
  | EmptyString => Some acc
  | String c s' => match digit_value c with
                   | Some d => parse_digits s' (10 * acc + d)
                   | None => None
                   end
  end.

Definition ParseInt (s : string) : option Z :=
  let '(neg, ds) :=
    match s with
    | String c s' =>
        if (c =? "-")%char then (true, s')
        else if (c =? "+")%char then (false, s') else (false, s)
    | EmptyString => (false, s)
    end in
  match ds with
  | EmptyString => None
  | _ => match parse_digits ds 0 with
         | Some u =>
             let v := if neg then - u else u in
             if (- 2 ^ 63 <=? v) && (v <? 2 ^ 63) then Some v else None
         | None => None
         end
  end.

(** ** The persisted state ([ensureSchema]) *)

(** A row of [plex_users]. *)
Record plex_users_row := {
  pu_id : Z;
  pu_username : string;
  pu_friendly_name : option string;
  pu_user_thumb : option string;
  pu_last_seen : string
}.

(** A row of [user_ip_history]; the surrogate [id] is the position in the
    table and is never read by the program. *)
Record user_ip_history_row := {
  uih_user_id : Z;
  uih_ip : string;
  uih_first_seen : string;
  uih_last_seen : string
}.

Record DB := {
  plex_users : list plex_users_row;
  user_ip_history : list user_ip_history_row
}.

Definition empty_db : DB := {| plex_users := []; user_ip_history := [] |}.

(** The clause [DO UPDATE SET ...] of the user upsert: [r] is the stored
    row, [excluded] the row that was to be inserted. *)
Definition update_user (r excluded : plex_users_row) : plex_users_row :=
  {| pu_id := pu_id r;
     pu_username := pu_username excluded;
     pu_friendly_name := pu_friendly_name excluded;
     pu_user_thumb := pu_user_thumb excluded;
     pu_last_seen := case_greater (pu_last_seen r) (pu_last_seen excluded) |}.

(** [INSERT INTO plex_users ... ON CONFLICT(id) DO UPDATE SET ...]. *)
Fixpoint upsert_user (excluded : plex_users_row) (t : list plex_users_row)
  : list plex_users_row :=
  match t with
  | [] => [excluded]
  | r :: t' =>
      if pu_id r =? pu_id excluded then update_user r excluded :: t'
      else r :: upsert_user excluded t'
  end.

(** The clause [DO UPDATE SET last_seen = ...] of the address upsert. *)
Definition update_ip (r excluded : user_ip_history_row) : user_ip_history_row :=
  {| uih_user_id := uih_user_id r;
     uih_ip := uih_ip r;
     uih_first_seen := uih_first_seen r;
     uih_last_seen := case_greater (uih_last_seen r) (uih_last_seen excluded) |}.

(** The columns of the constraint [uq_user_ip]. *)
Definition uq_user_ip (r : user_ip_history_row) : Z * string :=
  (uih_user_id r, uih_ip r).

Definition uq_eqb (a b : Z * string) : bool :=
  (fst a =? fst b) && (snd a =? snd b)%string.

(** [INSERT INTO user_ip_history ... ON CONFLICT(user_id, ip) DO UPDATE SET
    last_seen = ...]. *)
Fixpoint upsert_ip (excluded : user_ip_history_row) (t : list user_ip_history_row)
  : list user_ip_history_row :=
  match t with
  | [] => [excluded]
  | r :: t' =>
      if uq_eqb (uq_user_ip r) (uq_user_ip excluded) then update_ip r excluded :: t'
      else r :: upsert_ip excluded t'
  end.

(** The constraints [PRIMARY KEY (id)] and [UNIQUE (user_id, ip)]. *)
Definition constraints_hold (db : DB) : Prop :=
  NoDup (map pu_id (plex_users db))
  /\ NoDup (map uq_user_ip (user_ip_history db)).

Definition find_user (uid : Z) (db : DB) : option plex_users_row :=
  find (fun r => pu_id r =? uid) (plex_users db).

Definition find_ip (uid : Z) (ip : string) (db : DB) : option user_ip_history_row :=
  find (fun r => uq_eqb (uq_user_ip r) (uid, ip)) (user_ip_history db).

(** ** Ingestion *)

Record TautulliItem := {
  UserID : Z;
  User : string;
  FriendlyName : option string;
  UserThumb : option string;
  IPAddress : option string;
  Date : option Z
}.

(** What the program does not decide: the wall clock, the configured token
    and whether a statement sent to the store fails (with the driver's
    message: a lost connection, a full disk, a limit of the store such as
    the length of a LIKE pattern). Statements of the loop are indexed by
    the position of their item. *)
Record World := {
  now : nat -> Z;
  ingest_token : string;
  begin_err : option string;
  user_upsert_err : nat -> option string;
  ip_upsert_err : nat -> option string;
  commit_err : option string;
  query_row_fails : bool;
  query_err : option string
}.

(** [ts] of the loop body, as Unix seconds. *)
Definition effective_ts (wall : Z) (it : TautulliItem) : Z :=
  match Date it with
  | Some d => if 0 <? d then d else wall
  | None => wall
  end.

Definition user_of_item (it : TautulliItem) (tsStr : string) : plex_users_row :=
  {| pu_id := UserID it; pu_username := User it;
     pu_friendly_name := FriendlyName it; pu_user_thumb := UserThumb it;
     pu_last_seen := tsStr |}.

Definition ip_of_item (it : TautulliItem) (ip tsStr : string) : user_ip_history_row :=
  {| uih_user_id := UserID it; uih_ip := ip;
     uih_first_seen := tsStr; uih_last_seen := tsStr |}.

(** The loop of [ingestItems] on the transaction's view [tx] of the store;
    [inl] is the error returned from inside the loop. *)
Fixpoint ingest_loop (w : World) (i : nat) (arr : list TautulliItem) (tx : DB)
  : string + DB :=
  match arr with
  | [] => inr tx
  | it :: rest =>
      let tsStr := formatRFC3339 (effective_ts (now w i) it) in
      match user_upsert_err w i with
      | Some e => inl ("user upsert: " ++ e)
      | None =>
          let tx1 := {| plex_users := upsert_user (user_of_item it tsStr) (plex_users tx);
                        user_ip_history := user_ip_history tx |} in
          match IPAddress it with
          | Some ip =>
              if (ip =? "")%string then ingest_loop w (S i) rest tx1
              else
                match ip_upsert_err w i with
                | Some e => inl ("ip upsert: " ++ e)
                | None =>
                    ingest_loop w (S i) rest
                      {| plex_users := plex_users tx1;
                         user_ip_history :=
                           upsert_ip (ip_of_item it ip tsStr) (user_ip_history tx1) |}
                end
          | None => ingest_loop w (S i) rest tx1
          end
      end
  end.

(** [ingestItems]: the store after the call and the returned error. The
    deferred [tx.Rollback()] discards the transaction's view unless
    [tx.Commit()] succeeded. *)
Definition ingestItems (w : World) (arr : list TautulliItem) (db : DB)
  : DB * option string :=
  match begin_err w with
  | Some e => (db, Some e)
  | None =>
      match ingest_loop w 0 arr db with
      | inl e => (db, Some e)
      | inr tx =>
          match commit_err w with
          | Some e => (db, Some e)
          | None => (tx, None)
          end
      end
  end.

(** ** The push endpoint *)

(** The request body as the handler sees it: the read may fail; otherwise
    [asArray] is the outcome of [json.Unmarshal(body, &arr)] and [asObject]
    that of [json.Unmarshal(body, &obj)] followed by [obj.Data] ([None]: the
    call returned an error). *)
Inductive BodyRead :=
| ReadError (msg : string)
| ReadOk (asArray asObject : option (list TautulliItem)).

Record Request := {
  Method : string;
  Authorization : string;
  Body : BodyRead
}.

Inductive Response :=
| HttpError (msg : string) (code : Z)
| Json (body : string).

(** The JSON text written on success: an object with the one key
    [ingested]. *)
Definition dquote : string := String (ascii_of_N 34) "".

Definition ingested_body (n : Z) : string :=
  "{" ++ dquote ++ "ingested" ++ dquote ++ ":" ++ sprint_d n ++ "}".

(** The batch the two [json.Unmarshal] calls leave in [arr]: the second call
    is made only when the first returned an error. *)
Definition decoded (asArray asObject : option (list TautulliItem))
  : option (list TautulliItem) :=
  match asArray with
  | Some arr => Some arr
  | None => asObject
  end.

Definition handleIngest (w : World) (r : Request) (db : DB) : DB * Response :=
  if negb (Method r =? "POST")%string then (db, HttpError "POST only" 405)
  else
    let want := ingest_token w in
    let got := TrimPrefix (Authorization r) "Bearer " in
    if negb (want =? "")%string && negb (got =? want)%string
    then (db, HttpError "unauthorized" 401)
    else
      match Body r with
      | ReadError e => (db, HttpError e 400)
      | ReadOk asArray asObject =>
          match decoded asArray asObject with
          | None => (db, HttpError "bad json" 400)
          | Some arr =>
              if (List.length arr =? 0)%nat then (db, Json (ingested_body 0))
              else
                match ingestItems w arr db with
                | (db', Some e) => (db', HttpError e 500)
                | (db', None) =>
                    (db', Json (ingested_body (Z.of_nat (List.length arr))))
                end
          end
      end.

(** A sequence of ingest calls, each in its own world; a call that returns
    an error leaves the store as [ingestItems] left it. *)
Definition ingest_calls (calls : list (World * list TautulliItem)) (db : DB) : DB :=
  fold_left (fun d c => fst (ingestItems (fst c) (snd c) d)) calls db.

(** ** The last-IP projection and the queries *)

(** [SELECT ... FROM user_ip_history uih WHERE uih.user_id = ? ORDER BY
    uih.last_seen DESC]. *)
Definition last_seen_desc (x y : user_ip_history_row) : bool :=
  text_le (uih_last_seen y) (uih_last_seen x).

Definition history_of (uid : Z) (t : list user_ip_history_row)
  : list user_ip_history_row :=
  order_by last_seen_desc (filter (fun uih => uih_user_id uih =? uid) t).

(** A row of the view [users_last_ip]. *)
Record users_last_ip_row := {
  uli_user_id : Z;
  uli_username : string;
  uli_friendly_name : option string;
  uli_last_ip : option string;
  uli_updated_at : option string
}.

(** The scalar subquery [... ORDER BY uih.last_seen DESC LIMIT 1] of the
    view, as a whole row. *)
Definition latest_observation (uid : Z) (t : list user_ip_history_row)
  : option user_ip_history_row :=
  hd_error (history_of uid t).

(** The view: per user the two scalar subqueries, NULL when the user has no
    history row. *)
Definition last_ip_row (db : DB) (pu : plex_users_row) : users_last_ip_row :=
  {| uli_user_id := pu_id pu;
     uli_username := pu_username pu;
     uli_friendly_name := pu_friendly_name pu;
     uli_last_ip := option_map uih_ip (latest_observation (pu_id pu) (user_ip_history db));
     uli_updated_at :=
       option_map uih_last_seen (latest_observation (pu_id pu) (user_ip_history db)) |}.

Definition users_last_ip (db : DB) : list users_last_ip_row :=
  map (last_ip_row db) (plex_users db).

(** The struct [Row] of [handleSummary]. *)
Record Row := {
  Row_UserID : Z;
  Row_Username : string;
  Row_FriendlyName : option string;
  Row_LastIP : option string;
  Row_UpdatedAt : option string
}.

(** [FROM users_last_ip uli JOIN plex_users pu ON pu.id = uli.user_id]. *)
Definition summary_join (db : DB) : list (users_last_ip_row * plex_users_row) :=
  flat_map (fun uli =>
              map (fun pu => (uli, pu))
                  (filter (fun pu => pu_id pu =? uli_user_id uli) (plex_users db)))
           (users_last_ip db).

(** The WHERE clause added for a non-empty [q]: [pu.username LIKE ? OR
    IFNULL(uli.last_ip,'') LIKE ? OR IFNULL(pu.friendly_name,'') LIKE ?],
    each [?] bound to ["%" + q + "%"]. *)
Definition summary_where (q : string) (j : users_last_ip_row * plex_users_row)
  : string + bool :=
  let p := "%" ++ q ++ "%" in
  match likeFunc p (pu_username (snd j)) with
  | inl e => inl e
  | inr true => inr true
  | inr false =>
      match likeFunc p (ifnull (uli_last_ip (fst j))) with
      | inl e => inl e
      | inr true => inr true
      | inr false => likeFunc p (ifnull (pu_friendly_name (snd j)))
      end
  end.

Definition username_asc (x y : users_last_ip_row * plex_users_row) : bool :=
  text_le (pu_username (snd x)) (pu_username (snd y)).

Definition summary_select (j : users_last_ip_row * plex_users_row) : Row :=
  {| Row_UserID := pu_id (snd j);
     Row_Username := pu_username (snd j);
     Row_FriendlyName := pu_friendly_name (snd j);
     Row_LastIP := uli_last_ip (fst j);
     Row_UpdatedAt := uli_updated_at (fst j) |}.

(** What a query handler answers: an error, or the data handed to the
    template. *)
Inductive Page (A : Type) :=
| PageError (msg : string) (code : Z)
| Render (data : A).
Arguments PageError {A} msg code.
Arguments Render {A} data.

(** The text of a driver error with result code SQLITE_ERROR. *)
Definition sql_logic_error (msg : string) : string :=
  "SQL logic error: " ++ msg ++ " (1)".

(** [handleSummary]; [q] is the query parameter, [None] when absent. *)
Definition handleSummary (w : World) (q : option string) (db : DB) : Page (list Row) :=
  let q := TrimSpace (match q with Some v => v | None => "" end) in
  match query_err w with
  | Some e => PageError e 500
  | None =>
      let rows := summary_join db in
      match (if negb (q =? "")%string then where_rows (summary_where q) rows
             else inr rows) with
      | inl e => PageError (sql_logic_error e) 500
      | inr rows => Render (map summary_select (order_by username_asc rows))
      end
  end.

(** The struct [IPRow] of [handleUserIPs]. *)
Record IPRow := {
  IP : string;
  FirstSeen : string;
  LastSeen : string
}.

Definition ip_row (r : user_ip_history_row) : IPRow :=
  {| IP := uih_ip r; FirstSeen := uih_first_seen r; LastSeen := uih_last_seen r |}.

Record UserIPs := {
  Username : string;
  IPs : list IPRow
}.

(** [handleUserIPs] on the request path [path]. *)
Definition handleUserIPs (w : World) (path : string) (db : DB) : Page UserIPs :=
  let idStr := TrimPrefix path "/partial/user/" in
  match ParseInt idStr with
  | None => PageError "bad id" 400
  | Some uid =>
      let username :=
        if query_row_fails w then ""
        else match find_user uid db with
             | Some pu => pu_username pu
             | None => ""
             end in
      let username :=
        if (username =? "")%string then "User " ++ sprint_d uid else username in
      match query_err w with
      | Some e => PageError e 500
      | None =>
          Render {| Username := username;
                    IPs := map ip_row (history_of uid (user_ip_history db)) |}
      end
  end.

(** A world in which no store operation fails. *)
Definition store_ok (w : World) : Prop :=
  begin_err w = None /\ (forall i, user_upsert_err w i = None)
  /\ (forall i, ip_upsert_err w i = None) /\ commit_err w = None
  /\ query_row_fails w = false /\ query_err w = None.

Definition calm (wall : Z) : World :=
  {| now := fun _ => wall; ingest_token := "";
     begin_err := None; user_upsert_err := fun _ => None;
     ip_upsert_err := fun _ => None; commit_err := None;
     query_row_fails := false; query_err := None |}.

(** A world in which the user upsert of item [k] fails. *)
Definition failing_at (k : nat) : World :=
  {| now := fun _ => 0; ingest_token := "";
     begin_err := None;
     user_upsert_err := fun i => if (i =? k)%nat then Some "disk I/O error" else None;
     ip_upsert_err := fun _ => None; commit_err := None;
     query_row_fails := false; query_err := None |}.

Definition item (uid : Z) (user : string) (ip : option string) (date : option Z)
  : TautulliItem :=
  {| UserID := uid; User := user; FriendlyName := None; UserThumb := None;
     IPAddress := ip; Date := date |}.

(** ** Notions used to state the properties *)

(** The last instant RFC 3339 can write: 9999-12-31T23:59:59Z. *)
Definition maxRFC3339 : Z := 253402300799.

(** A day count [d] written in the mixed radix of the calendar: [n] cycles
    of 400 years, then [c] centuries, [q] cycles of 4 years, [e] years and
    [r] days, the last century and the last year of a cycle being a day
    longer. *)
Definition calendar_split (d n c q e r : Z) : Prop :=
  d = daysPer400Years * n + daysPer100Years * c + daysPer4Years * q + 365 * e + r
  /\ 0 <= n /\ 0 <= c <= 3 /\ 0 <= q <= 24 /\ 0 <= e <= 3 /\ 0 <= r <= 365
  /\ (e < 3 -> r < 365) /\ 365 * e + r < daysPer4Years
  /\ (c < 3 -> daysPer4Years * q + 365 * e + r < daysPer100Years)
  /\ daysPer100Years * c + daysPer4Years * q + 365 * e + r < daysPer400Years.

(** The item carries an explicit positive time stamp. *)
Definition dated (it : TautulliItem) : Prop :=
  exists d, Date it = Some d /\ 0 < d.

(** The item carries an address that the loop stores. *)
Definition address_of (it : TautulliItem) : option string :=
  match IPAddress it with
  | Some ip => if (ip =? "")%string then None else Some ip
  | None => None
  end.

(** Item [it] at position [i] makes a statement of the transaction fail. *)
Definition triggers_error (w : World) (i : nat) (it : TautulliItem) : Prop :=
  user_upsert_err w i <> None
  \/ (address_of it <> None /\ ip_upsert_err w i <> None).

(** The items of a batch with the time stamp text the loop gives them. *)
Fixpoint stamps (w : World) (i : nat) (arr : list TautulliItem)
  : list (TautulliItem * string) :=
  match arr with
  | [] => []
  | it :: rest =>
      (it, formatRFC3339 (effective_ts (now w i) it)) :: stamps w (S i) rest
  end.

Definition step_users (t : list plex_users_row) (o : TautulliItem * string) :=
  upsert_user (user_of_item (fst o) (snd o)) t.

Definition step_history (t : list user_ip_history_row) (o : TautulliItem * string) :=
  match address_of (fst o) with
  | Some ip => upsert_ip (ip_of_item (fst o) ip (snd o)) t
  | None => t
  end.

(** The rows the two statements of the loop body try to insert. *)
Definition excluded_user (o : TautulliItem * string) : plex_users_row :=
  user_of_item (fst o) (snd o).

Definition excluded_ips (o : TautulliItem * string) : list user_ip_history_row :=
  match address_of (fst o) with
  | Some ip => [ip_of_item (fst o) ip (snd o)]
  | None => []
  end.

(** The stamped items of a sequence of calls, in order. *)
Definition all_stamps (calls : list (World * list TautulliItem))
  : list (TautulliItem * string) :=
  flat_map (fun c => stamps (fst c) 0 (snd c)) calls.

(** The effect of a list of stamped items on the two tables. *)
Definition apply_stamps (obs : list (TautulliItem * string)) (db : DB) : DB :=
  {| plex_users := fold_left step_users obs (plex_users db);
     user_ip_history := fold_left step_history obs (user_ip_history db) |}.

(** The explicit dates the calls supply for user [uid], in call order. *)
Definition dates_for (uid : Z) (calls : list (World * list TautulliItem)) : list Z :=
  flat_map (fun c =>
              flat_map (fun it =>
                          if UserID it =? uid
                          then match Date it with Some d => [d] | None => [] end
                          else [])
                       (snd c))
           calls.

Definition max_list (l : list Z) : Z := fold_right Z.max 0 l.

(** Every item of the calls that references [uid] satisfies [P]. *)
Definition items_for (uid : Z) (P : TautulliItem -> Prop)
           (calls : list (World * list TautulliItem)) : Prop :=
  Forall (fun c => Forall (fun it => UserID it = uid -> P it) (snd c)) calls.

Definition in_rfc3339_range (it : TautulliItem) : Prop :=
  exists d, Date it = Some d /\ 0 < d <= maxRFC3339.

(** The [last_seen] of row [r] is the text of instant [a], an instant that
    RFC 3339 can write: from the epoch to 9999-12-31T23:59:59Z. *)
Definition last_seen_at (r : user_ip_history_row) (a : Z) : Prop :=
  0 <= a <= maxRFC3339 /\ uih_last_seen r = formatRFC3339 a.

(** [first_seen <= last_seen] on every history row, in the order in which
    the store compares the two TEXT columns. *)
Definition history_invariant (db : DB) : Prop :=
  Forall (fun r => text_le (uih_first_seen r) (uih_last_seen r) = true)
         (user_ip_history db).

(** The time stamp text of the first item of the batch that stores the pair
    [(uid, ip)]. *)
Fixpoint first_stamp (uid : Z) (ip : string) (obs : list (TautulliItem * string))
  : option string :=
  match obs with
  | [] => None
  | o :: rest =>
      match address_of (fst o) with
      | Some a =>
          if (UserID (fst o) =? uid) && (a =? ip)%string then Some (snd o)
          else first_stamp uid ip rest
      | None => first_stamp uid ip rest
      end
  end.

(** Two characters are the same letter: equal, or the two cases of one of
    the letters A-Z. *)
Definition lower_ascii (c : Z) : Z :=
  if (65 <=? c) && (c <=? 90) then c + 32 else c.

Definition same_letter (a b : Z) : bool :=
  (a =? b) || ((a <? 128) && (b <? 128) && (lower_ascii a =? lower_ascii b)).

(** The characters [p] begin the characters [s], letter by letter. *)
Fixpoint prefix_ci (p s : list Z) : bool :=
  match p, s with
  | [], _ => true
  | a :: p', b :: s' => same_letter a b && prefix_ci p' s'
  | _ :: _, [] => false
  end.

(** The characters [s] contain the run of characters [p]. *)
Fixpoint contains_ci (p s : list Z) : bool :=
  prefix_ci p s
  || match s with
     | [] => false
     | _ :: s' => contains_ci p s'
     end.

(** [q] holds no LIKE wildcard and no NUL byte. *)
Fixpoint plain (q : string) : bool :=
  match q with
  | EmptyString => true
  | String c q' =>
      negb (byte_of c =? 37) && negb (byte_of c =? 95) && negb (byte_of c =? 0)
      && plain q'
  end.

(** The summary row of a user. *)
Definition summary_row (db : DB) (pu : plex_users_row) : Row :=
  summary_select (last_ip_row db pu, pu).

(** The filter of the summary as the specification words it: one of the
    three columns contains the filter, as a run of characters and up to the
    case of ASCII letters. *)
Definition row_contains (q : string) (r : Row) : bool :=
  contains_ci (text_chars q) (text_chars (Row_Username r))
  || contains_ci (text_chars q) (text_chars (ifnull (Row_LastIP r)))
  || contains_ci (text_chars q) (text_chars (ifnull (Row_FriendlyName r))).

(** A text of [n] bytes [c]. *)
Fixpoint replicate (n : nat) (c : ascii) : string :=
  match n with
  | O => EmptyString
  | S n' => String c (replicate n' c)
  end.

(** A NUL byte, and the UTF-8 texts of the letters E-acute (U+00C9) and
    e-acute (U+00E9). *)
Definition nul : string := String zero "".
Definition E_acute : string := bytes [195; 137]%N.
Definition e_acute : string := bytes [195; 169]%N.

Definition POST (w : World) (body : BodyRead) : Request :=
  {| Method := "POST"; Authorization := "Bearer " ++ ingest_token w; Body := body |}.

(** ** Start-up: [env], [main] and [pingRetry] *)








(** The loop of [pingRetry]: [ping k] is the outcome of the attempt number
    [k] (from 0), [None] for success; [n] attempts are left, [err] is the
    last error and [sleeps] counts the calls of [time.Sleep]. *)
Fixpoint ping_loop (ping : nat -> option string) (n k : nat)
         (err : option string) (sleeps : nat) : option string * nat :=
  match n with
  | O => (err, sleeps)
  | S n' =>
      match ping k with
      | None => (None, sleeps)
      | Some e => ping_loop ping n' (S k) (Some e) (S sleeps)
      end
  end.

(** [pingRetry(db, tries, backoff)]: the error returned and the number of
    back-offs slept. *)
Definition pingRetry (ping : nat -> option string) (tries : Z)
  : option string * nat :=
  ping_loop ping (Z.to_nat tries) 0 None 0.

(** ** The fetcher: [fetchTautulli], [fetchOnce], [runFetcher] *)

(** The decoded envelope; [ResultLower] is
    [strings.ToLower(outer.Response.Result)]. *)
Record Envelope := {
  Result : string;
  ResultLower : string;
  Data : list TautulliItem
}.

(** What one request to the source comes to: the configured URL does not
    parse, the transport fails, or a response arrives with its status code,
    its body and the outcome of [json.Unmarshal(body, &outer)] ([inl]: the
    error text). *)
Inductive Fetched :=
| BadURL (err : string)
| TransportError (err : string)
| HttpResponse (StatusCode : Z) (body : string) (decoded : string + Envelope).

(** [fetchTautulli]: the error text or the items. *)
Definition fetchTautulli (f : Fetched) : string + list TautulliItem :=
  match f with
  | BadURL e => inl e
  | TransportError e => inl e
  | HttpResponse code body decoded =>
      if negb (Z.quot code 100 =? 2)
      then inl ("tautulli http " ++ sprint_d code ++ ": " ++ body)
      else
        match decoded with
        | inl e => inl ("unmarshal: " ++ e)
        | inr outer =>
            if negb (ResultLower outer =? "success")%string
            then inl ("tautulli result: " ++ Result outer)
            else inr (Data outer)
        end
  end.

(** [fetchOnce]: the store after the cycle and the line it logs, if any. *)
Definition fetchOnce (url : string) (w : World) (f : Fetched) (db : DB)
  : DB * option string :=
  match fetchTautulli f with
  | inl e => (db, Some ("fetch error: " ++ e))
  | inr items =>
      if (List.length items =? 0)%nat then (db, None)
      else
        match ingestItems w items db with
        | (db', Some e) => (db', Some ("ingest error: " ++ e))
        | (db', None) =>
            (db', Some ("ingested " ++ sprint_d (Z.of_nat (List.length items))
                        ++ " items from Tautulli: " ++ url))
        end
  end.

(** The first cycles of [runFetcher]: one at once, then one per tick; each
    cycle has its own world and its own outcome of the request. *)
Definition runFetcher (url : string) (cycles : list (World * Fetched)) (db : DB) : DB :=
  fold_left (fun d c => fst (fetchOnce url (fst c) (snd c) d)) cycles db.

(** The batches that the cycles fetched, with the worlds they were ingested
    in. *)
Definition fetched_batches (cycles : list (World * Fetched))
  : list (World * list TautulliItem) :=
  flat_map (fun c => match fetchTautulli (snd c) with
                     | inr items => [(fst c, items)]
                     | inl _ => []
                     end)
           cycles.

(** ** Further notions used to state properties *)

(** The explicit dates the calls supply for the pair [(uid, ip)]. *)
Definition dates_for_pair (uid : Z) (ip : string)
           (calls : list (World * list TautulliItem)) : list Z :=
  flat_map (fun c =>
              flat_map (fun it =>
                          if (UserID it =? uid)
                             && match address_of it with
                                | Some a => (a =? ip)%string
                                | None => false
                                end
                          then match Date it with Some d => [d] | None => [] end
                          else [])
                       (snd c))
           calls.

(** Every item of the calls that stores the pair [(uid, ip)] satisfies [P]. *)
Definition items_for_pair (uid : Z) (ip : string) (P : TautulliItem -> Prop)
           (calls : list (World * list TautulliItem)) : Prop :=
  Forall (fun c => Forall (fun it => UserID it = uid -> address_of it = Some ip -> P it)
                          (snd c))
         calls.

(** * Properties *)

(** ** The TEXT order *)

Lemma compare_refl (a : string) : String.compare a a = Eq.
Proof. apply String_as_OT.cmp_eq. reflexivity. Qed.

Lemma compare_lt_trans (a b c : string) :
  String.compare a b = Lt -> String.compare b c = Lt -> String.compare a c = Lt.
Proof.
  intros H1 H2. apply String_as_OT.cmp_lt.
  apply String_as_OT.cmp_lt in H1. apply String_as_OT.cmp_lt in H2.
  eapply String_as_OT.lt_trans; eassumption.
Qed.

Lemma compare_gt_lt (a b : string) :
  String.compare a b = Gt <-> String.compare b a = Lt.
Proof.
  pose proof (String_as_OT.cmp_antisym a b) as H. unfold String_as_OT.cmp in H.
  destruct (String.compare b a); simpl in H; rewrite H; split; congruence.
Qed.

Lemma text_gt_lt (a b : string) : text_gt a b = true <-> String.compare b a = Lt.
Proof.
  unfold text_gt. rewrite <- compare_gt_lt.
  destruct (String.compare a b); split; congruence.
Qed.

Lemma text_le_refl (a : string) : text_le a a = true.
Proof. unfold text_le, text_gt. now rewrite compare_refl. Qed.

Lemma text_le_total (a b : string) : text_le a b = true \/ text_le b a = true.
Proof.
  unfold text_le.
  destruct (text_gt a b) eqn:E1; [right | now left].
  destruct (text_gt b a) eqn:E2; [| reflexivity].
  apply text_gt_lt in E1. apply text_gt_lt in E2.
  apply compare_gt_lt in E2. congruence.
Qed.

Lemma text_le_antisym (a b : string) :
  text_le a b = true -> text_le b a = true -> a = b.
Proof.
  unfold text_le, text_gt. intros H1 H2.
  destruct (String.compare a b) eqn:E; try discriminate.
  - now apply String_as_OT.cmp_eq.
  - apply compare_gt_lt in E. now rewrite E in H2.
Qed.

Lemma text_le_trans (a b c : string) :
  text_le a b = true -> text_le b c = true -> text_le a c = true.
Proof.
  unfold text_le. intros H1 H2.
  destruct (text_gt a c) eqn:E; [| reflexivity]. exfalso.
  apply text_gt_lt in E.
  destruct (String.compare a b) eqn:Eab.
  - apply String_as_OT.cmp_eq in Eab. subst b.
    apply text_gt_lt in E. now rewrite E in H2.
  - pose proof (compare_lt_trans _ _ _ E Eab) as Hcb.
    apply text_gt_lt in Hcb. now rewrite Hcb in H2.
  - unfold text_gt in H1. now rewrite Eab in H1.
Qed.

Lemma case_greater_ge_old (old new : string) :
  text_le old (case_greater old new) = true.
Proof.
  unfold case_greater. destruct (text_gt old new) eqn:E.
  - apply text_le_refl.
  - unfold text_le. now rewrite E.
Qed.

Lemma case_greater_ge_new (old new : string) :
  text_le new (case_greater old new) = true.
Proof.
  unfold case_greater. destruct (text_gt old new) eqn:E.
  - destruct (text_le_total new old) as [H | H]; [exact H |].
    unfold text_le in H. now rewrite E in H.
  - apply text_le_refl.
Qed.

Lemma case_greater_absorb (old new : string) :
  text_le new old = true -> case_greater old new = old.
Proof.
  intros H. unfold case_greater. destruct (text_gt old new) eqn:E; [reflexivity |].
  apply text_le_antisym; [exact H | unfold text_le; now rewrite E].
Qed.

(** ** RFC 3339 text and the order of instants

    Up to 9999-12-31T23:59:59Z the text has a fixed width and its bytewise
    order is the order of the instants. *)

Lemma range_forallb (P : Z -> bool) (n : nat) :
  forallb P (map Z.of_nat (seq 0 n)) = true ->
  forall x, 0 <= x < Z.of_nat n -> P x = true.
Proof.
  intros H x Hx. rewrite forallb_forall in H. apply H.
  apply in_map_iff. exists (Z.to_nat x). split; [lia |].
  apply in_seq. lia.
Qed.

Lemma digit_char_compare (a b : Z) :
  0 <= a <= 9 -> 0 <= b <= 9 ->
  Ascii.compare (digit_char a) (digit_char b) = (a ?= b).
Proof.
  intros Ha Hb.
  pose proof (range_forallb
                (fun a => forallb (fun b => match Ascii.compare (digit_char a) (digit_char b), a ?= b with
                                            | Eq, Eq | Lt, Lt | Gt, Gt => true
                                            | _, _ => false
                                            end)
                                  (map Z.of_nat (seq 0 10)))
                10 eq_refl a ltac:(simpl; lia)) as H.
  pose proof (range_forallb _ 10 H b ltac:(simpl; lia)) as H'. simpl in H'.
  destruct (Ascii.compare (digit_char a) (digit_char b)), (a ?= b);
    congruence.
Qed.

Lemma compare_cons_digit (a b : Z) (s t : string) :
  0 <= a <= 9 -> 0 <= b <= 9 ->
  String.compare (String (digit_char a) s) (String (digit_char b) t)
  = match a ?= b with Eq => String.compare s t | c => c end.
Proof. intros Ha Hb. simpl. now rewrite digit_char_compare. Qed.

Lemma compare_cons_same (c : ascii) (s t : string) :
  String.compare (String c s) (String c t) = String.compare s t.
Proof.
  simpl. replace (Ascii.compare c c) with Eq; [reflexivity |].
  symmetry. apply Ascii_as_OT.cmp_eq. reflexivity.
Qed.

(** Two-digit and four-digit fields. *)
Lemma appendInt_2 (x : Z) :
  0 <= x <= 99 ->
  appendInt x 2 = String (digit_char (x / 10)) (String (digit_char (x mod 10)) "").
Proof.
  intros Hx.
  pose proof (range_forallb
                (fun x => (appendInt x 2 =?
                           String (digit_char (x / 10))
                                  (String (digit_char (x mod 10)) ""))%string)
                100 ltac:(vm_compute; reflexivity) x ltac:(simpl; lia)) as H.
  now apply String.eqb_eq in H.
Qed.

Lemma decimal_digits_step (f : nat) (u : Z) (acc : string) :
  decimal_digits (S f) u acc =
  if u / 10 =? 0 then String (digit_char (u mod 10)) acc
  else decimal_digits f (u / 10) (String (digit_char (u mod 10)) acc).
Proof. reflexivity. Qed.

Ltac same_digits :=
  simpl;
  repeat match goal with
         | |- String _ _ = String _ _ => apply (f_equal2 String)
         | |- digit_char _ = digit_char _ =>
             apply (f_equal digit_char); Z.div_mod_to_equations; lia
         | |- "0"%char = digit_char _ =>
             change "0"%char with (digit_char 0);
             apply (f_equal digit_char); Z.div_mod_to_equations; lia
         | |- EmptyString = EmptyString => reflexivity
         end.

Ltac decide_eqb b :=
  match goal with
  | |- context [?x =? 0] =>
      replace (x =? 0) with b
        by (symmetry; first [apply Z.eqb_eq | apply Z.eqb_neq];
            Z.div_mod_to_equations; lia)
  end.

Lemma appendInt_4 (y : Z) :
  0 <= y <= 9999 ->
  appendInt y 4 = appendInt (y / 100) 2 ++ appendInt (y mod 100) 2.
Proof.
  intros Hy.
  rewrite !appendInt_2 by (Z.div_mod_to_equations; lia).
  unfold appendInt.
  replace (y <? 0) with false by (symmetry; apply Z.ltb_ge; lia).
  rewrite Z.abs_eq by lia.
  assert (y < 10 \/ 10 <= y < 100 \/ 100 <= y < 1000 \/ 1000 <= y) as [H | [H | [H | H]]]
      by lia.
  - rewrite decimal_digits_step. decide_eqb true. same_digits.
  - rewrite decimal_digits_step. decide_eqb false.
    rewrite decimal_digits_step. decide_eqb true. same_digits.
  - rewrite decimal_digits_step. decide_eqb false.
    rewrite decimal_digits_step. decide_eqb false.
    rewrite decimal_digits_step. decide_eqb true. same_digits.
  - rewrite decimal_digits_step. decide_eqb false.
    rewrite decimal_digits_step. decide_eqb false.
    rewrite decimal_digits_step. decide_eqb false.
    rewrite decimal_digits_step. decide_eqb true. same_digits.
Qed.

Lemma compare_field_2 (x y : Z) (s t : string) :
  0 <= x <= 99 -> 0 <= y <= 99 ->
  String.compare (appendInt x 2 ++ s) (appendInt y 2 ++ t)
  = match x ?= y with Eq => String.compare s t | c => c end.
Proof.
  intros Hx Hy. rewrite !appendInt_2 by assumption. simpl append.
  rewrite compare_cons_digit by (Z.div_mod_to_equations; lia).
  destruct (Z.compare_spec (x / 10) (y / 10)) as [E | E | E].
  - rewrite compare_cons_digit by (Z.div_mod_to_equations; lia).
    destruct (Z.compare_spec (x mod 10) (y mod 10)) as [E' | E' | E'];
      destruct (Z.compare_spec x y); try reflexivity;
        exfalso; Z.div_mod_to_equations; lia.
  - destruct (Z.compare_spec x y); try reflexivity;
      exfalso; Z.div_mod_to_equations; lia.
  - destruct (Z.compare_spec x y); try reflexivity;
      exfalso; Z.div_mod_to_equations; lia.
Qed.

Lemma append_assoc (a b c : string) : (a ++ b) ++ c = a ++ (b ++ c).
Proof. induction a as [| x a IH]; simpl; [| rewrite IH]; reflexivity. Qed.

Lemma compare_field_4 (x y : Z) (s t : string) :
  0 <= x <= 9999 -> 0 <= y <= 9999 ->
  String.compare (appendInt x 4 ++ s) (appendInt y 4 ++ t)
  = match x ?= y with Eq => String.compare s t | c => c end.
Proof.
  intros Hx Hy. rewrite !appendInt_4 by assumption. rewrite !append_assoc.
  rewrite compare_field_2 by (Z.div_mod_to_equations; lia).
  destruct (Z.compare_spec (x / 100) (y / 100)) as [E | E | E].
  - rewrite compare_field_2 by (Z.div_mod_to_equations; lia).
    destruct (Z.compare_spec (x mod 100) (y mod 100)) as [E' | E' | E'];
      destruct (Z.compare_spec x y); try reflexivity;
        exfalso; Z.div_mod_to_equations; lia.
  - destruct (Z.compare_spec x y); try reflexivity;
      exfalso; Z.div_mod_to_equations; lia.
  - destruct (Z.compare_spec x y); try reflexivity;
      exfalso; Z.div_mod_to_equations; lia.
Qed.

(** *** The calendar *)

Lemma absYearDay_split (d : Z) :
  0 <= d ->
  exists n c q e r,
    absYearDay d = (400 * n + 100 * c + 4 * q + e + absoluteZeroYear, r)
    /\ calendar_split d n c q e r.
Proof.
  intros Hd. unfold absYearDay, calendar_split.
  unfold daysPer400Years, daysPer100Years, daysPer4Years. cbv zeta.
  rewrite !Z.shiftr_div_pow2 by lia. change (2 ^ 2) with 4.
  change (365 * 400 + 97) with 146097. change (365 * 100 + 24) with 36524.
  change (365 * 4 + 1) with 1461.
  set (n := d / 146097).
  set (r0 := d - 146097 * n).
  assert (0 <= n /\ 0 <= r0 < 146097) as (Hn & Hr0)
      by (subst r0 n; Z.div_mod_to_equations; lia).
  set (c0 := r0 / 36524).
  set (c := c0 - c0 / 4).
  assert (0 <= c <= 3 /\ 0 <= r0 - 36524 * c <= 36524
          /\ (c < 3 -> r0 - 36524 * c < 36524)) as (Hc & Hr1 & Hr1')
      by (subst c c0; Z.div_mod_to_equations; lia).
  set (r1 := r0 - 36524 * c) in *.
  set (q := r1 / 1461).
  set (r2 := r1 - 1461 * q).
  assert (0 <= q <= 24 /\ 0 <= r2 < 1461) as (Hq & Hr2)
      by (subst r2 q; Z.div_mod_to_equations; lia).
  set (e0 := r2 / 365).
  set (e := e0 - e0 / 4).
  assert (0 <= e <= 3 /\ 0 <= r2 - 365 * e <= 365
          /\ (e < 3 -> r2 - 365 * e < 365)) as (He & Hr3 & Hr3')
      by (subst e e0; Z.div_mod_to_equations; lia).
  exists n, c, q, e, (r2 - 365 * e). split; [f_equal; lia |].
  subst r2 r1 r0. repeat split; lia.
Qed.

(** Later days have a later year, or the same year and a later day of the
    year. *)
Lemma absYearDay_mono (d1 d2 : Z) :
  0 <= d1 < d2 ->
  fst (absYearDay d1) < fst (absYearDay d2)
  \/ (fst (absYearDay d1) = fst (absYearDay d2)
      /\ snd (absYearDay d1) < snd (absYearDay d2)).
Proof.
  intros H.
  destruct (absYearDay_split d1) as (n1 & c1 & q1 & e1 & r1 & E1 & S1); [lia |].
  destruct (absYearDay_split d2) as (n2 & c2 & q2 & e2 & r2 & E2 & S2); [lia |].
  rewrite E1, E2. cbn [fst snd]. clear E1 E2.
  unfold calendar_split, daysPer400Years, daysPer100Years, daysPer4Years in *.
  lia.
Qed.

Lemma absYearDay_yday (d : Z) : 0 <= d -> 0 <= snd (absYearDay d) <= 365.
Proof.
  intros H. destruct (absYearDay_split d H) as (n & c & q & e & r & E & S).
  rewrite E. cbn [snd]. unfold calendar_split in S. lia.
Qed.

Lemma monthDayOf_step (leap : bool) (x : Z) :
  0 <= x < 365 ->
  100 * fst (monthDayOf leap x) + snd (monthDayOf leap x)
  < 100 * fst (monthDayOf leap (x + 1)) + snd (monthDayOf leap (x + 1)).
Proof.
  intros Hx.
  pose proof (fun l =>
                range_forallb
                  (fun x => 100 * fst (monthDayOf l x) + snd (monthDayOf l x)
                            <? 100 * fst (monthDayOf l (x + 1))
                               + snd (monthDayOf l (x + 1)))
                  365) as H.
  destruct leap.
  - specialize (H true ltac:(vm_compute; reflexivity) x ltac:(simpl; lia)).
    now apply Z.ltb_lt in H.
  - specialize (H false ltac:(vm_compute; reflexivity) x ltac:(simpl; lia)).
    now apply Z.ltb_lt in H.
Qed.

Lemma monthDayOf_bounds (leap : bool) (x : Z) :
  0 <= x <= 365 ->
  1 <= fst (monthDayOf leap x) <= 13 /\ 1 <= snd (monthDayOf leap x) <= 31.
Proof.
  intros Hx.
  pose proof (fun l =>
                range_forallb
                  (fun x => (1 <=? fst (monthDayOf l x))
                            && (fst (monthDayOf l x) <=? 13)
                            && (1 <=? snd (monthDayOf l x))
                            && (snd (monthDayOf l x) <=? 31))
                  366) as H.
  destruct leap.
  - specialize (H true ltac:(vm_compute; reflexivity) x ltac:(simpl; lia)).
    rewrite !andb_true_iff, !Z.leb_le in H. lia.
  - specialize (H false ltac:(vm_compute; reflexivity) x ltac:(simpl; lia)).
    rewrite !andb_true_iff, !Z.leb_le in H. lia.
Qed.

Lemma monthDayOf_mono (leap : bool) (n : nat) :
  forall i, 0 <= i -> i + 1 + Z.of_nat n <= 365 ->
            100 * fst (monthDayOf leap i) + snd (monthDayOf leap i)
            < 100 * fst (monthDayOf leap (i + 1 + Z.of_nat n))
              + snd (monthDayOf leap (i + 1 + Z.of_nat n)).
Proof.
  induction n as [| n IH]; intros i Hi Hn.
  - rewrite Z.add_0_r. apply monthDayOf_step. lia.
  - eapply Z.lt_trans; [apply (IH i Hi); lia |].
    replace (i + 1 + Z.of_nat (S n)) with (i + 1 + Z.of_nat n + 1) by lia.
    apply monthDayOf_step. lia.
Qed.

(** Later days have a later date. *)
Lemma absDate_lex (A1 A2 Y1 M1 D1 Y2 M2 D2 : Z) :
  0 <= A1 -> A1 / secondsPerDay < A2 / secondsPerDay ->
  absDate A1 = (Y1, M1, D1) -> absDate A2 = (Y2, M2, D2) ->
  Y1 < Y2 \/ (Y1 = Y2 /\ (M1 < M2 \/ (M1 = M2 /\ D1 < D2))).
Proof.
  intros H0 Hlt E1 E2. unfold absDate in *.
  assert (0 <= A1 / secondsPerDay) as Hd1
      by (unfold secondsPerDay, secondsPerHour, secondsPerMinute;
          Z.div_mod_to_equations; lia).
  pose proof (absYearDay_mono _ _ (conj Hd1 Hlt)) as Hm.
  pose proof (absYearDay_yday _ Hd1) as Hy1.
  pose proof (absYearDay_yday (A2 / secondsPerDay) ltac:(lia)) as Hy2.
  destruct (absYearDay (A1 / secondsPerDay)) as [y1 r1].
  destruct (absYearDay (A2 / secondsPerDay)) as [y2 r2].
  cbn [fst snd] in Hm, Hy1, Hy2. unfold monthDay in *.
  pose proof (monthDayOf_bounds (isLeap y1) r1 Hy1) as B1.
  pose proof (monthDayOf_bounds (isLeap y2) r2 Hy2) as B2.
  destruct Hm as [Hm | [Hm Hr]].
  - destruct (monthDayOf (isLeap y1) r1), (monthDayOf (isLeap y2) r2).
    inversion E1; inversion E2; subst. now left.
  - subst y2.
    pose proof (monthDayOf_mono (isLeap y1) (Z.to_nat (r2 - r1 - 1)) r1
                                ltac:(lia) ltac:(lia)) as Hk.
    replace (r1 + 1 + Z.of_nat (Z.to_nat (r2 - r1 - 1))) with r2 in Hk by lia.
    destruct (monthDayOf (isLeap y1) r1), (monthDayOf (isLeap y1) r2).
    inversion E1; inversion E2; subst. cbn [fst snd] in *. right. split; [reflexivity | lia].
Qed.

Lemma absDate_bounds (A Y M D : Z) :
  0 <= A -> absDate A = (Y, M, D) -> 1 <= M <= 13 /\ 1 <= D <= 31.
Proof.
  intros H0 E. unfold absDate in E.
  assert (0 <= A / secondsPerDay) as Hd
      by (unfold secondsPerDay, secondsPerHour, secondsPerMinute;
          Z.div_mod_to_equations; lia).
  pose proof (absYearDay_yday _ Hd) as Hy.
  destruct (absYearDay (A / secondsPerDay)) as [y r]. cbn [snd] in Hy.
  pose proof (monthDayOf_bounds (isLeap y) r Hy) as B. unfold monthDay in E.
  destruct (monthDayOf (isLeap y) r). inversion E; subst. exact B.
Qed.

Lemma absDate_year_mono (A1 A2 : Z) :
  0 <= A1 <= A2 -> fst (fst (absDate A1)) <= fst (fst (absDate A2)).
Proof.
  intros H. unfold absDate.
  assert (0 <= A1 / secondsPerDay <= A2 / secondsPerDay) as Hd
      by (unfold secondsPerDay, secondsPerHour, secondsPerMinute;
          Z.div_mod_to_equations; lia).
  assert (A1 / secondsPerDay = A2 / secondsPerDay
          \/ A1 / secondsPerDay < A2 / secondsPerDay) as [E | L] by lia.
  - now rewrite E.
  - pose proof (absYearDay_mono _ _ (conj (proj1 Hd) L)) as Hm.
    destruct (absYearDay (A1 / secondsPerDay)) as [y1 r1].
    destruct (absYearDay (A2 / secondsPerDay)) as [y2 r2].
    destruct (monthDay y1 r1), (monthDay y2 r2). cbn [fst snd] in *. lia.
Qed.

(** Within a day, later seconds have a later clock reading. *)
Lemma absClock_lex (A1 A2 h1 m1 s1 h2 m2 s2 : Z) :
  A1 mod secondsPerDay < A2 mod secondsPerDay ->
  absClock A1 = (h1, m1, s1) -> absClock A2 = (h2, m2, s2) ->
  h1 < h2 \/ (h1 = h2 /\ (m1 < m2 \/ (m1 = m2 /\ s1 < s2))).
Proof.
  unfold absClock, secondsPerDay, secondsPerHour, secondsPerMinute. cbv zeta.
  intros Hlt E1 E2. inversion E1; inversion E2; subst. clear E1 E2.
  change (24 * (60 * 60)) with 86400 in *. change (60 * 60) with 3600.
  Z.div_mod_to_equations. lia.
Qed.

Lemma absClock_bounds (A h m s : Z) :
  absClock A = (h, m, s) -> 0 <= h <= 23 /\ 0 <= m <= 59 /\ 0 <= s <= 59.
Proof.
  unfold absClock, secondsPerDay, secondsPerHour, secondsPerMinute. cbv zeta.
  intros E. inversion E; subst. clear E.
  change (24 * (60 * 60)) with 86400 in *. change (60 * 60) with 3600.
  Z.div_mod_to_equations. lia.
Qed.

(** *** The text *)

Lemma abs_of_unix_small (a : Z) :
  0 <= a <= maxRFC3339 -> abs_of_unix a = a + 9223372028715321600.
Proof.
  intros H. unfold abs_of_unix, maxRFC3339 in *.
  change (unixToInternal + internalToAbsolute) with 9223372028715321600.
  apply Z.mod_small. change (2 ^ 64) with 18446744073709551616. lia.
Qed.

Lemma sep_append (c : ascii) (s : string) : String c "" ++ s = String c s.
Proof. reflexivity. Qed.

Lemma year_in_range (a Y M D : Z) :
  0 <= a <= maxRFC3339 ->
  absDate (a + 9223372028715321600) = (Y, M, D) -> 1970 <= Y <= 9999.
Proof.
  intros H E.
  pose proof (absDate_year_mono (0 + 9223372028715321600) (a + 9223372028715321600)
                                ltac:(lia)) as Hlo.
  pose proof (absDate_year_mono (a + 9223372028715321600)
                                (maxRFC3339 + 9223372028715321600)
                                ltac:(unfold maxRFC3339 in *; lia)) as Hhi.
  rewrite E in Hlo, Hhi. cbn [fst] in Hlo, Hhi.
  assert (fst (fst (absDate (0 + 9223372028715321600))) = 1970) as E0
      by (vm_compute; reflexivity).
  assert (fst (fst (absDate (maxRFC3339 + 9223372028715321600))) = 9999) as E1
      by (vm_compute; reflexivity).
  lia.
Qed.

(** An earlier instant has the smaller text. *)
Lemma formatRFC3339_lt (a b : Z) :
  0 <= a -> a < b -> b <= maxRFC3339 ->
  String.compare (formatRFC3339 a) (formatRFC3339 b) = Lt.
Proof.
  intros Ha Hab Hb. unfold formatRFC3339, appendFormatRFC3339.
  rewrite !abs_of_unix_small by lia.
  set (A1 := a + 9223372028715321600). set (A2 := b + 9223372028715321600).
  destruct (absDate A1) as [[Y1 M1] D1] eqn:ED1.
  destruct (absDate A2) as [[Y2 M2] D2] eqn:ED2.
  destruct (absClock A1) as [[h1 m1] s1] eqn:EC1.
  destruct (absClock A2) as [[h2 m2] s2] eqn:EC2.
  pose proof (year_in_range a Y1 M1 D1 ltac:(lia) ED1) as BY1.
  pose proof (year_in_range b Y2 M2 D2 ltac:(lia) ED2) as BY2.
  pose proof (absDate_bounds A1 Y1 M1 D1 ltac:(subst A1; lia) ED1) as BD1.
  pose proof (absDate_bounds A2 Y2 M2 D2 ltac:(subst A2; lia) ED2) as BD2.
  pose proof (absClock_bounds A1 h1 m1 s1 EC1) as BC1.
  pose proof (absClock_bounds A2 h2 m2 s2 EC2) as BC2.
  assert (Y1 < Y2
          \/ (Y1 = Y2
              /\ (M1 < M2
                  \/ (M1 = M2
                      /\ (D1 < D2
                          \/ (D1 = D2
                              /\ (h1 < h2
                                  \/ (h1 = h2
                                      /\ (m1 < m2 \/ (m1 = m2 /\ s1 < s2)))))))))) as L.
  { assert (A1 / secondsPerDay < A2 / secondsPerDay
            \/ (A1 / secondsPerDay = A2 / secondsPerDay
                /\ A1 mod secondsPerDay < A2 mod secondsPerDay)) as [Hd | [Hd Hs]]
        by (subst A1 A2; unfold secondsPerDay, secondsPerHour, secondsPerMinute;
            Z.div_mod_to_equations; lia).
    - pose proof (absDate_lex A1 A2 _ _ _ _ _ _ ltac:(subst A1; lia) Hd ED1 ED2). lia.
    - assert (absDate A1 = absDate A2) as E by (unfold absDate; now rewrite Hd).
      rewrite ED1, ED2 in E. inversion E; subst Y2 M2 D2.
      pose proof (absClock_lex A1 A2 _ _ _ _ _ _ Hs EC1 EC2). lia. }
  rewrite compare_field_4 by lia. rewrite !sep_append, compare_cons_same.
  rewrite compare_field_2 by lia. rewrite compare_cons_same.
  rewrite compare_field_2 by lia. rewrite compare_cons_same.
  rewrite compare_field_2 by lia. rewrite compare_cons_same.
  rewrite compare_field_2 by lia. rewrite compare_cons_same.
  rewrite compare_field_2 by lia. rewrite compare_refl.
  destruct (Z.compare_spec Y1 Y2); [| reflexivity | exfalso; lia].
  destruct (Z.compare_spec M1 M2); [| reflexivity | exfalso; lia].
  destruct (Z.compare_spec D1 D2); [| reflexivity | exfalso; lia].
  destruct (Z.compare_spec h1 h2); [| reflexivity | exfalso; lia].
  destruct (Z.compare_spec m1 m2); [| reflexivity | exfalso; lia].
  destruct (Z.compare_spec s1 s2); [exfalso; lia | reflexivity | exfalso; lia].
Qed.

(** Up to 9999-12-31T23:59:59Z the store orders the texts as the instants
    are ordered. *)
Lemma formatRFC3339_compare (a b : Z) :
  0 <= a <= maxRFC3339 -> 0 <= b <= maxRFC3339 ->
  String.compare (formatRFC3339 a) (formatRFC3339 b) = (a ?= b).
Proof.
  intros Ha Hb. destruct (Z.compare_spec a b) as [-> | H | H].
  - apply compare_refl.
  - apply formatRFC3339_lt; lia.
  - apply compare_gt_lt. apply formatRFC3339_lt; lia.
Qed.

Lemma case_greater_format (a b : Z) :
  0 <= a <= maxRFC3339 -> 0 <= b <= maxRFC3339 ->
  case_greater (formatRFC3339 a) (formatRFC3339 b) = formatRFC3339 (Z.max a b).
Proof.
  intros Ha Hb. unfold case_greater, text_gt.
  rewrite (formatRFC3339_compare a b Ha Hb).
  destruct (Z.compare_spec a b); f_equal; lia.
Qed.

Lemma fold_greater_format (ds : list Z) :
  Forall (fun d => 0 <= d <= maxRFC3339) ds ->
  forall d, 0 <= d <= maxRFC3339 ->
            fold_left case_greater (map formatRFC3339 ds) (formatRFC3339 d)
            = formatRFC3339 (Z.max d (max_list ds)).
Proof.
  induction 1 as [| x ds Hx _ IH]; intros d Hd; simpl.
  - f_equal. lia.
  - rewrite case_greater_format by assumption.
    rewrite IH by lia. f_equal. lia.
Qed.

(** Up to 9999-12-31T23:59:59Z the TEXT order of two stored time stamps is
    the order of their instants. *)
Lemma text_le_format (a b : Z) :
  0 <= a <= maxRFC3339 -> 0 <= b <= maxRFC3339 ->
  text_le (formatRFC3339 a) (formatRFC3339 b) = (a <=? b).
Proof.
  intros Ha Hb. unfold text_le, text_gt.
  rewrite (formatRFC3339_compare a b Ha Hb). unfold Z.leb.
  now destruct (a ?= b).
Qed.

(** ** The transaction of [ingestItems] *)

Lemma address_of_cases (it : TautulliItem) :
  (address_of it = None
   /\ (IPAddress it = None \/ IPAddress it = Some ""))
  \/ (exists ip, address_of it = Some ip /\ IPAddress it = Some ip /\ ip <> "").
Proof.
  unfold address_of. destruct (IPAddress it) as [ip |]; [| left; auto].
  destruct (String.eqb_spec ip "") as [-> | Hne]; [left; auto | right; eauto].
Qed.

Lemma apply_stamps_cons (o : TautulliItem * string) obs (db : DB) :
  apply_stamps (o :: obs) db =
  apply_stamps obs {| plex_users := step_users (plex_users db) o;
                      user_ip_history := step_history (user_ip_history db) o |}.
Proof. reflexivity. Qed.

(** A loop that returns normally has applied every item, in order. *)
Lemma ingest_loop_inr (w : World) (arr : list TautulliItem) :
  forall i tx tx',
    ingest_loop w i arr tx = inr tx' -> tx' = apply_stamps (stamps w i arr) tx.
Proof.
  induction arr as [| it rest IH]; intros i tx tx' H; simpl in H.
  - inversion H. now destruct tx'.
  - simpl stamps. rewrite apply_stamps_cons.
    destruct (user_upsert_err w i); [discriminate |].
    unfold step_history, step_users, address_of; simpl.
    destruct (IPAddress it) as [ip |]; [| now apply IH].
    destruct (ip =? "")%string; [now apply IH |].
    destruct (ip_upsert_err w i); [discriminate |]. now apply IH.
Qed.

(** Without a failing statement the loop returns normally. *)
Lemma ingest_loop_ok (w : World) (arr : list TautulliItem) :
  (forall j, user_upsert_err w j = None) ->
  (forall j, ip_upsert_err w j = None) ->
  forall i tx, ingest_loop w i arr tx = inr (apply_stamps (stamps w i arr) tx).
Proof.
  intros Hu Hi. induction arr as [| it rest IH]; intros i tx; simpl.
  - now destruct tx.
  - rewrite Hu, Hi. rewrite apply_stamps_cons.
    unfold step_history, step_users, address_of; simpl.
    destruct (IPAddress it) as [ip |]; [| apply IH].
    destruct (ip =? "")%string; apply IH.
Qed.

(** A failing statement makes the loop return an error. *)
Lemma ingest_loop_error (w : World) (arr : list TautulliItem) :
  forall k i tx it,
    nth_error arr k = Some it -> triggers_error w (i + k) it ->
    exists e, ingest_loop w i arr tx = inl e.
Proof.
  induction arr as [| x rest IH]; intros k i tx it Hn Ht.
  - destruct k; discriminate.
  - simpl. destruct (user_upsert_err w i) as [e |] eqn:Eu; [eauto |].
    destruct k as [| k].
    + simpl in Hn. inversion Hn; subst x. rewrite Nat.add_0_r in Ht.
      destruct Ht as [Ht | [Ha Ht]]; [congruence |].
      unfold address_of in Ha.
      destruct (IPAddress it) as [ip |]; [| congruence].
      destruct (ip =? "")%string; [congruence |].
      destruct (ip_upsert_err w i); [eauto | congruence].
    + simpl in Hn. rewrite <- Nat.add_succ_comm in Ht.
      destruct (IPAddress x) as [ip |]; [| eapply IH; eassumption].
      destruct (ip =? "")%string; [eapply IH; eassumption |].
      destruct (ip_upsert_err w i); [eauto | eapply IH; eassumption].
Qed.

(** [ingestItems] either reports an error and leaves the store alone, or
    commits the effect of all items. *)
Lemma ingestItems_cases (w : World) (arr : list TautulliItem) (db : DB) :
  (exists e, ingestItems w arr db = (db, Some e))
  \/ ingestItems w arr db = (apply_stamps (stamps w 0 arr) db, None).
Proof.
  unfold ingestItems. destruct (begin_err w); [left; eauto |].
  destruct (ingest_loop w 0 arr db) as [e | tx] eqn:E; [left; eauto |].
  destruct (commit_err w); [left; eauto |].
  right. now rewrite (ingest_loop_inr _ _ _ _ _ E).
Qed.

Lemma ingestItems_ok (w : World) (arr : list TautulliItem) (db : DB) :
  store_ok w -> ingestItems w arr db = (apply_stamps (stamps w 0 arr) db, None).
Proof.
  intros (Hb & Hu & Hi & Hc & _). unfold ingestItems.
  now rewrite Hb, (ingest_loop_ok w arr Hu Hi), Hc.
Qed.

Lemma ingestItems_error_unchanged (w : World) (arr : list TautulliItem) (db db' : DB) e :
  ingestItems w arr db = (db', Some e) -> db' = db.
Proof.
  destruct (ingestItems_cases w arr db) as [[e' H] | H]; rewrite H; congruence.
Qed.

(** C4. A batch in which some item makes a statement fail is rolled back as
    a whole: [ingestItems] returns an error and the store is exactly the one
    from before the batch, whatever the earlier items of the batch did
    inside the transaction. *)
Theorem ingestItems_atomic (w : World) (arr : list TautulliItem) (db : DB)
        (k : nat) (it : TautulliItem) :
  nth_error arr k = Some it -> triggers_error w k it ->
  exists e, ingestItems w arr db = (db, Some e).
Proof.
  intros Hn Ht. unfold ingestItems. destruct (begin_err w); [eauto |].
  destruct (ingest_loop_error w arr k 0 db it Hn Ht) as [e He].
  rewrite He. eauto.
Qed.

(** ** Tables with a uniqueness constraint

    The two upserts have one shape: the first row with the key of the
    excluded row is updated in place, and a row is appended when there is
    none. The lemmas of this section hold for both. *)

Section Upsert.

Variables (A K : Type).
Variable key : A -> K.
Variable keyb : K -> K -> bool.
Variable update : A -> A -> A.
Variable upsert : A -> list A -> list A.

Hypothesis keyb_eq : forall a b, keyb a b = true <-> a = b.
Hypothesis key_update : forall r e, key (update r e) = key r.
Hypothesis upsert_nil : forall e, upsert e [] = [e].
Hypothesis upsert_cons : forall e r t,
    upsert e (r :: t) =
    if keyb (key r) (key e) then update r e :: t else r :: upsert e t.

Local Abbreviation lookup k := (find (fun r => keyb (key r) k)).
Local Abbreviation upserts := (fold_left (fun t e => upsert e t)).
Local Abbreviation merged o e :=
  (Some match o with Some r => update r e | None => e end).

Lemma keyb_refl (a : K) : keyb a a = true.
Proof. now apply keyb_eq. Qed.

Lemma keyb_neq (a b : K) : keyb a b = false <-> a <> b.
Proof.
  destruct (keyb a b) eqn:E.
  - apply keyb_eq in E. split; congruence.
  - split; [| reflexivity]. intros _ Hab. apply keyb_eq in Hab. congruence.
Qed.

(** The row found under a key after one upsert. *)
Lemma lookup_upsert (e : A) (k : K) (t : list A) :
  lookup k (upsert e t) =
  if keyb (key e) k then merged (lookup k t) e else lookup k t.
Proof.
  induction t as [| r t IH].
  - rewrite upsert_nil. simpl. now destruct (keyb (key e) k).
  - rewrite upsert_cons. destruct (keyb (key r) (key e)) eqn:Ere.
    + apply keyb_eq in Ere. simpl. rewrite key_update, Ere.
      now destruct (keyb (key e) k).
    + simpl. destruct (keyb (key r) k) eqn:Erk.
      * apply keyb_eq in Erk. subst k.
        destruct (keyb (key e) (key r)) eqn:Eer; [| reflexivity].
        apply keyb_eq in Eer. apply keyb_neq in Ere. congruence.
      * exact IH.
Qed.

(** The row found under a key after a run of upserts: the excluded rows
    with that key, folded in order into the row that was there. *)
Lemma lookup_upserts (k : K) (es : list A) :
  forall t,
    lookup k (upserts es t) =
    fold_left (fun o e => merged o e)
              (filter (fun e => keyb (key e) k) es) (lookup k t).
Proof.
  induction es as [| e es IH]; intros t; simpl; [reflexivity |].
  rewrite IH, lookup_upsert.
  now destruct (keyb (key e) k).
Qed.

(** The keys of the table after one upsert. *)
Lemma keys_upsert (e : A) (t : list A) :
  map key (upsert e t) =
  if existsb (fun r => keyb (key r) (key e)) t then map key t
  else (map key t ++ [key e])%list.
Proof.
  induction t as [| r t IH].
  - now rewrite upsert_nil.
  - rewrite upsert_cons. simpl. destruct (keyb (key r) (key e)) eqn:E; simpl.
    + now rewrite key_update.
    + rewrite IH. now destruct (existsb _ t).
Qed.

Lemma NoDup_upsert (e : A) (t : list A) :
  NoDup (map key t) -> NoDup (map key (upsert e t)).
Proof.
  intros Hnd. rewrite keys_upsert.
  destruct (existsb (fun r => keyb (key r) (key e)) t) eqn:E; [exact Hnd |].
  apply NoDup_app; [exact Hnd | repeat constructor; intros [] |].
  intros x Hx [<- | []]. apply in_map_iff in Hx as (r & Hr & Hin).
  assert (existsb (fun r => keyb (key r) (key e)) t = true) as Hex
      by (apply existsb_exists; exists r; split; [exact Hin | now apply keyb_eq]).
  congruence.
Qed.

(** A property of rows that inserted rows have and updates keep. *)
Lemma Forall_upsert (P : A -> Prop) (e : A) (t : list A) :
  P e -> (forall r, P r -> P (update r e)) ->
  Forall P t -> Forall P (upsert e t).
Proof.
  intros He Hu. induction 1 as [| r t Hr Ht IH].
  - rewrite upsert_nil. now constructor.
  - rewrite upsert_cons. destruct (keyb (key r) (key e)); constructor; auto.
Qed.

(** A run of upserts acts on the first row of the table through the
    excluded rows with its key, and on the rest through the others. *)
Lemma upserts_cons (es : list A) :
  forall r t,
    upserts es (r :: t) =
    fold_left update (filter (fun e => keyb (key r) (key e)) es) r
    :: upserts (filter (fun e => negb (keyb (key r) (key e))) es) t.
Proof.
  induction es as [| e es IH]; intros r t; simpl; [reflexivity |].
  rewrite upsert_cons. destruct (keyb (key r) (key e)) eqn:E; simpl.
  - rewrite IH, key_update. reflexivity.
  - apply IH.
Qed.

Lemma key_fold_update (es : list A) :
  forall r, key (fold_left update es r) = key r.
Proof.
  induction es as [| e es IH]; intros r; simpl; [reflexivity |].
  now rewrite IH, key_update.
Qed.

Section Idempotent.

(** Folding the same excluded rows into a row a second time changes
    nothing, be the row an old one or the one the run created. *)
Hypothesis update_twice : forall es r,
    fold_left update es (fold_left update es r) = fold_left update es r.
Hypothesis update_created : forall es e,
    fold_left update es (update (fold_left update es e) e)
    = fold_left update es e.

Lemma upserts_twice_nil (n : nat) :
  forall es, (List.length es <= n)%nat ->
             upserts es (upserts es []) = upserts es [].
Proof.
  induction n as [| n IH]; intros es Hlen.
  - destruct es; [reflexivity | simpl in Hlen; lia].
  - destruct es as [| e es]; [reflexivity |].
    simpl fold_left at 2 3. rewrite upsert_nil, upserts_cons.
    set (R := fold_left update _ e). set (T := upserts _ []).
    rewrite upserts_cons. subst R. rewrite key_fold_update. simpl filter.
    rewrite keyb_refl. simpl. rewrite update_created. f_equal.
    subst T. apply IH.
    simpl in Hlen. pose proof (filter_length_le (fun e0 => negb (keyb (key e) (key e0))) es).
    lia.
Qed.

(** Applying a run of upserts twice is applying it once. *)
Lemma upserts_twice (t : list A) :
  forall es, upserts es (upserts es t) = upserts es t.
Proof.
  induction t as [| r t IH]; intros es.
  - now apply (upserts_twice_nil (List.length es)).
  - rewrite upserts_cons.
    set (R := fold_left update _ r). rewrite upserts_cons.
    subst R. rewrite key_fold_update, update_twice, IH. reflexivity.
Qed.

End Idempotent.

End Upsert.

(** ** The two tables as instances *)

Lemma uq_eqb_eq (a b : Z * string) : uq_eqb a b = true <-> a = b.
Proof.
  destruct a as [u i], b as [v j]. unfold uq_eqb; simpl.
  rewrite andb_true_iff, Z.eqb_eq, String.eqb_eq.
  split; [intros [-> ->]; reflexivity | intros H; inversion H; auto].
Qed.

Lemma upsert_user_cons e r t :
  upsert_user e (r :: t) =
  if pu_id r =? pu_id e then update_user r e :: t else r :: upsert_user e t.
Proof. reflexivity. Qed.

Lemma upsert_ip_cons e r t :
  upsert_ip e (r :: t) =
  if uq_eqb (uq_user_ip r) (uq_user_ip e) then update_ip r e :: t
  else r :: upsert_ip e t.
Proof. reflexivity. Qed.

Lemma fold_step_users obs :
  forall t, fold_left step_users obs t
            = fold_left (fun t e => upsert_user e t) (map excluded_user obs) t.
Proof. induction obs as [| o obs IH]; intros t; simpl; [reflexivity | apply IH]. Qed.

Lemma fold_step_history obs :
  forall t, fold_left step_history obs t
            = fold_left (fun t e => upsert_ip e t) (flat_map excluded_ips obs) t.
Proof.
  induction obs as [| o obs IH]; intros t; simpl; [reflexivity |].
  rewrite fold_left_app, <- IH. f_equal.
  unfold step_history, excluded_ips. now destruct (address_of (fst o)).
Qed.

(** *** Runs of [CASE WHEN old > new] *)

Lemma fold_greater_ge_init ts :
  forall L, text_le L (fold_left case_greater ts L) = true.
Proof.
  induction ts as [| t ts IH]; intros L; simpl; [apply text_le_refl |].
  eapply text_le_trans; [apply case_greater_ge_old | apply IH].
Qed.

Lemma fold_greater_ge_each ts :
  forall L t, In t ts -> text_le t (fold_left case_greater ts L) = true.
Proof.
  induction ts as [| x ts IH]; intros L t Hin; [contradiction |].
  destruct Hin as [-> | Hin]; simpl.
  - eapply text_le_trans; [apply case_greater_ge_new | apply fold_greater_ge_init].
  - now apply IH.
Qed.

Lemma fold_greater_absorb ts M :
  (forall t, In t ts -> text_le t M = true) -> fold_left case_greater ts M = M.
Proof.
  induction ts as [| x ts IH]; intros H; simpl; [reflexivity |].
  rewrite case_greater_absorb by (apply H; now left).
  apply IH. intros t Ht. apply H. now right.
Qed.

Lemma fold_greater_twice ts L :
  fold_left case_greater ts (fold_left case_greater ts L)
  = fold_left case_greater ts L.
Proof. apply fold_greater_absorb. intros t Ht. now apply fold_greater_ge_each. Qed.

(** *** Rows after a run of updates *)

Lemma last_nonempty {A : Type} (x : A) (l : list A) (d d' : A) :
  last (x :: l) d = last (x :: l) d'.
Proof.
  revert x. induction l as [| y l IH]; intros x; [reflexivity |].
  change (last (y :: l) d = last (y :: l) d'). apply IH.
Qed.

Lemma fold_update_user es :
  forall r,
    fold_left update_user es r =
    {| pu_id := pu_id r;
       pu_username := pu_username (last es r);
       pu_friendly_name := pu_friendly_name (last es r);
       pu_user_thumb := pu_user_thumb (last es r);
       pu_last_seen := fold_left case_greater (map pu_last_seen es) (pu_last_seen r) |}.
Proof.
  induction es as [| e es IH]; intros r; [now destruct r |].
  simpl fold_left. rewrite IH. destruct es as [| e' es]; [reflexivity |].
  now rewrite (last_nonempty e' es (update_user r e) r).
Qed.

Lemma fold_update_ip es :
  forall r,
    fold_left update_ip es r =
    {| uih_user_id := uih_user_id r;
       uih_ip := uih_ip r;
       uih_first_seen := uih_first_seen r;
       uih_last_seen := fold_left case_greater (map uih_last_seen es) (uih_last_seen r) |}.
Proof.
  induction es as [| e es IH]; intros r; [now destruct r |].
  simpl fold_left. now rewrite IH.
Qed.

Lemma update_user_twice es r :
  fold_left update_user es (fold_left update_user es r) = fold_left update_user es r.
Proof.
  rewrite (fold_update_user es (fold_left update_user es r)).
  rewrite (fold_update_user es r).
  simpl. rewrite fold_greater_twice.
  destruct es as [| e es]; [reflexivity |].
  now rewrite (last_nonempty e es _ r).
Qed.

Lemma update_user_created es e :
  fold_left update_user es (update_user (fold_left update_user es e) e)
  = fold_left update_user es e.
Proof.
  rewrite (fold_update_user es (update_user _ e)), (fold_update_user es e).
  simpl. rewrite (case_greater_absorb _ (pu_last_seen e)) by apply fold_greater_ge_init.
  rewrite fold_greater_twice.
  destruct es as [| e' es]; [reflexivity |].
  now rewrite (last_nonempty e' es _ e).
Qed.

Lemma update_ip_twice es r :
  fold_left update_ip es (fold_left update_ip es r) = fold_left update_ip es r.
Proof.
  rewrite (fold_update_ip es (fold_left update_ip es r)), (fold_update_ip es r).
  simpl. now rewrite fold_greater_twice.
Qed.

Lemma update_ip_created es e :
  fold_left update_ip es (update_ip (fold_left update_ip es e) e)
  = fold_left update_ip es e.
Proof.
  rewrite (fold_update_ip es (update_ip _ e)), (fold_update_ip es e).
  simpl. rewrite (case_greater_absorb _ (uih_last_seen e)) by apply fold_greater_ge_init.
  now rewrite fold_greater_twice.
Qed.

(** Applying the same stamped items twice is applying them once. *)
Lemma apply_stamps_twice obs db :
  apply_stamps obs (apply_stamps obs db) = apply_stamps obs db.
Proof.
  unfold apply_stamps; simpl. rewrite !fold_step_users, !fold_step_history. f_equal.
  - apply (upserts_twice _ _ pu_id Z.eqb update_user upsert_user); auto using Z.eqb_eq.
    + apply update_user_twice.
    + apply update_user_created.
  - apply (upserts_twice _ _ uq_user_ip uq_eqb update_ip upsert_ip); auto using uq_eqb_eq.
    + apply update_ip_twice.
    + apply update_ip_created.
Qed.

Lemma fold_merged_some {A : Type} (update : A -> A -> A) es :
  forall r,
    fold_left (fun o e => Some match o with Some r => update r e | None => e end)
              es (Some r)
    = Some (fold_left update es r).
Proof. induction es as [| e es IH]; intros r; simpl; [reflexivity | apply IH]. Qed.

Lemma fold_merged_none {A : Type} (update : A -> A -> A) es :
  fold_left (fun o e => Some match o with Some r => update r e | None => e end)
            es None
  = match es with
    | [] => None
    | e :: es' => Some (fold_left update es' e)
    end.
Proof. destruct es as [| e es]; simpl; [reflexivity | apply fold_merged_some]. Qed.

(** The user row found after a run of stamped items. *)
Lemma find_user_apply uid obs db :
  find_user uid (apply_stamps obs db) =
  fold_left (fun o e => Some match o with Some r => update_user r e | None => e end)
            (filter (fun e => pu_id e =? uid) (map excluded_user obs))
            (find_user uid db).
Proof.
  unfold find_user, apply_stamps; simpl. rewrite fold_step_users.
  apply (lookup_upserts _ _ pu_id Z.eqb update_user upsert_user);
    auto using Z.eqb_eq.
Qed.

(** The history row found after a run of stamped items. *)
Lemma find_ip_apply uid ip obs db :
  find_ip uid ip (apply_stamps obs db) =
  fold_left (fun o e => Some match o with Some r => update_ip r e | None => e end)
            (filter (fun e => uq_eqb (uq_user_ip e) (uid, ip))
                    (flat_map excluded_ips obs))
            (find_ip uid ip db).
Proof.
  unfold find_ip, apply_stamps; simpl. rewrite fold_step_history.
  apply (lookup_upserts _ _ uq_user_ip uq_eqb update_ip upsert_ip);
    auto using uq_eqb_eq.
Qed.

(** A stored pair stays stored; its [first_seen] is kept and its
    [last_seen] does not go down in the TEXT order. *)
Lemma find_ip_kept w arr db uid ip r :
  find_ip uid ip db = Some r ->
  exists r', find_ip uid ip (fst (ingestItems w arr db)) = Some r'
             /\ uih_first_seen r' = uih_first_seen r
             /\ text_le (uih_last_seen r) (uih_last_seen r') = true.
Proof.
  intros Hr. destruct (ingestItems_cases w arr db) as [[e H] | H]; rewrite H; simpl.
  - exists r. auto using text_le_refl.
  - rewrite find_ip_apply, Hr, fold_merged_some. eexists. split; [reflexivity |].
    rewrite fold_update_ip. simpl. split; [reflexivity | apply fold_greater_ge_init].
Qed.

Lemma first_stamp_filter uid ip obs :
  first_stamp uid ip obs =
  option_map uih_first_seen
             (hd_error (filter (fun e => uq_eqb (uq_user_ip e) (uid, ip))
                               (flat_map excluded_ips obs))).
Proof.
  induction obs as [| o obs IH]; [reflexivity |].
  simpl. rewrite filter_app. unfold excluded_ips at 1.
  destruct (address_of (fst o)) as [a |]; simpl; [| exact IH].
  unfold uq_eqb; simpl. now destruct ((UserID (fst o) =? uid) && (a =? ip)%string).
Qed.

(** A pair that is not stored is created by the first item of the batch
    that carries it, with that item's time stamp as [first_seen]. *)
Lemma find_ip_created w arr db uid ip :
  find_ip uid ip db = None ->
  snd (ingestItems w arr db) = None ->
  option_map uih_first_seen (find_ip uid ip (fst (ingestItems w arr db)))
  = first_stamp uid ip (stamps w 0 arr).
Proof.
  intros Hr Hok. destruct (ingestItems_cases w arr db) as [[e H] | H];
    rewrite H in *; simpl in *; [discriminate |].
  rewrite find_ip_apply, Hr, fold_merged_none, first_stamp_filter.
  destruct (filter _ _) as [| e es]; [reflexivity |].
  simpl. now rewrite fold_update_ip.
Qed.

Lemma history_invariant_apply obs db :
  history_invariant db -> history_invariant (apply_stamps obs db).
Proof.
  unfold history_invariant, apply_stamps; simpl. rewrite fold_step_history.
  generalize (user_ip_history db) as t.
  assert (Forall (fun e => uih_first_seen e = uih_last_seen e)
                 (flat_map excluded_ips obs)) as Hes.
  { apply Forall_flat_map, Forall_forall. intros o _. unfold excluded_ips.
    destruct (address_of (fst o)); repeat constructor. }
  induction Hes as [| e es He _ IH]; intros t Ht; simpl; [exact Ht |].
  apply IH.
  apply (Forall_upsert _ _ uq_user_ip uq_eqb update_ip upsert_ip);
    auto using upsert_ip_cons.
  - rewrite He. apply text_le_refl.
  - intros r Hr. simpl. eapply text_le_trans; [exact Hr | apply case_greater_ge_old].
Qed.

Lemma history_invariant_ingest w arr db :
  history_invariant db -> history_invariant (fst (ingestItems w arr db)).
Proof.
  intros Hinv. destruct (ingestItems_cases w arr db) as [[e H] | H]; rewrite H; simpl;
    [exact Hinv | now apply history_invariant_apply].
Qed.

Lemma history_invariant_calls calls :
  forall db, history_invariant db -> history_invariant (ingest_calls calls db).
Proof.
  unfold ingest_calls. induction calls as [| c calls IH]; intros db Hinv; simpl;
    [exact Hinv | apply IH, history_invariant_ingest, Hinv].
Qed.

Lemma stamps_dated arr :
  Forall dated arr -> forall w w' i i', stamps w i arr = stamps w' i' arr.
Proof.
  induction 1 as [| it arr (d & Hd & Hpos) _ IH]; intros w w' i i'; simpl;
    [reflexivity |].
  rewrite (IH w w' (S i) (S i')). unfold effective_ts. rewrite Hd.
  now replace (0 <? d) with true by (symmetry; apply Z.ltb_lt; exact Hpos).
Qed.

Lemma store_ok_calm wall : store_ok (calm wall).
Proof. repeat split. Qed.

(** ** Atomicity, first-seen and the history invariant *)

Lemma ingestItems_atomic_witness :
  exists e,
    ingestItems (failing_at 1)
                [item 1 "alice" (Some "10.0.0.5") (Some 1000); item 2 "bob" None None]
                empty_db
    = (empty_db, Some e).
Proof.
  apply (ingestItems_atomic (failing_at 1) _ empty_db 1 (item 2 "bob" None None)).
  - reflexivity.
  - left. simpl. discriminate.
Defined.

(** C2. For every pair (user, address): a pair that is stored keeps its
    [first_seen] through every later ingest, whatever time stamps the batch
    carries and whether or not the batch commits; a pair that is not stored
    gets as [first_seen] the time stamp of the first item of the committed
    batch that carries it (and stays absent when no item does); and ingesting
    user 1 at 10.0.0.5 with date 1000 and then with date 500 leaves the
    user's and the pair's [last_seen] and the pair's [first_seen] at the
    text of 1000. *)
Theorem first_seen_set_once :
  (forall w arr db uid ip r,
      find_ip uid ip db = Some r ->
      exists r', find_ip uid ip (fst (ingestItems w arr db)) = Some r'
                 /\ uih_first_seen r' = uih_first_seen r)
  /\ (forall w arr db uid ip,
         find_ip uid ip db = None ->
         snd (ingestItems w arr db) = None ->
         option_map uih_first_seen (find_ip uid ip (fst (ingestItems w arr db)))
         = first_stamp uid ip (stamps w 0 arr))
  /\ (forall w1 w2,
         store_ok w1 -> store_ok w2 ->
         let db :=
           ingest_calls
             [(w1, [item 1 "alice" (Some "10.0.0.5") (Some 1000)]);
              (w2, [item 1 "alice" (Some "10.0.0.5") (Some 500)])]
             empty_db in
         option_map pu_last_seen (find_user 1 db) = Some (formatRFC3339 1000)
         /\ option_map uih_last_seen (find_ip 1 "10.0.0.5" db)
            = Some (formatRFC3339 1000)
         /\ option_map uih_first_seen (find_ip 1 "10.0.0.5" db)
            = Some (formatRFC3339 1000)).
Proof.
  split; [| split].
  - intros w arr db uid ip r Hr.
    destruct (find_ip_kept w arr db uid ip r Hr) as (r' & H1 & H2 & _). eauto.
  - apply find_ip_created.
  - intros w1 w2 H1 H2. unfold ingest_calls. simpl fold_left.
    rewrite (ingestItems_ok w1) by exact H1. simpl fst.
    rewrite (ingestItems_ok w2) by exact H2. simpl fst.
    vm_compute. auto.
Qed.

Lemma first_seen_set_once_witness :
  let db :=
    ingest_calls
      [(calm 7, [item 1 "alice" (Some "10.0.0.5") (Some 1000)]);
       (calm 9, [item 1 "alice" (Some "10.0.0.5") (Some 500)])]
      empty_db in
  option_map uih_first_seen (find_ip 1 "10.0.0.5" db) = Some (formatRFC3339 1000).
Proof.
  apply (proj2 (proj2 first_seen_set_once) (calm 7) (calm 9));
    repeat split.
Defined.

(** C9 at its failing input. The pair (1, 10.0.0.5) is ingested with date
    253402300800, the first second of the year 10000, and then with date
    253402300799, the last second of 9999. The merge compares the two
    RFC 3339 texts, and the five-digit year sorts before the four-digit
    one: the second call lowers [last_seen] to the earlier instant and
    leaves the row with a [first_seen] that is later than its
    [last_seen]. *)
Lemma first_seen_after_last_seen :
  let first := (calm 0, [item 1 "alice" (Some "10.0.0.5") (Some 253402300800)]) in
  let second := (calm 0, [item 1 "alice" (Some "10.0.0.5") (Some 253402300799)]) in
  user_ip_history (ingest_calls [first] empty_db)
  = [ {| uih_user_id := 1; uih_ip := "10.0.0.5";
         uih_first_seen := "10000-01-01T00:00:00Z";
         uih_last_seen := "10000-01-01T00:00:00Z" |} ]
  /\ user_ip_history (ingest_calls [first; second] empty_db)
     = [ {| uih_user_id := 1; uih_ip := "10.0.0.5";
            uih_first_seen := "10000-01-01T00:00:00Z";
            uih_last_seen := "9999-12-31T23:59:59Z" |} ]
  /\ formatRFC3339 253402300800 = "10000-01-01T00:00:00Z"
  /\ formatRFC3339 253402300799 = "9999-12-31T23:59:59Z".
Proof. vm_compute. repeat split. Qed.

(** X19. In the order in which the store compares the two TEXT columns,
    every history row has [first_seen <= last_seen]: the empty store has
    the invariant, every call of [ingestItems] keeps it, so it holds after
    any sequence of calls; a call changes a stored row at most by raising
    its [last_seen] in that order, never its [first_seen]; and for time
    stamps up to 9999-12-31T23:59:59Z, where RFC 3339 texts have one width,
    the invariant is the order of the two instants. *)
Theorem first_seen_le_last_seen :
  history_invariant empty_db
  /\ (forall w arr db,
         history_invariant db -> history_invariant (fst (ingestItems w arr db)))
  /\ (forall calls, history_invariant (ingest_calls calls empty_db))
  /\ (forall w arr db uid ip r,
         find_ip uid ip db = Some r ->
         exists r', find_ip uid ip (fst (ingestItems w arr db)) = Some r'
                    /\ uih_first_seen r' = uih_first_seen r
                    /\ text_le (uih_last_seen r) (uih_last_seen r') = true)
  /\ (forall calls r a b,
         In r (user_ip_history (ingest_calls calls empty_db)) ->
         uih_first_seen r = formatRFC3339 a -> uih_last_seen r = formatRFC3339 b ->
         0 <= a <= maxRFC3339 -> 0 <= b <= maxRFC3339 ->
         a <= b).
Proof.
  assert (history_invariant empty_db) as H0 by constructor.
  split; [exact H0 |]. split; [apply history_invariant_ingest |].
  split; [intros calls; now apply history_invariant_calls |].
  split; [apply find_ip_kept |].
  intros calls r a b Hin Hf Hl Ha Hb.
  pose proof (history_invariant_calls calls empty_db H0) as Hinv.
  unfold history_invariant in Hinv. rewrite Forall_forall in Hinv.
  specialize (Hinv r Hin). rewrite Hf, Hl, (text_le_format a b Ha Hb) in Hinv.
  now apply Z.leb_le.
Qed.

Lemma first_seen_le_last_seen_witness :
  history_invariant
    (fst (ingestItems (calm 5) [item 1 "alice" (Some "10.0.0.5") (Some 500)]
                      (ingest_calls
                         [(calm 7, [item 1 "alice" (Some "10.0.0.5") (Some 1000)])]
                         empty_db))).
Proof.
  apply (proj1 (proj2 first_seen_le_last_seen)).
  apply (proj1 (proj2 (proj2 first_seen_le_last_seen))).
Defined.

(** ** Re-ingestion *)

(** C3 as stated fails: an item without a date is stamped with the wall
    clock, so the same batch ingested again later raises [last_seen]. *)
Lemma reingest_undated_changes :
  let b := [item 1 "alice" (Some "10.0.0.5") None] in
  let db1 := fst (ingestItems (calm 100) b empty_db) in
  fst (ingestItems (calm 200) b db1) <> db1
  /\ option_map pu_last_seen (find_user 1 db1) = Some (formatRFC3339 100)
  /\ option_map pu_last_seen (find_user 1 (fst (ingestItems (calm 200) b db1)))
     = Some (formatRFC3339 200).
Proof. vm_compute. repeat split; discriminate. Qed.

(** C3, amended. For every batch whose items all carry an explicit positive
    date: once the batch has been committed, ingesting the identical batch
    again leaves the store exactly as the first application left it (no row
    is added, no [first_seen] or [last_seen] moves), whatever the clock and
    whether or not the second call commits. *)
Theorem reingest_dated_idempotent (w1 w2 : World) (arr : list TautulliItem) (db : DB) :
  Forall dated arr ->
  snd (ingestItems w1 arr db) = None ->
  fst (ingestItems w2 arr (fst (ingestItems w1 arr db)))
  = fst (ingestItems w1 arr db).
Proof.
  intros Hd Hok.
  destruct (ingestItems_cases w1 arr db) as [[e H] | H]; rewrite H in *;
    simpl in *; [discriminate |].
  destruct (ingestItems_cases w2 arr (apply_stamps (stamps w1 0 arr) db))
    as [[e H2] | H2]; rewrite H2; simpl; [reflexivity |].
  rewrite (stamps_dated arr Hd w2 w1 0%nat 0%nat). apply apply_stamps_twice.
Qed.

Lemma reingest_dated_idempotent_witness :
  let b := [item 1 "alice" (Some "10.0.0.5") (Some 1000);
            item 1 "Alice" (Some "10.0.0.6") (Some 500)] in
  fst (ingestItems (calm 200) b (fst (ingestItems (calm 100) b empty_db)))
  = fst (ingestItems (calm 100) b empty_db).
Proof.
  apply (reingest_dated_idempotent (calm 100) (calm 200)).
  - repeat constructor; eexists; (split; [reflexivity | lia]).
  - reflexivity.
Defined.

(** ** The push endpoint *)


Lemma authorized_passes (w : World) (r : Request) :
  ingest_token w = "" \/ TrimPrefix (Authorization r) "Bearer " = ingest_token w ->
  negb (ingest_token w =? "")%string
  && negb (TrimPrefix (Authorization r) "Bearer " =? ingest_token w)%string = false.
Proof.
  intros [H | H]; rewrite H.
  - reflexivity.
  - rewrite String.eqb_refl. apply andb_false_r.
Qed.



(** ** ORDER BY *)

Section OrderBy.

Variable A : Type.
Variable le : A -> A -> bool.
Hypothesis le_total : forall x y, le x y = true \/ le y x = true.

Local Abbreviation R := (fun x y => le x y = true).

Lemma insert_by_perm (x : A) (l : list A) : Permutation (insert_by le x l) (x :: l).
Proof.
  induction l as [| y l IH]; simpl; [reflexivity |].
  destruct (le x y); [reflexivity |].
  rewrite IH. apply perm_swap.
Qed.

Lemma order_by_perm (l : list A) : Permutation (order_by le l) l.
Proof.
  induction l as [| x l IH]; simpl; [reflexivity |].
  rewrite insert_by_perm. now constructor.
Qed.

Lemma insert_by_hd (x a : A) (l : list A) :
  le a x = true -> HdRel R a l -> HdRel R a (insert_by le x l).
Proof.
  intros Hax Hl. destruct l as [| y l]; simpl; [now constructor |].
  destruct (le x y); constructor; [exact Hax | now inversion Hl].
Qed.

Lemma insert_by_sorted (x : A) (l : list A) :
  Sorted R l -> Sorted R (insert_by le x l).
Proof.
  induction 1 as [| y l Hl IH Hy]; simpl; [repeat constructor |].
  destruct (le x y) eqn:E.
  - constructor; [now constructor | now constructor].
  - constructor; [exact IH |].
    apply insert_by_hd; [| exact Hy].
    destruct (le_total x y) as [H | H]; [congruence | exact H].
Qed.

Lemma order_by_sorted (l : list A) : Sorted R (order_by le l).
Proof.
  induction l as [| x l IH]; simpl; [constructor | now apply insert_by_sorted].
Qed.

Lemma order_by_nil (l : list A) : order_by le l = [] <-> l = [].
Proof.
  split; [| now intros ->].
  intros H. pose proof (order_by_perm l) as P. rewrite H in P.
  now apply Permutation_nil in P.
Qed.

Hypothesis le_trans : forall x y z, le x y = true -> le y z = true -> le x z = true.

(** The first row of the ordered list may come before every row. *)
Lemma order_by_hd (l : list A) (h : A) :
  hd_error (order_by le l) = Some h ->
  In h l /\ forall x, In x l -> le h x = true.
Proof.
  intros Hh. pose proof (order_by_sorted l) as Hs.
  pose proof (order_by_perm l) as Hp.
  destruct (order_by le l) as [| h' t]; [discriminate |].
  inversion Hh; subst h'. split.
  - eapply Permutation_in; [exact Hp | now left].
  - intros x Hx. apply Permutation_sym in Hp.
    apply (Permutation_in _ Hp) in Hx. destruct Hx as [<- | Hx].
    + destruct (le_total h h); assumption.
    + apply Sorted_StronglySorted in Hs; [| intros a b c; apply le_trans].
      inversion Hs as [| ? ? _ Hall]; subst.
      rewrite Forall_forall in Hall. now apply Hall.
Qed.

(** A row that must come before every other row is the first one,
    whatever the scan order. *)
Lemma order_by_hd_unique (l : list A) (r : A) :
  In r l -> (forall x, In x l -> x = r \/ le x r = false) ->
  hd_error (order_by le l) = Some r.
Proof.
  intros Hin Hstrict.
  destruct (hd_error (order_by le l)) as [h |] eqn:E.
  - destruct (order_by_hd l h E) as [Hh Hall].
    specialize (Hall r Hin).
    destruct (Hstrict h Hh) as [-> | F]; [reflexivity | congruence].
  - destruct (order_by le l) eqn:E'; [| discriminate].
    apply (proj1 (order_by_nil l)) in E'. rewrite E' in Hin. contradiction.
Qed.

End OrderBy.

Lemma Sorted_map {A B : Type} (f : A -> B) (R : B -> B -> Prop) (l : list A) :
  Sorted (fun x y => R (f x) (f y)) l -> Sorted R (map f l).
Proof.
  induction 1 as [| x l _ IH Hx]; simpl; constructor; [exact IH |].
  destruct Hx; simpl; now constructor.
Qed.

Lemma last_seen_desc_total x y :
  last_seen_desc x y = true \/ last_seen_desc y x = true.
Proof. unfold last_seen_desc. apply text_le_total. Qed.

Lemma last_seen_desc_trans x y z :
  last_seen_desc x y = true -> last_seen_desc y z = true -> last_seen_desc x z = true.
Proof. unfold last_seen_desc. intros H1 H2. eapply text_le_trans; eassumption. Qed.

Lemma history_of_perm uid t :
  Permutation (history_of uid t) (filter (fun r => uih_user_id r =? uid) t).
Proof. apply order_by_perm. Qed.

Lemma history_of_nil uid t :
  history_of uid t = [] <-> forall r, In r t -> uih_user_id r <> uid.
Proof.
  unfold history_of. rewrite order_by_nil. split.
  - intros H r Hin Hr.
    assert (In r (filter (fun r => uih_user_id r =? uid) t)) as Hf
        by (apply filter_In; split; [exact Hin | now apply Z.eqb_eq]).
    now rewrite H in Hf.
  - intros H. induction t as [| r t IH]; [reflexivity |]. simpl.
    destruct (Z.eqb_spec (uih_user_id r) uid) as [E | _].
    + exfalso. apply (H r); [now left | exact E].
    + apply IH. intros r' Hr'. apply H. now right.
Qed.

(** ** The history query *)

(** C8 at its failing input. User 1 is seen at 10.0.0.1 in the first second
    of the year 10000 (date 253402300800) and at 10.0.0.2 in the last
    second of 9999 (date 253402300799). The query orders by the RFC 3339
    text of [last_seen], in which the five-digit year sorts before the
    four-digit one: the history page lists the observation of 9999 first
    and the later one after it. *)
Lemma history_order_beyond_9999 :
  let db :=
    ingest_calls [(calm 0, [item 1 "alice" (Some "10.0.0.1") (Some 253402300800);
                            item 1 "alice" (Some "10.0.0.2") (Some 253402300799)])]
                 empty_db in
  handleUserIPs (calm 0) "/partial/user/1" db
  = Render {| Username := "alice";
              IPs := [ {| IP := "10.0.0.2";
                          FirstSeen := "9999-12-31T23:59:59Z";
                          LastSeen := "9999-12-31T23:59:59Z" |};
                       {| IP := "10.0.0.1";
                          FirstSeen := "10000-01-01T00:00:00Z";
                          LastSeen := "10000-01-01T00:00:00Z" |} ] |}
  /\ formatRFC3339 253402300799 = "9999-12-31T23:59:59Z"
  /\ formatRFC3339 253402300800 = "10000-01-01T00:00:00Z".
Proof. vm_compute. repeat split. Qed.

Lemma StronglySorted_after {A : Type} (R : A -> A -> Prop) (pre : list A) (a : A)
      (l : list A) :
  StronglySorted R (pre ++ a :: l) -> Forall (R a) l.
Proof.
  induction pre as [| x pre IH]; simpl; intros H.
  - now inversion H.
  - inversion H; subst. now apply IH.
Qed.

(** X20. For every user id that the request path spells: the history query
    answers with exactly that user's rows (ip, first_seen, last_seen),
    ordered by [last_seen] descending in the order in which the store
    compares the TEXT column, so that of two listed rows whose time stamps
    are instants up to 9999-12-31T23:59:59Z the later one comes first; for
    a user id without stored rows the list is empty and the answer is a
    page, not an error; and when the registry has no row for the id the
    label is "User <id>". *)
Theorem handleUserIPs_history (w : World) (path : string) (uid : Z) (db : DB) :
  query_err w = None ->
  ParseInt (TrimPrefix path "/partial/user/") = Some uid ->
  exists name rows,
    handleUserIPs w path db = Render {| Username := name; IPs := rows |}
    /\ Permutation rows
                   (map ip_row (filter (fun r => uih_user_id r =? uid)
                                       (user_ip_history db)))
    /\ Sorted (fun a b => text_le (LastSeen b) (LastSeen a) = true) rows
    /\ (forall pre a mid b post ta tb,
           rows = (pre ++ a :: mid ++ b :: post)%list ->
           0 <= ta <= maxRFC3339 -> LastSeen a = formatRFC3339 ta ->
           0 <= tb <= maxRFC3339 -> LastSeen b = formatRFC3339 tb ->
           tb <= ta)
    /\ ((forall r, In r (user_ip_history db) -> uih_user_id r <> uid) -> rows = [])
    /\ (find_user uid db = None -> name = "User " ++ sprint_d uid).
Proof.
  intros Hq Hp. unfold handleUserIPs. rewrite Hp, Hq.
  eexists. eexists. split; [reflexivity |].
  assert (Sorted (fun a b => text_le (LastSeen b) (LastSeen a) = true)
                 (map ip_row (history_of uid (user_ip_history db)))) as HS
      by (apply Sorted_map;
          apply (order_by_sorted _ last_seen_desc last_seen_desc_total)).
  split; [apply Permutation_map, history_of_perm |].
  split; [exact HS |]. split; [| split].
  - intros pre a mid b post ta tb E Ha Hla Hb Hlb.
    apply Sorted_StronglySorted in HS.
    + rewrite E in HS. apply StronglySorted_after in HS.
      rewrite Forall_forall in HS.
      assert (text_le (LastSeen b) (LastSeen a) = true) as Hle
          by (apply HS, in_or_app; right; now left).
      rewrite Hla, Hlb, (text_le_format tb ta Hb Ha) in Hle. now apply Z.leb_le.
    + intros x y z H1 H2. eapply text_le_trans; eassumption.
  - intros H. apply history_of_nil in H. now rewrite H.
  - intros Hf. rewrite Hf. now destruct (query_row_fails w).
Qed.

Lemma handleUserIPs_history_witness :
  let db :=
    ingest_calls [(calm 0, [item 1 "" (Some "10.0.0.1") (Some 100);
                            item 1 "" (Some "10.0.0.2") (Some 200)])]
                 empty_db in
  exists name rows,
    handleUserIPs (calm 0) "/partial/user/1" db
    = Render {| Username := name; IPs := rows |}
    /\ Permutation rows
                   (map ip_row (filter (fun r => uih_user_id r =? 1)
                                       (user_ip_history db)))
    /\ Sorted (fun a b => text_le (LastSeen b) (LastSeen a) = true) rows
    /\ (forall pre a mid b post ta tb,
           rows = (pre ++ a :: mid ++ b :: post)%list ->
           0 <= ta <= maxRFC3339 -> LastSeen a = formatRFC3339 ta ->
           0 <= tb <= maxRFC3339 -> LastSeen b = formatRFC3339 tb ->
           tb <= ta)
    /\ ((forall r, In r (user_ip_history db) -> uih_user_id r <> 1) -> rows = [])
    /\ (find_user 1 db = None -> name = "User " ++ sprint_d 1).
Proof.
  intros db.
  apply (handleUserIPs_history (calm 0) "/partial/user/1" 1 db);
    reflexivity.
Defined.

(** ** The last-IP projection *)

(** C5 as stated fails: the view orders by [last_seen] only. Two stores
    holding the same two observations of user 1 with one [last_seen] show
    different addresses, in one the smaller and in the other the greater
    address string. *)
Lemma tie_follows_row_order :
  let a := item 1 "alice" (Some "10.0.0.1") (Some 100) in
  let b := item 1 "alice" (Some "10.0.0.2") (Some 100) in
  let db_ab := fst (ingestItems (calm 0) [a; b] empty_db) in
  let db_ba := fst (ingestItems (calm 0) [b; a] empty_db) in
  Permutation (user_ip_history db_ab) (user_ip_history db_ba)
  /\ plex_users db_ab = plex_users db_ba
  /\ map uli_last_ip (users_last_ip db_ab) = [Some "10.0.0.1"]
  /\ map uli_last_ip (users_last_ip db_ba) = [Some "10.0.0.2"].
Proof. vm_compute. repeat split. apply perm_swap. Qed.

(** C5, amended. For every user and every stored history whose time stamps
    are instants up to 9999-12-31T23:59:59Z: the projection selects an
    observation of that user whose [last_seen] is the latest instant, and
    NULL exactly when the user has no observation; when one observation of
    the user is strictly later than all the others, it is selected whatever
    the order of the rows. Nothing is promised when two addresses of the
    user share the latest [last_seen]: the query names no secondary key. *)
Theorem last_ip_is_latest (uid : Z) (t : list user_ip_history_row) :
  (forall r, In r t -> uih_user_id r = uid -> exists a, last_seen_at r a) ->
  (forall r, latest_observation uid t = Some r ->
             In r t /\ uih_user_id r = uid
             /\ forall a r' a',
                 last_seen_at r a ->
                 In r' t -> uih_user_id r' = uid -> last_seen_at r' a' ->
                 a' <= a)
  /\ (latest_observation uid t = None <->
      forall r, In r t -> uih_user_id r <> uid)
  /\ (forall r a t',
         In r t -> uih_user_id r = uid -> last_seen_at r a ->
         (forall r' a', In r' t -> uih_user_id r' = uid -> last_seen_at r' a' ->
                        r' = r \/ a' < a) ->
         Permutation t t' ->
         latest_observation uid t' = Some r).
Proof.
  intros Hrange. unfold latest_observation. split; [| split].
  - intros r H.
    destruct (order_by_hd _ last_seen_desc last_seen_desc_total last_seen_desc_trans
                          _ _ H) as [Hin Hall].
    apply filter_In in Hin as [Hin Hu]. apply Z.eqb_eq in Hu.
    split; [exact Hin |]. split; [exact Hu |].
    intros a r' a' [Ha Hr] Hr' Hu' [Ha' Hr''].
    assert (last_seen_desc r r' = true) as Hle
        by (apply Hall, filter_In; split; [exact Hr' | now apply Z.eqb_eq]).
    unfold last_seen_desc in Hle.
    rewrite Hr, Hr'', (text_le_format a' a Ha' Ha) in Hle. now apply Z.leb_le.
  - split.
    + intros H. apply history_of_nil. now destruct (history_of uid t).
    + intros H. apply history_of_nil in H. now rewrite H.
  - intros r a t' Hin Hu [Ha Hr] Hstrict Hp. unfold history_of.
    apply (order_by_hd_unique _ last_seen_desc last_seen_desc_total last_seen_desc_trans).
    + apply filter_In. split; [eapply Permutation_in; eassumption | now apply Z.eqb_eq].
    + intros x Hx. apply filter_In in Hx as [Hx Hxu]. apply Z.eqb_eq in Hxu.
      apply Permutation_sym in Hp. pose proof (Permutation_in _ Hp Hx) as Hxt.
      destruct (Hrange x Hxt Hxu) as [a' [Ha' Hx']].
      destruct (Hstrict x a' Hxt Hxu (conj Ha' Hx')) as [-> | Hlt]; [now left |].
      right. unfold last_seen_desc.
      rewrite Hr, Hx', (text_le_format a a' Ha Ha'). apply Z.leb_gt. exact Hlt.
Qed.

Lemma last_ip_is_latest_witness :
  let t := [ {| uih_user_id := 1; uih_ip := "10.0.0.1";
                uih_first_seen := formatRFC3339 100; uih_last_seen := formatRFC3339 100 |};
             {| uih_user_id := 1; uih_ip := "10.0.0.2";
                uih_first_seen := formatRFC3339 200; uih_last_seen := formatRFC3339 200 |} ] in
  latest_observation 1 (rev t)
  = Some {| uih_user_id := 1; uih_ip := "10.0.0.2";
            uih_first_seen := formatRFC3339 200; uih_last_seen := formatRFC3339 200 |}.
Proof.
  intros t.
  assert (forall r, In r t -> uih_user_id r = 1 -> exists a, last_seen_at r a) as Hrange.
  { intros r [<- | [<- | []]] _; [exists 100 | exists 200];
      (split; [unfold maxRFC3339; lia | reflexivity]). }
  apply (proj2 (proj2 (last_ip_is_latest 1 t Hrange)) _ 200).
  - right; left; reflexivity.
  - reflexivity.
  - split; [unfold maxRFC3339; lia | reflexivity].
  - intros r' a' [<- | [<- | []]] _ [Ha' Hr']; [right | left; reflexivity].
    destruct (Z.lt_total a' 200) as [L | [E | G]]; [exact L | |].
    + subst a'. vm_compute in Hr'. discriminate Hr'.
    + exfalso. cbn [uih_last_seen] in Hr'.
      pose proof (formatRFC3339_compare 100 a' ltac:(unfold maxRFC3339; lia) Ha') as C.
      rewrite <- Hr', compare_refl in C. symmetry in C. apply Z.compare_eq in C. lia.
  - apply Permutation_rev.
Defined.

(** ** Users without an address *)

Lemma ingest_calls_cons c calls db :
  ingest_calls (c :: calls) db
  = ingest_calls calls (fst (ingestItems (fst c) (snd c) db)).
Proof. reflexivity. Qed.

Lemma stamps_items w arr : forall i, map fst (stamps w i arr) = arr.
Proof. induction arr as [| it arr IH]; intros i; simpl; [| rewrite IH]; reflexivity. Qed.

(** A registered user stays registered. *)
Lemma find_user_kept w arr db uid :
  find_user uid db <> None -> find_user uid (fst (ingestItems w arr db)) <> None.
Proof.
  intros Hr. destruct (ingestItems_cases w arr db) as [[e H] | H]; rewrite H; simpl;
    [exact Hr |].
  rewrite find_user_apply. destruct (find_user uid db) as [r |]; [| congruence].
  now rewrite fold_merged_some.
Qed.

(** A committed batch registers the users of its items. *)
Lemma find_user_created w arr db uid :
  store_ok w -> Exists (fun it => UserID it = uid) arr ->
  find_user uid (fst (ingestItems w arr db)) <> None.
Proof.
  intros Hok Hex. rewrite (ingestItems_ok w arr db Hok). simpl.
  rewrite find_user_apply.
  assert (filter (fun e => pu_id e =? uid) (map excluded_user (stamps w 0 arr)) <> [])
    as Hne.
  { apply Exists_exists in Hex as (it & Hin & Hu).
    rewrite <- (stamps_items w arr 0) in Hin.
    apply in_map_iff in Hin as (o & Ho & Hin).
    intros Hnil.
    assert (In (excluded_user o) (filter (fun e => pu_id e =? uid)
                                         (map excluded_user (stamps w 0 arr)))) as Hf.
    { apply filter_In. split; [now apply in_map |].
      unfold excluded_user; simpl. rewrite Ho. now apply Z.eqb_eq. }
    now rewrite Hnil in Hf. }
  destruct (filter _ _) as [| e es]; [congruence |].
  destruct (find_user uid db); simpl; rewrite fold_merged_some; discriminate.
Qed.

(** Items without an address leave a user without history rows. *)
Lemma no_history_ingest w arr db uid :
  (forall r, In r (user_ip_history db) -> uih_user_id r <> uid) ->
  Forall (fun it => UserID it = uid -> address_of it = None) arr ->
  forall r, In r (user_ip_history (fst (ingestItems w arr db))) -> uih_user_id r <> uid.
Proof.
  intros Hdb Harr. destruct (ingestItems_cases w arr db) as [[e H] | H]; rewrite H;
    simpl; [exact Hdb |].
  rewrite fold_step_history. apply Forall_forall.
  apply Forall_forall in Hdb. revert Hdb. generalize (user_ip_history db) as t.
  assert (Forall (fun e => uih_user_id e <> uid)
                 (flat_map excluded_ips (stamps w 0 arr))) as Hes.
  { apply Forall_flat_map, Forall_forall. intros o Ho. unfold excluded_ips.
    destruct (address_of (fst o)) as [a |] eqn:Ea; [| constructor].
    repeat constructor. simpl. intros Hu.
    assert (In (fst o) arr) as Hin
        by (rewrite <- (stamps_items w arr 0); now apply in_map).
    rewrite Forall_forall in Harr. rewrite (Harr _ Hin Hu) in Ea. discriminate. }
  induction Hes as [| e es He _ IH]; intros t Ht; simpl; [exact Ht |].
  apply IH.
  apply (Forall_upsert _ _ uq_user_ip uq_eqb update_ip upsert_ip);
    auto using upsert_ip_cons.
Qed.

Lemma no_history_calls uid calls :
  forall db,
    (forall r, In r (user_ip_history db) -> uih_user_id r <> uid) ->
    items_for uid (fun it => address_of it = None) calls ->
    forall r, In r (user_ip_history (ingest_calls calls db)) -> uih_user_id r <> uid.
Proof.
  induction calls as [| c calls IH]; intros db Hdb Hit; [exact Hdb |].
  rewrite ingest_calls_cons. inversion Hit; subst.
  apply IH; [| assumption]. now apply no_history_ingest.
Qed.

Lemma registered_calls uid calls :
  forall db,
    find_user uid db <> None
    \/ Exists (fun c => store_ok (fst c) /\ Exists (fun it => UserID it = uid) (snd c))
              calls ->
    find_user uid (ingest_calls calls db) <> None.
Proof.
  induction calls as [| c calls IH]; intros db H.
  - destruct H as [H | H]; [exact H | inversion H].
  - rewrite ingest_calls_cons. apply IH.
    destruct H as [H | H]; [left; now apply find_user_kept |].
    inversion H as [? ? [Hok Hex] | ? ? Hrest]; subst.
    + left. now apply find_user_created.
    + now right.
Qed.

(** Every registered user has a row in the unfiltered summary. *)
Lemma summary_row_listed (db : DB) (pu : plex_users_row) :
  In pu (plex_users db) ->
  In (summary_row db pu) (map summary_select (order_by username_asc (summary_join db))).
Proof.
  intros Hin. unfold summary_row. apply in_map.
  apply (Permutation_in _ (Permutation_sym (order_by_perm _ username_asc _))).
  unfold summary_join. apply in_flat_map. exists (last_ip_row db pu). split.
  - unfold users_last_ip. now apply in_map.
  - apply in_map. apply filter_In. split; [exact Hin | apply Z.eqb_refl].
Qed.

(** C10. A user who was ingested only through items without an address
    (null or empty [ip_address]) has a row in the unfiltered summary, with
    NULL [last_ip] and NULL [updated_at]; and the unfiltered summary has a
    row for every registered user, with or without history rows. *)
Theorem summary_lists_user_without_address
        (w : World) (calls : list (World * list TautulliItem)) (db : DB) (uid : Z) :
  query_err w = None ->
  (forall r, In r (user_ip_history db) -> uih_user_id r <> uid) ->
  items_for uid (fun it => address_of it = None) calls ->
  Exists (fun c => store_ok (fst c) /\ Exists (fun it => UserID it = uid) (snd c))
         calls ->
  (exists rows r,
      handleSummary w None (ingest_calls calls db) = Render rows
      /\ In r rows /\ Row_UserID r = uid
      /\ Row_LastIP r = None /\ Row_UpdatedAt r = None)
  /\ (forall db' pu,
         In pu (plex_users db') ->
         exists rows r,
           handleSummary w None db' = Render rows
           /\ In r rows /\ Row_UserID r = pu_id pu).
Proof.
  intros Hq Hdb Hit Hex. split.
  - pose proof (registered_calls uid calls db (or_intror Hex)) as Hreg.
    pose proof (no_history_calls uid calls db Hdb Hit) as Hno.
    set (D := ingest_calls calls db) in *.
    destruct (find_user uid D) as [pu |] eqn:Ef; [clear Hreg | congruence].
    unfold find_user in Ef. apply find_some in Ef as [Hin Hid].
    apply Z.eqb_eq in Hid.
    exists (map summary_select (order_by username_asc (summary_join D))),
           (summary_row D pu).
    unfold handleSummary. rewrite Hq. split; [reflexivity |].
    split; [now apply summary_row_listed |].
    split; [exact Hid |].
    apply history_of_nil in Hno.
    unfold summary_row, summary_select, last_ip_row, latest_observation; simpl.
    rewrite Hid, Hno. split; reflexivity.
  - intros db' pu Hin.
    exists (map summary_select (order_by username_asc (summary_join db'))),
           (summary_row db' pu).
    unfold handleSummary. rewrite Hq. split; [reflexivity |].
    split; [now apply summary_row_listed | reflexivity].
Qed.

Lemma summary_lists_user_without_address_witness :
  exists rows r,
    handleSummary (calm 0) None
                  (ingest_calls [(calm 5, [item 2 "bob" None None]);
                                 (calm 6, [item 2 "bob" (Some "") (Some 9)])]
                                empty_db)
    = Render rows
    /\ In r rows /\ Row_UserID r = 2 /\ Row_LastIP r = None /\ Row_UpdatedAt r = None.
Proof.
  apply (summary_lists_user_without_address
           (calm 0)
           [(calm 5, [item 2 "bob" None None]);
            (calm 6, [item 2 "bob" (Some "") (Some 9)])]
           empty_db 2).
  - reflexivity.
  - intros r [].
  - repeat constructor.
  - left. split; [apply store_ok_calm | left; reflexivity].
Defined.

(** ** The summary filter *)

(** ** Reading a text character by character *)

Lemma byte_of_range (b : ascii) : 0 <= byte_of b < 256.
Proof.
  unfold byte_of. pose proof (N_ascii_bounded b) as H. lia.
Qed.

Lemma read_continuation_suffix (c : Z) (z : string) :
  exists pre, z = pre ++ snd (read_continuation c z).
Proof.
  revert c. induction z as [| b z IH]; intros c; simpl.
  - now exists "".
  - destruct (Z.land (byte_of b) 192 =? 128).
    + destruct (IH (Z.land (Z.shiftl c 6) 4294967295 + Z.land 63 (byte_of b)))
        as [pre Hpre].
      exists (String b pre). cbn [append]. now f_equal.
    + now exists "".
Qed.

Lemma read_continuation_app (c : Z) (z : string) :
  read_continuation c (z ++ "%")
  = (fst (read_continuation c z), snd (read_continuation c z) ++ "%").
Proof.
  revert c. induction z as [| b z IH]; intros c; simpl; [reflexivity |].
  destruct (Z.land (byte_of b) 192 =? 128); [apply IH | reflexivity].
Qed.

Lemma sqlite3Utf8Read_low (b : ascii) (z : string) :
  byte_of b < 192 -> sqlite3Utf8Read (String b z) = (byte_of b, z).
Proof.
  intros H. unfold sqlite3Utf8Read.
  now replace (192 <=? byte_of b) with false by (symmetry; apply Z.leb_gt; lia).
Qed.

Lemma sqlite3Utf8Read_lead (b : ascii) (z : string) :
  192 <= byte_of b ->
  128 <= fst (sqlite3Utf8Read (String b z))
  /\ (exists pre, z = pre ++ snd (sqlite3Utf8Read (String b z)))
  /\ sqlite3Utf8Read (String b (z ++ "%"))
     = (fst (sqlite3Utf8Read (String b z)), snd (sqlite3Utf8Read (String b z)) ++ "%").
Proof.
  intros H. unfold sqlite3Utf8Read.
  replace (192 <=? byte_of b) with true by (symmetry; apply Z.leb_le; lia).
  set (t := nth _ sqlite3Utf8Trans1 0).
  rewrite read_continuation_app.
  destruct (read_continuation_suffix t z) as [pre Hpre].
  destruct (read_continuation t z) as [c rest]. cbn [fst snd] in *.
  split; [| split; [now exists pre | reflexivity]].
  destruct (Z.ltb_spec c 128); [cbn; lia |].
  cbn [orb]. destruct (_ || _); lia.
Qed.

Lemma length_app_string (a b : string) :
  String.length (a ++ b) = (String.length a + String.length b)%nat.
Proof. induction a as [| c a IH]; simpl; [reflexivity | now rewrite IH]. Qed.

Lemma sqlite3Utf8Read_shorter (b : ascii) (z : string) :
  (String.length (snd (sqlite3Utf8Read (String b z))) <= String.length z)%nat.
Proof.
  destruct (Z.ltb_spec (byte_of b) 192) as [L | L].
  - rewrite sqlite3Utf8Read_low by exact L. simpl. lia.
  - destruct (sqlite3Utf8Read_lead b z L) as (_ & [pre Hpre] & _).
    rewrite Hpre at 2. rewrite length_app_string. lia.
Qed.

Lemma read_text_fuel (n m : nat) :
  forall z, (String.length z <= n)%nat -> (String.length z <= m)%nat ->
            read_text n z = read_text m z.
Proof.
  revert m. induction n as [| n IH]; intros m z Hn Hm.
  - destruct z; [| simpl in Hn; lia]. now destruct m.
  - destruct m as [| m].
    + destruct z; [reflexivity | simpl in Hm; lia].
    + destruct z as [| b z]; [reflexivity |].
      cbn [read_text]. pose proof (sqlite3Utf8Read_shorter b z) as Hs.
      destruct (sqlite3Utf8Read (String b z)) as [c rest]. cbn [snd] in Hs.
      destruct (c =? 0); [reflexivity |]. f_equal.
      simpl in Hn, Hm. apply IH; lia.
Qed.

(** The characters of a text, one call of [sqlite3Utf8Read] at a time. *)
Lemma text_chars_step (b : ascii) (z : string) :
  text_chars (String b z)
  = if fst (sqlite3Utf8Read (String b z)) =? 0 then []
    else fst (sqlite3Utf8Read (String b z))
         :: text_chars (snd (sqlite3Utf8Read (String b z))).
Proof.
  unfold text_chars at 1. cbn [String.length read_text].
  pose proof (sqlite3Utf8Read_shorter b z) as Hs.
  destruct (sqlite3Utf8Read (String b z)) as [c rest]. cbn [fst snd] in *.
  destruct (c =? 0); [reflexivity |]. f_equal.
  apply read_text_fuel; [exact Hs | lia].
Qed.

Lemma plain_app (a b : string) : plain (a ++ b) = plain a && plain b.
Proof.
  induction a as [| c a IH]; simpl; [reflexivity |].
  rewrite IH. now rewrite andb_assoc.
Qed.

(** An induction over a text as [sqlite3Utf8Read] cuts it into characters. *)
Lemma text_chars_ind (P : string -> Prop) :
  P "" ->
  (forall b z, P (snd (sqlite3Utf8Read (String b z))) -> P (String b z)) ->
  forall z, P z.
Proof.
  intros H0 Hs z.
  remember (String.length z) as n eqn:En.
  assert (String.length z <= n)%nat as Hn by lia. clear En.
  revert z Hn. induction n as [| n IH]; intros z Hn.
  - destruct z; [exact H0 | simpl in Hn; lia].
  - destruct z as [| b z]; [exact H0 |].
    apply Hs. apply IH. pose proof (sqlite3Utf8Read_shorter b z). simpl in Hn. lia.
Qed.

(** The pattern of the summary, for a filter without NUL byte: [%], the
    characters of the filter, [%]. *)
Lemma text_chars_percent (z : string) :
  plain z = true -> text_chars (z ++ "%") = (text_chars z ++ [37])%list.
Proof.
  induction z as [| b z IH] using text_chars_ind; intros Hp; [reflexivity |].
  change (String b z ++ "%") with (String b (z ++ "%")).
  rewrite !text_chars_step.
  simpl in Hp. apply andb_true_iff in Hp as [Hb Hz].
  apply andb_true_iff in Hb as [Hb H0]. apply negb_true_iff, Z.eqb_neq in H0.
  destruct (Z.ltb_spec (byte_of b) 192) as [L | L].
  - rewrite !sqlite3Utf8Read_low in * by exact L. cbn [fst snd] in *.
    apply Z.eqb_neq in H0. rewrite H0. simpl. now rewrite IH.
  - destruct (sqlite3Utf8Read_lead b z L) as (Hc & [pre Hpre] & ->).
    cbn [fst snd].
    replace (fst (sqlite3Utf8Read (String b z)) =? 0) with false
      by (symmetry; apply Z.eqb_neq; lia).
    simpl. f_equal. apply IH.
    rewrite Hpre, plain_app in Hz. now apply andb_true_iff in Hz.
Qed.

Lemma text_chars_plain (z : string) :
  plain z = true -> Forall (fun c => c <> matchAll /\ c <> matchOne) (text_chars z).
Proof.
  induction z as [| b z IH] using text_chars_ind; intros Hp; [constructor |].
  rewrite text_chars_step.
  simpl in Hp. apply andb_true_iff in Hp as [Hb Hz].
  apply andb_true_iff in Hb as [Hb H0]. apply andb_true_iff in Hb as [H37 H95].
  apply negb_true_iff, Z.eqb_neq in H0, H37, H95.
  destruct (Z.ltb_spec (byte_of b) 192) as [L | L].
  - rewrite !sqlite3Utf8Read_low in * by exact L. cbn [fst snd] in *.
    apply Z.eqb_neq in H0. rewrite H0. constructor; [| now apply IH].
    unfold matchAll, matchOne. lia.
  - destruct (sqlite3Utf8Read_lead b z L) as (Hc & [pre Hpre] & _).
    replace (fst (sqlite3Utf8Read (String b z)) =? 0) with false
      by (symmetry; apply Z.eqb_neq; lia).
    constructor; [unfold matchAll, matchOne; lia |].
    apply IH. rewrite Hpre, plain_app in Hz. now apply andb_true_iff in Hz.
Qed.

Lemma text_chars_pattern (q : string) :
  plain q = true ->
  text_chars ("%" ++ q ++ "%") = (matchAll :: text_chars q ++ [matchAll])%list.
Proof.
  intros Hq. change ("%" ++ q ++ "%") with (String "%" (q ++ "%")).
  rewrite text_chars_step, sqlite3Utf8Read_low by (cbn; lia).
  cbn [fst snd]. change (byte_of "%") with 37. simpl (37 =? 0).
  cbv iota. now rewrite text_chars_percent.
Qed.

(** ** The matcher on a pattern without wildcard *)

(** Case analysis on the comparisons of a boolean expression. *)
Ltac split_tests :=
  repeat match goal with
         | |- context [?a <=? ?b] => destruct (Z.leb_spec a b); cbn [andb orb]
         end;
  repeat match goal with
         | |- context [?a <? ?b] => destruct (Z.ltb_spec a b); cbn [andb orb]
         end;
  repeat match goal with
         | |- context [?a =? ?b] => destruct (Z.eqb_spec a b); cbn [andb orb]
         end;
  first [reflexivity | exfalso; lia].

Lemma found_same_letter (c c2 : Z) : found c c2 = same_letter c c2.
Proof.
  unfold found, same_letter, sqlite3Toupper, sqlite3Tolower, lower_ascii.
  split_tests.
Qed.

Lemma agrees_same_letter (c c2 : Z) :
  c <> matchOne -> agrees c c2 = same_letter c c2.
Proof.
  unfold agrees, same_letter, sqlite3Tolower, lower_ascii, matchOne. intros H.
  split_tests.
Qed.

(** After the characters of a filter without wildcard, [%] accepts what is
    left of the text: the pattern asks for a prefix. *)
Lemma patternCompare_prefix (p : list Z) :
  Forall (fun c => c <> matchAll /\ c <> matchOne) p ->
  forall s, patternCompare (p ++ [matchAll])%list false s
            = if prefix_ci p s then SQLITE_MATCH else SQLITE_NOMATCH.
Proof.
  induction 1 as [| c p [Hc1 Hc2] _ IH]; intros s.
  - reflexivity.
  - cbn [app patternCompare prefix_ci].
    apply Z.eqb_neq in Hc1. rewrite Hc1.
    destruct s as [| c2 s]; [reflexivity |].
    rewrite agrees_same_letter by exact Hc2.
    destruct (same_letter c c2); [apply IH | reflexivity].
Qed.

(** Between two [%] the pattern asks for the filter somewhere in the
    text. *)
Lemma patternCompare_contains (p s : list Z) :
  Forall (fun c => c <> matchAll /\ c <> matchOne) p ->
  patternCompare (matchAll :: p ++ [matchAll])%list false s
  = if contains_ci p s then SQLITE_MATCH else SQLITE_NOWILDCARDMATCH.
Proof.
  intros Hp. cbn [patternCompare]. rewrite Z.eqb_refl.
  destruct Hp as [| c p [Hc1 Hc2] Hp].
  - cbn. now destruct s.
  - cbn [app patternCompare]. apply Z.eqb_neq in Hc1, Hc2. rewrite Hc1, Hc2.
    induction s as [| c2 s IH]; [reflexivity |].
    rewrite found_same_letter, (patternCompare_prefix p Hp).
    cbn [contains_ci prefix_ci].
    destruct (same_letter c c2); cbn [andb].
    + destruct (prefix_ci p s); [reflexivity | exact IH].
    + exact IH.
Qed.

Lemma like_contains (q s : string) :
  plain q = true ->
  like ("%" ++ q ++ "%") s = contains_ci (text_chars q) (text_chars s).
Proof.
  intros Hq. unfold like.
  rewrite (text_chars_pattern q Hq).
  rewrite (patternCompare_contains _ _ (text_chars_plain q Hq)).
  now destruct (contains_ci _ _).
Qed.
Lemma filter_unique_key (l : list plex_users_row) :
  NoDup (map pu_id l) ->
  forall x, In x l -> filter (fun y => pu_id y =? pu_id x) l = [x].
Proof.
  induction l as [| y l IH]; intros Hnd x Hin; [contradiction |].
  simpl in Hnd. inversion Hnd as [| ? ? Hny Hnd']; subst. simpl.
  destruct Hin as [-> | Hin].
  - rewrite Z.eqb_refl. f_equal.
    clear IH Hnd Hnd'. induction l as [| z l IHl]; [reflexivity |]. simpl.
    destruct (Z.eqb_spec (pu_id z) (pu_id x)) as [E | _].
    + exfalso. apply Hny. simpl. now left.
    + apply IHl. intros H. apply Hny. simpl. now right.
  - destruct (Z.eqb_spec (pu_id y) (pu_id x)) as [E | _]; [| now apply IH].
    exfalso. apply Hny. rewrite E. now apply in_map.
Qed.

Lemma flat_map_singletons {A B : Type} (f : A -> list B) (g : A -> B) (l : list A) :
  (forall x, In x l -> f x = [g x]) -> flat_map f l = map g l.
Proof.
  induction l as [| x l IH]; intros H; simpl; [reflexivity |].
  rewrite (H x) by now left. simpl. f_equal. apply IH. intros y Hy. apply H. now right.
Qed.

(** Under the primary key the join of the view with [plex_users] pairs
    every user with its own view row, in table order. *)
Lemma summary_join_users (db : DB) :
  NoDup (map pu_id (plex_users db)) ->
  summary_join db = map (fun pu => (last_ip_row db pu, pu)) (plex_users db).
Proof.
  intros Hnd. unfold summary_join, users_last_ip.
  rewrite flat_map_concat_map, map_map, <- flat_map_concat_map.
  apply flat_map_singletons. intros pu Hin. simpl.
  now rewrite (filter_unique_key _ Hnd pu Hin).
Qed.

Lemma username_asc_total x y : username_asc x y = true \/ username_asc y x = true.
Proof. unfold username_asc. apply text_le_total. Qed.

Lemma filter_map_comm {A B : Type} (f : A -> B) (p : B -> bool) (l : list A) :
  filter p (map f l) = map f (filter (fun a => p (f a)) l).
Proof.
  induction l as [| a l IH]; simpl; [reflexivity |].
  rewrite IH. now destruct (p (f a)).
Qed.

Lemma where_rows_total {A : Type} (g : A -> bool) (cond : A -> string + bool)
      (l : list A) :
  (forall x, In x l -> cond x = inr (g x)) -> where_rows cond l = inr (filter g l).
Proof.
  induction l as [| x l IH]; intros H; [reflexivity |].
  cbn [where_rows filter]. rewrite (H x) by now left.
  rewrite IH by (intros y Hy; apply H; now right). reflexivity.
Qed.

Lemma where_rows_error {A : Type} (e : string) (cond : A -> string + bool)
      (x : A) (l : list A) :
  cond x = inl e -> where_rows cond (x :: l) = inl e.
Proof. intros H. cbn [where_rows]. now rewrite H. Qed.

Lemma pattern_length (q : string) :
  Z.of_nat (String.length ("%" ++ q ++ "%")) = Z.of_nat (String.length q) + 2.
Proof.
  cbn [append String.length]. rewrite length_app_string. cbn [String.length]. lia.
Qed.

(** Within the limit of [likeFunc] the WHERE clause is the disjunction of
    the three LIKE tests. *)
Lemma summary_where_like (q : string) (j : users_last_ip_row * plex_users_row) :
  Z.of_nat (String.length q) + 2 <= SQLITE_MAX_LIKE_PATTERN_LENGTH ->
  summary_where q j
  = inr (like ("%" ++ q ++ "%") (pu_username (snd j))
         || like ("%" ++ q ++ "%") (ifnull (uli_last_ip (fst j)))
         || like ("%" ++ q ++ "%") (ifnull (pu_friendly_name (snd j)))).
Proof.
  intros H. unfold summary_where, likeFunc. rewrite pattern_length.
  replace (SQLITE_MAX_LIKE_PATTERN_LENGTH <? Z.of_nat (String.length q) + 2)
    with false by (symmetry; apply Z.ltb_ge; exact H).
  destruct (like _ (pu_username _)); [reflexivity |].
  now destruct (like _ (ifnull (uli_last_ip _))).
Qed.

Lemma summary_where_too_long (q : string) (j : users_last_ip_row * plex_users_row) :
  SQLITE_MAX_LIKE_PATTERN_LENGTH < Z.of_nat (String.length q) + 2 ->
  summary_where q j = inl "LIKE or GLOB pattern too complex".
Proof.
  intros H. unfold summary_where, likeFunc. rewrite pattern_length.
  now replace (SQLITE_MAX_LIKE_PATTERN_LENGTH <? Z.of_nat (String.length q) + 2)
    with true by (symmetry; apply Z.ltb_lt; exact H).
Qed.

Lemma summary_where_contains (q : string) (j : users_last_ip_row * plex_users_row) :
  Z.of_nat (String.length q) + 2 <= SQLITE_MAX_LIKE_PATTERN_LENGTH ->
  plain q = true ->
  summary_where q j = inr (row_contains q (summary_select j)).
Proof.
  intros Hl Hq. rewrite (summary_where_like q j Hl).
  unfold row_contains; simpl. now rewrite !(like_contains q _ Hq).
Qed.

Lemma replicate_list (n : nat) (c : ascii) :
  list_ascii_of_string (replicate n c) = repeat c n.
Proof. induction n as [| n IH]; simpl; [reflexivity | now rewrite IH]. Qed.

Lemma length_replicate (n : nat) (c : ascii) : String.length (replicate n c) = n.
Proof. induction n as [| n IH]; simpl; [reflexivity | now rewrite IH]. Qed.

Lemma rev_repeat_same {A : Type} (x : A) (n : nat) : rev (repeat x n) = repeat x n.
Proof.
  induction n as [| n IH]; [reflexivity |].
  simpl. rewrite IH. symmetry. apply repeat_cons.
Qed.

Lemma reverse_replicate (n : nat) (c : ascii) : reverse (replicate n c) = replicate n c.
Proof.
  unfold reverse. rewrite replicate_list, rev_repeat_same, <- replicate_list.
  apply string_of_list_ascii_of_string.
Qed.

(** A text of letters is its own trimmed form. *)
Lemma TrimSpace_replicate (n : nat) :
  TrimSpace (replicate (S n) "a") = replicate (S n) "a".
Proof.
  unfold TrimSpace.
  assert (forall z, trim_left (String.length (String "a" z)) unicode_spaces (String "a" z)
                    = String "a" z) as H1 by (intros z; reflexivity).
  assert (forall z, trim_left (String.length (String "a" z)) (map reverse unicode_spaces)
                              (String "a" z)
                    = String "a" z) as H2 by (intros z; reflexivity).
  change (replicate (S n) "a") with (String "a" (replicate n "a")).
  rewrite H1. change (String "a" (replicate n "a")) with (replicate (S n) "a").
  rewrite reverse_replicate.
  change (replicate (S n) "a") with (String "a" (replicate n "a")).
  rewrite H2. change (String "a" (replicate n "a")) with (replicate (S n) "a").
  apply reverse_replicate.
Qed.

(** A filter whose pattern [likeFunc] refuses makes the query fail as soon
    as there is a row to test. *)
Lemma handleSummary_too_long (w : World) (q : option string) (db : DB) :
  query_err w = None ->
  SQLITE_MAX_LIKE_PATTERN_LENGTH
  < Z.of_nat (String.length (TrimSpace (match q with Some v => v | None => "" end))) + 2 ->
  summary_join db <> [] ->
  handleSummary w q db
  = PageError (sql_logic_error "LIKE or GLOB pattern too complex") 500.
Proof.
  intros Hq Hlen Hne. unfold handleSummary.
  set (f := TrimSpace _) in *. rewrite Hq.
  assert (f <> "") as Hf.
  { intros E. rewrite E in Hlen. unfold SQLITE_MAX_LIKE_PATTERN_LENGTH in Hlen.
    simpl in Hlen. lia. }
  apply String.eqb_neq in Hf. rewrite Hf. cbn [negb].
  destruct (summary_join db) as [| j l]; [congruence |].
  now rewrite (where_rows_error "LIKE or GLOB pattern too complex")
    by (now apply summary_where_too_long).
Qed.

(** C7 as stated fails, in five ways. The filter is trimmed and then put
    between two [%] as a LIKE pattern, unescaped. So (1) [_] and [%] in the
    filter are wildcards: "a_i" keeps the row of alice, none of whose
    columns contains "a_i"; (2) the non-empty filter " " keeps it too,
    though no column holds a blank; (3) LIKE folds the case of the letters
    A-Z only: the filter of the one letter e-acute does not keep the user
    whose name begins with E-acute; (4) the pattern ends at its first NUL
    byte: the filter of "e" and a NUL byte keeps alice, none of whose
    columns holds a NUL byte; (5) a pattern of more than 50000 bytes is an
    error of the statement: a filter of 49999 letters is answered with
    status 500, not with the empty list. *)
Lemma filter_is_like_pattern :
  let db := fst (ingestItems (calm 0) [item 1 "alice" (Some "10.0.0.5") (Some 1000)]
                             empty_db) in
  let alice := {| Row_UserID := 1; Row_Username := "alice"; Row_FriendlyName := None;
                  Row_LastIP := Some "10.0.0.5";
                  Row_UpdatedAt := Some (formatRFC3339 1000) |} in
  let db2 := fst (ingestItems (calm 0) [item 2 (E_acute ++ "lodie") None (Some 1000)]
                              empty_db) in
  (handleSummary (calm 0) (Some "a_i") db = Render [alice]
   /\ row_contains "a_i" alice = false)
  /\ (handleSummary (calm 0) (Some " ") db = Render [alice]
      /\ row_contains " " alice = false)
  /\ handleSummary (calm 0) (Some e_acute) db2 = Render []
  /\ (handleSummary (calm 0) (Some ("e" ++ nul)) db = Render [alice]
      /\ index 0 nul "alice" = None /\ index 0 nul "10.0.0.5" = None)
  /\ handleSummary (calm 0) (Some (replicate (N.to_nat 49999) "a")) db
     = PageError (sql_logic_error "LIKE or GLOB pattern too complex") 500.
Proof.
  intros db alice db2.
  split; [vm_compute; split; reflexivity |].
  split; [vm_compute; split; reflexivity |].
  split; [vm_compute; reflexivity |].
  split; [vm_compute; repeat split |].
  apply handleSummary_too_long; [reflexivity | | vm_compute; discriminate].
  replace (N.to_nat 49999) with (S (N.to_nat 49998)) by lia.
  rewrite TrimSpace_replicate, length_replicate.
  unfold SQLITE_MAX_LIKE_PATTERN_LENGTH. lia.
Qed.

(** C7, amended. For every store that satisfies its key constraints and
    every filter, with [f] the filter trimmed of surrounding white space.
    When the pattern [%f%] is within the 50000 bytes that SQLite accepts
    for a LIKE pattern: the summary is a list of rows ordered by username
    ascending (bytewise); when [f] is empty (the parameter is absent, empty
    or blank) it has exactly one row per user; when [f] is not empty and
    holds no [%], no [_] and no NUL byte, it has exactly the rows whose
    username, last_ip or friendly_name (NULL read as the empty text)
    contains [f] as a run of characters, up to the case of the letters A-Z,
    a text being read as SQLite reads it (as UTF-8 and up to its first NUL
    byte), and it is the empty list, not an error, when no row does. When
    the pattern is longer and the registry is not empty, the answer is an
    error with status 500. *)
Theorem summary_filter (w : World) (q : option string) (db : DB) :
  query_err w = None -> constraints_hold db ->
  let f := TrimSpace (match q with Some v => v | None => "" end) in
  (Z.of_nat (String.length f) + 2 <= SQLITE_MAX_LIKE_PATTERN_LENGTH ->
   exists rows,
     handleSummary w q db = Render rows
     /\ Sorted (fun a b => text_le (Row_Username a) (Row_Username b) = true) rows
     /\ (f = "" -> Permutation rows (map (summary_row db) (plex_users db)))
     /\ (f <> "" -> plain f = true ->
         Permutation rows
                     (filter (row_contains f) (map (summary_row db) (plex_users db)))
         /\ ((forall pu, In pu (plex_users db) ->
                         row_contains f (summary_row db pu) = false) ->
             rows = [])))
  /\ (SQLITE_MAX_LIKE_PATTERN_LENGTH < Z.of_nat (String.length f) + 2 ->
      plex_users db <> [] ->
      exists e, handleSummary w q db = PageError e 500).
Proof.
  intros Hq [Hnd _] f. split.
  - intros Hlen. unfold handleSummary. fold f. rewrite Hq.
    rewrite (summary_join_users db Hnd).
    rewrite (where_rows_total
               (fun j => like ("%" ++ f ++ "%") (pu_username (snd j))
                         || like ("%" ++ f ++ "%") (ifnull (uli_last_ip (fst j)))
                         || like ("%" ++ f ++ "%") (ifnull (pu_friendly_name (snd j)))))
      by (intros j _; now apply summary_where_like).
    destruct (negb (f =? "")%string) eqn:Ef.
    + eexists. split; [reflexivity |]. split; [| split].
      * apply Sorted_map. apply (order_by_sorted _ username_asc username_asc_total).
      * intros E. rewrite E in Ef. discriminate Ef.
      * intros _ Hw.
        match goal with
        | |- Permutation ?l _ /\ _ =>
            assert (Permutation l (filter (row_contains f)
                                          (map (summary_row db) (plex_users db)))) as HP
        end.
        { rewrite order_by_perm.
          rewrite (filter_ext _ (fun j => row_contains f (summary_select j))).
          - rewrite <- filter_map_comm. unfold summary_row. now rewrite map_map.
          - intros j. unfold row_contains; simpl. now rewrite !(like_contains f _ Hw). }
        split; [exact HP |].
        intros Hnone. apply Permutation_nil. symmetry.
        rewrite HP. clear HP. revert Hnone.
        generalize (plex_users db) as l.
        induction l as [| pu l IH]; intros Hnone; [reflexivity |].
        simpl. rewrite (Hnone pu) by now left.
        apply IH. intros pu' Hin. apply Hnone. now right.
    + eexists. split; [reflexivity |]. split; [| split].
      * apply Sorted_map. apply (order_by_sorted _ username_asc username_asc_total).
      * intros _. rewrite order_by_perm. unfold summary_row. now rewrite map_map.
      * intros Hf. apply String.eqb_neq in Hf. rewrite Hf in Ef. discriminate Ef.
  - intros Hlen Hne. eexists.
    apply (handleSummary_too_long w q db Hq Hlen).
    rewrite (summary_join_users db Hnd). now destruct (plex_users db).
Qed.

Lemma summary_filter_witness :
  let db := ingest_calls [(calm 0, [item 1 "alice" (Some "10.0.0.5") (Some 1000);
                                    item 2 "Bob" None (Some 2000)])] empty_db in
  exists rows,
    handleSummary (calm 0) (Some " ali") db = Render rows
    /\ Sorted (fun a b => text_le (Row_Username a) (Row_Username b) = true) rows
    /\ ("ali" = "" -> Permutation rows (map (summary_row db) (plex_users db)))
    /\ ("ali" <> "" -> plain "ali" = true ->
        Permutation rows
                    (filter (row_contains "ali") (map (summary_row db) (plex_users db)))
        /\ ((forall pu, In pu (plex_users db) ->
                        row_contains "ali" (summary_row db pu) = false) ->
            rows = [])).
Proof.
  intros db.
  apply (proj1 (summary_filter (calm 0) (Some " ali") db eq_refl
                               ltac:(split; vm_compute; repeat constructor;
                                     simpl; intuition discriminate))).
  vm_compute. discriminate.
Defined.

(** Scenario C of the specification: the filter "ALI" keeps alice, and a
    filter that matches no row gives the empty list. *)
Example summary_scenario_C :
  let db := ingest_calls [(calm 0, [item 1 "alice" (Some "10.0.0.5") (Some 1000);
                                    item 2 "Bob" None (Some 2000)])] empty_db in
  handleSummary (calm 0) (Some "ALI") db
  = Render [ {| Row_UserID := 1; Row_Username := "alice"; Row_FriendlyName := None;
                Row_LastIP := Some "10.0.0.5";
                Row_UpdatedAt := Some (formatRFC3339 1000) |} ]
  /\ handleSummary (calm 0) (Some "carol") db = Render [].
Proof. vm_compute. split; reflexivity. Qed.

(** ** The monotonic merge of [last_seen] *)

Lemma apply_stamps_app (a b : list (TautulliItem * string)) (db : DB) :
  apply_stamps (a ++ b) db = apply_stamps b (apply_stamps a db).
Proof. unfold apply_stamps; simpl. now rewrite !fold_left_app. Qed.

(** Calls that all commit apply their stamped items one after the other. *)
Lemma ingest_calls_ok (calls : list (World * list TautulliItem)) :
  Forall (fun c => store_ok (fst c)) calls ->
  forall db, ingest_calls calls db = apply_stamps (all_stamps calls) db.
Proof.
  induction 1 as [| c calls Hc _ IH]; intros db.
  - now destruct db.
  - rewrite ingest_calls_cons, (ingestItems_ok _ _ _ Hc). simpl fst.
    rewrite IH. unfold all_stamps; simpl. now rewrite apply_stamps_app.
Qed.

(** The [last_seen] texts that the items of one batch give to user [uid]. *)
Lemma stamps_last_seen (uid : Z) (w : World) (arr : list TautulliItem) :
  Forall (fun it => UserID it = uid -> in_rfc3339_range it) arr ->
  forall i,
    map pu_last_seen
        (filter (fun e => pu_id e =? uid) (map excluded_user (stamps w i arr)))
    = map formatRFC3339
          (flat_map (fun it => if UserID it =? uid
                               then match Date it with Some d => [d] | None => [] end
                               else [])
                    arr).
Proof.
  induction 1 as [| it arr Hit _ IH]; intros i; [reflexivity |].
  simpl. destruct (Z.eqb_spec (UserID it) uid) as [E | _]; [| apply IH].
  destruct (Hit E) as (d & Hd & Hr). rewrite Hd. simpl. rewrite IH. f_equal.
  unfold effective_ts. rewrite Hd.
  now replace (0 <? d) with true by (symmetry; apply Z.ltb_lt; lia).
Qed.

Lemma calls_last_seen (uid : Z) (calls : list (World * list TautulliItem)) :
  items_for uid in_rfc3339_range calls ->
  map pu_last_seen
      (filter (fun e => pu_id e =? uid) (map excluded_user (all_stamps calls)))
  = map formatRFC3339 (dates_for uid calls).
Proof.
  unfold items_for, all_stamps, dates_for.
  induction 1 as [| c calls Hc _ IH]; [reflexivity |].
  simpl. rewrite !map_app, filter_app, !map_app, IH. f_equal.
  now apply stamps_last_seen.
Qed.

Lemma dates_in_range (uid : Z) (calls : list (World * list TautulliItem)) :
  items_for uid in_rfc3339_range calls ->
  Forall (fun d => 0 <= d <= maxRFC3339) (dates_for uid calls).
Proof.
  unfold items_for, dates_for. intros H.
  apply Forall_flat_map. eapply Forall_impl; [| exact H]. intros c Hc.
  apply Forall_flat_map. eapply Forall_impl; [| exact Hc]. intros it Hit.
  destruct (Z.eqb_spec (UserID it) uid) as [E | _]; [| constructor].
  destruct (Hit E) as (d & Hd & Hr). rewrite Hd. repeat constructor; lia.
Qed.

Lemma max_list_perm (l l' : list Z) : Permutation l l' -> max_list l = max_list l'.
Proof.
  unfold max_list. induction 1; simpl; lia.
Qed.

Lemma dates_for_perm (uid : Z) (calls calls' : list (World * list TautulliItem)) :
  Permutation calls calls' -> Permutation (dates_for uid calls) (dates_for uid calls').
Proof. intros H. unfold dates_for. now apply Permutation_flat_map. Qed.

(** After calls that all commit, a user who was not registered before has
    as [last_seen] the text of the greatest date supplied for it. *)
Lemma last_seen_after_calls (uid : Z) (calls : list (World * list TautulliItem)) (db : DB) :
  Forall (fun c => store_ok (fst c)) calls ->
  items_for uid in_rfc3339_range calls ->
  dates_for uid calls <> [] ->
  find_user uid db = None ->
  exists r, find_user uid (ingest_calls calls db) = Some r
            /\ pu_last_seen r = formatRFC3339 (max_list (dates_for uid calls)).
Proof.
  intros Hok Hit Hne Hdb.
  rewrite (ingest_calls_ok calls Hok), find_user_apply, Hdb, fold_merged_none.
  pose proof (calls_last_seen uid calls Hit) as HL.
  pose proof (dates_in_range uid calls Hit) as HR.
  destruct (dates_for uid calls) as [| d ds]; [congruence |].
  destruct (filter _ _) as [| e es]; [discriminate |].
  eexists. split; [reflexivity |].
  rewrite fold_update_user. simpl in *. inversion HL as [[He Hes]].
  inversion HR; subst. rewrite He, Hes. now apply fold_greater_format.
Qed.

(** C1 at its failing input. User 1 is ingested with date 253402300799, the
    last second of the year 9999, and then with date 253402300800, the
    first second of 10000. The merge keeps the greater of the two RFC 3339
    texts, and the text with the five-digit year sorts before the other:
    the stored [last_seen] stays the text of 253402300799, in either order
    of the two calls, while the greatest date supplied is 253402300800. *)
Lemma last_seen_beyond_9999 :
  let calls := [(calm 0, [item 1 "alice" None (Some 253402300799)]);
                (calm 0, [item 1 "alice" None (Some 253402300800)])] in
  option_map pu_last_seen (find_user 1 (ingest_calls calls empty_db))
  = Some "9999-12-31T23:59:59Z"
  /\ option_map pu_last_seen (find_user 1 (ingest_calls (rev calls) empty_db))
     = Some "9999-12-31T23:59:59Z"
  /\ max_list (dates_for 1 calls) = 253402300800
  /\ formatRFC3339 253402300799 = "9999-12-31T23:59:59Z"
  /\ formatRFC3339 253402300800 = "10000-01-01T00:00:00Z".
Proof. vm_compute. repeat split. Qed.

(** X18. The monotonic merge law within the range of RFC 3339. For every
    sequence of ingest calls that all commit, and a user id that is not
    registered before them and is referenced by at least one item: if every
    item that references the user carries an explicit positive date not
    after 9999-12-31T23:59:59Z, then after all calls the user's
    [last_seen] is the text of the greatest date supplied for the user
    across the calls, and every permutation of the calls ends with the same
    [last_seen]. *)
Theorem last_seen_is_max
        (uid : Z) (calls calls' : list (World * list TautulliItem)) (db : DB) :
  Forall (fun c => store_ok (fst c)) calls ->
  items_for uid in_rfc3339_range calls ->
  dates_for uid calls <> [] ->
  find_user uid db = None ->
  Permutation calls calls' ->
  exists r r',
    find_user uid (ingest_calls calls db) = Some r
    /\ pu_last_seen r = formatRFC3339 (max_list (dates_for uid calls))
    /\ find_user uid (ingest_calls calls' db) = Some r'
    /\ pu_last_seen r' = pu_last_seen r.
Proof.
  intros Hok Hit Hne Hdb Hp.
  destruct (last_seen_after_calls uid calls db Hok Hit Hne Hdb) as (r & Hr & Hl).
  destruct (last_seen_after_calls uid calls' db) as (r' & Hr' & Hl'); try assumption.
  - eapply Permutation_Forall; eassumption.
  - unfold items_for in *. eapply Permutation_Forall; eassumption.
  - intros E. apply Hne. apply (dates_for_perm uid) in Hp. rewrite E in Hp.
    now apply Permutation_nil, Permutation_sym.
  - exists r, r'. repeat split; try assumption.
    rewrite Hl, Hl'. f_equal. symmetry. apply max_list_perm. now apply dates_for_perm.
Qed.

Lemma last_seen_is_max_witness :
  let calls := [(calm 0, [item 1 "alice" (Some "10.0.0.5") (Some 500); item 2 "bob" None None]);
                (calm 0, [item 1 "alice" None (Some 1000)])] in
  exists r r',
    find_user 1 (ingest_calls calls empty_db) = Some r
    /\ pu_last_seen r = formatRFC3339 (max_list (dates_for 1 calls))
    /\ find_user 1 (ingest_calls (rev calls) empty_db) = Some r'
    /\ pu_last_seen r' = pu_last_seen r.
Proof.
  intros calls.
  apply (last_seen_is_max 1 calls (rev calls) empty_db).
  - repeat constructor.
  - unfold items_for. repeat (apply Forall_cons || apply Forall_nil);
      simpl; intros H; try discriminate H;
        eexists; (split; [reflexivity | unfold maxRFC3339; lia]).
  - discriminate.
  - reflexivity.
  - apply Permutation_rev.
Defined.

(** * Further properties of the code *)

(** ** The key constraints *)

Lemma constraints_apply obs db :
  constraints_hold db -> constraints_hold (apply_stamps obs db).
Proof.
  intros [Hu Hi]. unfold constraints_hold, apply_stamps; simpl.
  rewrite fold_step_users, fold_step_history. split.
  - revert Hu. generalize (plex_users db) as t.
    induction (map excluded_user obs) as [| e es IH]; intros t Ht; simpl; [exact Ht |].
    apply IH.
    apply (NoDup_upsert _ _ pu_id Z.eqb update_user upsert_user);
      auto using Z.eqb_eq.
  - revert Hi. generalize (user_ip_history db) as t.
    induction (flat_map excluded_ips obs) as [| e es IH]; intros t Ht; simpl;
      [exact Ht |].
    apply IH.
    apply (NoDup_upsert _ _ uq_user_ip uq_eqb update_ip upsert_ip);
      auto using uq_eqb_eq.
Qed.

(** X1. The upserts never break the constraints of the schema: starting
    from a store in which no two users share an id and no two history rows
    share (user_id, ip), every call of [ingestItems], committed or not, and
    every sequence of calls ends in such a store. *)
Theorem constraints_kept :
  constraints_hold empty_db
  /\ (forall w arr db,
         constraints_hold db -> constraints_hold (fst (ingestItems w arr db)))
  /\ (forall calls db,
         constraints_hold db -> constraints_hold (ingest_calls calls db)).
Proof.
  assert (forall w arr db,
             constraints_hold db -> constraints_hold (fst (ingestItems w arr db)))
    as Hstep.
  { intros w arr db H.
    destruct (ingestItems_cases w arr db) as [[e E] | E]; rewrite E; simpl;
      [exact H | now apply constraints_apply]. }
  split; [split; constructor |]. split; [exact Hstep |].
  intros calls. induction calls as [| c calls IH]; intros db H; [exact H |].
  rewrite ingest_calls_cons. apply IH, Hstep, H.
Qed.

Lemma constraints_kept_witness :
  constraints_hold
    (ingest_calls [(calm 0, [item 1 "alice" (Some "10.0.0.5") (Some 1000);
                             item 1 "alice" (Some "10.0.0.5") (Some 500)]);
                   (failing_at 0, [item 2 "bob" None None])]
                  empty_db).
Proof.
  apply (proj2 (proj2 constraints_kept)). apply (proj1 constraints_kept).
Defined.

(** ** The push endpoint: what it changes and whom it lets in *)

(** X2. [handleIngest] changes the store on one path only. Whatever the
    request, an error answer (405, 401, 400 or 500) leaves the store as it
    was; and a JSON answer is either the count 0 with the store as it was,
    or the count of a non-empty batch that [ingestItems] committed, with
    the store that call left. *)
Theorem handleIngest_store (w : World) (r : Request) (db : DB) :
  (forall msg code,
      snd (handleIngest w r db) = HttpError msg code ->
      fst (handleIngest w r db) = db)
  /\ (forall body,
         snd (handleIngest w r db) = Json body ->
         (fst (handleIngest w r db) = db /\ body = ingested_body 0)
         \/ (exists arr,
                arr <> []
                /\ ingestItems w arr db = (fst (handleIngest w r db), None)
                /\ body = ingested_body (Z.of_nat (List.length arr)))).
Proof.
  unfold handleIngest.
  destruct (negb (Method r =? "POST")%string);
    [split; simpl; [reflexivity | discriminate] |].
  destruct (negb (ingest_token w =? "")%string
            && negb (TrimPrefix (Authorization r) "Bearer " =? ingest_token w)%string);
    [split; simpl; [reflexivity | discriminate] |].
  destruct (Body r) as [e | a o]; [split; simpl; [reflexivity | discriminate] |].
  destruct (decoded a o) as [[| it arr] |];
    [| | split; simpl; [reflexivity | discriminate]].
  - split; simpl; [reflexivity |]. intros body H. inversion H. now left.
  - simpl List.length. simpl Nat.eqb. cbv iota.
    destruct (ingestItems w (it :: arr) db) as [db' [e |]] eqn:E; simpl; split;
      try discriminate.
    + intros _ _ _. now apply (ingestItems_error_unchanged _ _ _ _ _ E).
    + intros body H. inversion H. right. exists (it :: arr).
      repeat split; [discriminate | now rewrite E].
Qed.

Lemma handleIngest_store_witness :
  fst (handleIngest (failing_at 1)
                    (POST (failing_at 1)
                          (ReadOk (Some [item 1 "alice" None None; item 2 "bob" None None])
                                  None))
                    empty_db)
  = empty_db.
Proof.
  apply (proj1 (handleIngest_store
                  (failing_at 1)
                  (POST (failing_at 1)
                        (ReadOk (Some [item 1 "alice" None None; item 2 "bob" None None])
                                None))
                  empty_db)
               "user upsert: disk I/O error" 500).
  reflexivity.
Defined.

Lemma cut_prefix_app (p s : string) : cut_prefix p (p ++ s) = Some s.
Proof.
  induction p as [| c p IH]; simpl; [now destruct s |].
  now rewrite Ascii.eqb_refl.
Qed.

(** X3. The token check of [handleIngest]. With a configured token, a POST
    request is answered "unauthorized" (401) exactly when its Authorization
    header, with one leading "Bearer " removed, differs from the token; so
    the header "Bearer <token>" always passes. Without a configured token no
    POST request is answered 401. *)
Theorem token_check (w : World) (r : Request) (db : DB) :
  Method r = "POST" ->
  (ingest_token w <> "" ->
   (handleIngest w r db = (db, HttpError "unauthorized" 401)
    <-> TrimPrefix (Authorization r) "Bearer " <> ingest_token w))
  /\ (Authorization r = "Bearer " ++ ingest_token w \/ ingest_token w = "" ->
      snd (handleIngest w r db) <> HttpError "unauthorized" 401).
Proof.
  intros Hm.
  assert (TrimPrefix (Authorization r) "Bearer " = ingest_token w \/ ingest_token w = "" ->
          snd (handleIngest w r db) <> HttpError "unauthorized" 401) as Hpass.
  { intros Hok. unfold handleIngest. rewrite Hm.
    rewrite (authorized_passes w r) by tauto. simpl.
    destruct (Body r) as [e | a o]; [simpl; intros H; inversion H |].
    destruct (decoded a o) as [[| it arr] |]; simpl; try discriminate.
    destruct (ingestItems w (it :: arr) db) as [db' [e |]]; simpl;
      [intros H; inversion H | discriminate]. }
  split.
  - intros Htok. split.
    + intros H Heq. apply (Hpass (or_introl Heq)). now rewrite H.
    + intros Hne. unfold handleIngest. rewrite Hm. simpl.
      apply String.eqb_neq in Htok. apply String.eqb_neq in Hne.
      now rewrite Htok, Hne.
  - intros [Ha | He]; apply Hpass; [left | now right].
    rewrite Ha. unfold TrimPrefix. now rewrite cut_prefix_app.
Qed.

Lemma token_check_witness :
  handleIngest {| now := fun _ => 0; ingest_token := "s3cret";
                  begin_err := None; user_upsert_err := fun _ => None;
                  ip_upsert_err := fun _ => None; commit_err := None;
                  query_row_fails := false; query_err := None |}
               {| Method := "POST"; Authorization := "Bearer wrong";
                  Body := ReadOk (Some [item 1 "alice" None None]) None |}
               empty_db
  = (empty_db, HttpError "unauthorized" 401).
Proof.
  apply (proj1 (token_check
                  {| now := fun _ => 0; ingest_token := "s3cret";
                     begin_err := None; user_upsert_err := fun _ => None;
                     ip_upsert_err := fun _ => None; commit_err := None;
                     query_row_fails := false; query_err := None |}
                  {| Method := "POST"; Authorization := "Bearer wrong";
                     Body := ReadOk (Some [item 1 "alice" None None]) None |}
                  empty_db eq_refl));
    simpl; discriminate.
Defined.

(** ** What a committed batch leaves in the registry *)

Lemma stamps_filter (p : TautulliItem -> bool) (w : World) (arr : list TautulliItem) :
  forall i, map fst (filter (fun o => p (fst o)) (stamps w i arr)) = filter p arr.
Proof.
  induction arr as [| it arr IH]; intros i; simpl; [reflexivity |].
  destruct (p it); simpl; now rewrite IH.
Qed.

Lemma last_map {A B : Type} (f : A -> B) (l : list A) (d : A) :
  last (map f l) (f d) = f (last l d).
Proof.
  induction l as [| x l IH]; [reflexivity |].
  destruct l as [| y l]; [reflexivity |]. exact IH.
Qed.

Lemma excluded_users_for (uid : Z) (obs : list (TautulliItem * string)) :
  filter (fun e => pu_id e =? uid) (map excluded_user obs)
  = map excluded_user (filter (fun o => UserID (fst o) =? uid) obs).
Proof. apply filter_map_comm. Qed.

Lemma last_cons_default {A : Type} (x : A) (l : list A) (d : A) :
  last (x :: l) d = last l x.
Proof.
  destruct l as [| y l]; [reflexivity |].
  change (last (y :: l) d = last (y :: l) x). apply last_nonempty.
Qed.

(** The identity columns after the updates of a run that created the row
    or found it: those of the last excluded row. *)
Lemma fold_update_user_identity (e : plex_users_row) (es : list plex_users_row)
      (d : plex_users_row) :
  let x := fold_left update_user es e in
  let l := last (e :: es) d in
  pu_username x = pu_username l /\ pu_friendly_name x = pu_friendly_name l
  /\ pu_user_thumb x = pu_user_thumb l.
Proof.
  cbv zeta. rewrite fold_update_user, last_cons_default.
  cbn [pu_username pu_friendly_name pu_user_thumb]. auto.
Qed.

(** X4. Identity fields are last-write-wins. After a committed batch, a user
    that the batch references is registered with the username, friendly
    name and avatar of the last item of the batch that references it,
    whatever was stored before and whatever the dates. *)
Theorem identity_last_write_wins
        (w : World) (arr : list TautulliItem) (db : DB) (uid : Z) (d : TautulliItem) :
  snd (ingestItems w arr db) = None ->
  filter (fun it => UserID it =? uid) arr <> [] ->
  let it := last (filter (fun it => UserID it =? uid) arr) d in
  exists r,
    find_user uid (fst (ingestItems w arr db)) = Some r
    /\ pu_id r = uid
    /\ pu_username r = User it
    /\ pu_friendly_name r = FriendlyName it
    /\ pu_user_thumb r = UserThumb it.
Proof.
  intros Hok Hne it.
  destruct (ingestItems_cases w arr db) as [[e H] | H]; rewrite H in *;
    simpl in Hok; [discriminate |]. simpl fst.
  pose proof (find_user_apply uid (stamps w 0 arr) db) as Hfind.
  rewrite excluded_users_for in Hfind.
  pose proof (stamps_filter (fun it => UserID it =? uid) w arr 0) as Hf.
  set (os := filter (fun o => UserID (fst o) =? uid) (stamps w 0 arr)) in *.
  assert (forall o, In o os -> UserID (fst o) = uid) as Hid.
  { intros o Ho. apply filter_In in Ho as [_ Ho]. now apply Z.eqb_eq. }
  assert (forall x, pu_username (excluded_user x) = User (fst x)
                    /\ pu_friendly_name (excluded_user x) = FriendlyName (fst x)
                    /\ pu_user_thumb (excluded_user x) = UserThumb (fst x)) as Hx
      by (intros x; repeat split).
  assert (it = fst (last os (d, ""))) as Hit'
      by (subst it; rewrite <- Hf; apply (last_map fst os (d, ""))).
  destruct os as [| o os']; [simpl in Hf; congruence |].
  change (map excluded_user (o :: os'))
    with (excluded_user o :: map excluded_user os') in Hfind.
  destruct (find_user uid db) as [r0 |] eqn:E0.
  - rewrite fold_merged_some in Hfind. change (fold_left update_user (excluded_user o :: map excluded_user os') r0)
      with (fold_left update_user (map excluded_user os') (update_user r0 (excluded_user o))) in Hfind.
    eexists. split; [exact Hfind |].
    destruct (fold_update_user_identity (update_user r0 (excluded_user o))
                                        (map excluded_user os') (excluded_user (d, "")))
      as (H1 & H2 & H3).
    rewrite H1, H2, H3, key_fold_update by reflexivity.
    unfold find_user in E0. apply find_some in E0 as [_ E0]. apply Z.eqb_eq in E0.
    split; [exact E0 |].
    assert (last (update_user r0 (excluded_user o) :: map excluded_user os')
                 (excluded_user (d, ""))
            = match os' with
              | [] => update_user r0 (excluded_user o)
              | _ => excluded_user (last (o :: os') (d, ""))
              end) as Hlast.
    { destruct os' as [| o' os'']; [reflexivity |].
      rewrite last_cons_default.
      change (map excluded_user (o' :: os''))
        with (excluded_user o' :: map excluded_user os'').
      rewrite (last_nonempty _ _ _ (excluded_user (d, ""))).
      change (excluded_user o' :: map excluded_user os'')
        with (map excluded_user (o' :: os'')).
      rewrite last_map. reflexivity. }
    rewrite Hlast, Hit'. destruct os' as [| o' os'']; repeat split.
  - rewrite fold_merged_none in Hfind.
    eexists. split; [exact Hfind |].
    destruct (fold_update_user_identity (excluded_user o)
                                        (map excluded_user os') (excluded_user (d, "")))
      as (H1 & H2 & H3).
    rewrite H1, H2, H3, key_fold_update by reflexivity.
    change (excluded_user o :: map excluded_user os')
      with (map excluded_user (o :: os')).
    rewrite last_map, Hit'. repeat split. apply Hid. now left.
Qed.

Lemma identity_last_write_wins_witness :
  exists r,
    find_user 1 (fst (ingestItems (calm 0)
                                  [item 1 "alice" None (Some 1000); item 2 "bob" None None;
                                   item 1 "Alice B." None (Some 500)]
                                  empty_db)) = Some r
    /\ pu_id r = 1 /\ pu_username r = "Alice B."
    /\ pu_friendly_name r = None /\ pu_user_thumb r = None.
Proof.
  apply (identity_last_write_wins
           (calm 0)
           [item 1 "alice" None (Some 1000); item 2 "bob" None None;
            item 1 "Alice B." None (Some 500)]
           empty_db 1 (item 0 "" None None)).
  - reflexivity.
  - discriminate.
Defined.

Lemma fold_merged_is_some {A : Type} (update : A -> A -> A) es (o : option A) :
  fold_left (fun o e => Some match o with Some r => update r e | None => e end) es o
  <> None
  <-> (o <> None \/ es <> []).
Proof.
  destruct o as [r |].
  - rewrite fold_merged_some. split; [intros _; left |]; discriminate.
  - rewrite fold_merged_none. destruct es; split.
    + intros H; now elim H.
    + intros [H | H]; now elim H.
    + intros _. right. discriminate.
    + discriminate.
Qed.

Lemma filter_nonempty_exists {A : Type} (p : A -> bool) (l : list A) :
  filter p l <> [] <-> Exists (fun x => p x = true) l.
Proof.
  induction l as [| x l IH]; simpl.
  - split; [congruence | intros H; inversion H].
  - destruct (p x) eqn:E.
    + split; [intros _; now left | discriminate].
    + rewrite IH. split; [intros H; now right |].
      intros H. inversion H; [congruence | assumption].
Qed.

Lemma Exists_stamps (P : TautulliItem -> Prop) (w : World) (arr : list TautulliItem) :
  forall i, Exists (fun o => P (fst o)) (stamps w i arr) <-> Exists P arr.
Proof.
  induction arr as [| it arr IH]; intros i; simpl.
  - split; intros H; inversion H.
  - split; intros H; inversion H; subst;
      (now left) || (right; now apply (IH (S i))).
Qed.

(** X5. Insert and lookup. After a committed batch a user is registered
    exactly when it was registered before or an item of the batch
    references it, and a pair (user, address) has a history row exactly when
    it had one before or an item of the batch carries it with a non-empty
    address. Nothing is ever removed, and nothing else is added. *)
Theorem stored_after_commit
        (w : World) (arr : list TautulliItem) (db : DB) (uid : Z) (ip : string) :
  snd (ingestItems w arr db) = None ->
  (find_user uid (fst (ingestItems w arr db)) <> None
   <-> find_user uid db <> None \/ Exists (fun it => UserID it = uid) arr)
  /\ (find_ip uid ip (fst (ingestItems w arr db)) <> None
      <-> find_ip uid ip db <> None
          \/ Exists (fun it => UserID it = uid /\ address_of it = Some ip) arr).
Proof.
  intros Hok.
  destruct (ingestItems_cases w arr db) as [[e H] | H]; rewrite H in *;
    simpl in Hok; [discriminate |]. simpl fst. split.
  - rewrite find_user_apply, fold_merged_is_some, excluded_users_for.
    rewrite <- (Exists_stamps (fun it => UserID it = uid) w arr 0).
    apply or_iff_compat_l.
    split.
    + intros Hne.
      destruct (filter _ _) as [| o os] eqn:E; [now elim Hne |].
      assert (In o (filter (fun o => UserID (fst o) =? uid) (stamps w 0 arr))) as Hin
          by (rewrite E; now left).
      apply filter_In in Hin as [Hin Ho]. apply Exists_exists. exists o.
      split; [exact Hin | now apply Z.eqb_eq].
    + intros Hex Hnil. apply Exists_exists in Hex as (o & Hin & Ho).
      assert (In o (filter (fun o => UserID (fst o) =? uid) (stamps w 0 arr))) as Hf
          by (apply filter_In; split; [exact Hin | now apply Z.eqb_eq]).
      apply (f_equal (@List.length _)) in Hnil. rewrite length_map in Hnil.
      destruct (filter _ _); [contradiction | discriminate].
  - rewrite find_ip_apply, fold_merged_is_some.
    rewrite <- (Exists_stamps (fun it => UserID it = uid /\ address_of it = Some ip)
                              w arr 0).
    apply or_iff_compat_l.
    rewrite filter_nonempty_exists, Exists_exists, Exists_exists. split.
    + intros (e & Hin & He). apply in_flat_map in Hin as (o & Ho & Hin).
      exists o. split; [exact Ho |]. unfold excluded_ips in Hin.
      destruct (address_of (fst o)) as [a |]; [| contradiction].
      destruct Hin as [<- | []]. apply uq_eqb_eq in He. inversion He; subst. auto.
    + intros (o & Ho & Hu & Ha).
      exists (ip_of_item (fst o) ip (snd o)). split.
      * apply in_flat_map. exists o. split; [exact Ho |].
        unfold excluded_ips. rewrite Ha. now left.
      * apply uq_eqb_eq. unfold uq_user_ip; simpl. now rewrite Hu.
Qed.

Lemma stored_after_commit_witness :
  find_ip 1 "10.0.0.5"
          (fst (ingestItems (calm 0)
                            [item 2 "bob" (Some "") None;
                             item 1 "alice" (Some "10.0.0.5") None]
                            empty_db)) <> None.
Proof.
  apply (proj2 (stored_after_commit
                  (calm 0)
                  [item 2 "bob" (Some "") None; item 1 "alice" (Some "10.0.0.5") None]
                  empty_db 1 "10.0.0.5" eq_refl)).
  right. right. left. split; reflexivity.
Defined.

(** ** The watermark of the registry *)

Lemma find_user_raised w arr db uid r :
  find_user uid db = Some r ->
  exists r', find_user uid (fst (ingestItems w arr db)) = Some r'
             /\ text_le (pu_last_seen r) (pu_last_seen r') = true.
Proof.
  intros Hr. destruct (ingestItems_cases w arr db) as [[e H] | H]; rewrite H; simpl.
  - exists r. auto using text_le_refl.
  - rewrite find_user_apply, Hr, fold_merged_some. eexists. split; [reflexivity |].
    rewrite fold_update_user. simpl. apply fold_greater_ge_init.
Qed.

(** X6. The [last_seen] of a registered user is a watermark: through any
    sequence of ingest calls, committed or not, the user stays registered
    and its [last_seen] never goes down in the order in which the store
    compares the column; for time stamps up to 9999-12-31T23:59:59Z that is
    the order of the instants. *)
Theorem user_last_seen_never_lowered
        (calls : list (World * list TautulliItem)) (db : DB) (uid : Z)
        (r : plex_users_row) :
  find_user uid db = Some r ->
  exists r',
    find_user uid (ingest_calls calls db) = Some r'
    /\ text_le (pu_last_seen r) (pu_last_seen r') = true
    /\ (forall a b,
           pu_last_seen r = formatRFC3339 a -> pu_last_seen r' = formatRFC3339 b ->
           0 <= a <= maxRFC3339 -> 0 <= b <= maxRFC3339 -> a <= b).
Proof.
  revert db r. induction calls as [| c calls IH]; intros db r Hr.
  - exists r. split; [exact Hr |]. split; [apply text_le_refl |].
    intros a b Ha Hb Ra Rb. rewrite Ha in Hb.
    pose proof (formatRFC3339_compare a b Ra Rb) as Hc.
    rewrite Hb, compare_refl in Hc. symmetry in Hc. apply Z.compare_eq in Hc. lia.
  - rewrite ingest_calls_cons.
    destruct (find_user_raised (fst c) (snd c) db uid r Hr) as (r1 & H1 & L1).
    destruct (IH _ _ H1) as (r' & H' & L' & _).
    exists r'. split; [exact H' |].
    assert (text_le (pu_last_seen r) (pu_last_seen r') = true) as L
        by (eapply text_le_trans; eassumption).
    split; [exact L |].
    intros a b Ha Hb Ra Rb. rewrite Ha, Hb, (text_le_format a b Ra Rb) in L.
    now apply Z.leb_le.
Qed.

Lemma user_last_seen_never_lowered_witness :
  exists r',
    find_user 1 (ingest_calls [(calm 0, [item 1 "alice" None (Some 500)])]
                              (fst (ingestItems (calm 0) [item 1 "alice" None (Some 1000)]
                                                empty_db))) = Some r'
    /\ text_le (formatRFC3339 1000) (pu_last_seen r') = true
    /\ (forall a b,
           formatRFC3339 1000 = formatRFC3339 a -> pu_last_seen r' = formatRFC3339 b ->
           0 <= a <= maxRFC3339 -> 0 <= b <= maxRFC3339 -> a <= b).
Proof.
  apply (user_last_seen_never_lowered
           [(calm 0, [item 1 "alice" None (Some 500)])]
           (fst (ingestItems (calm 0) [item 1 "alice" None (Some 1000)] empty_db))
           1
           {| pu_id := 1; pu_username := "alice"; pu_friendly_name := None;
              pu_user_thumb := None; pu_last_seen := formatRFC3339 1000 |}).
  reflexivity.
Defined.

(** ** How batches compose *)

Lemma stamps_app (w : World) (a b : list TautulliItem) :
  forall i, stamps w i (a ++ b) = (stamps w i a ++ stamps w (i + List.length a) b)%list.
Proof.
  induction a as [| it a IH]; intros i; simpl.
  - now rewrite Nat.add_0_r.
  - rewrite IH. now rewrite Nat.add_succ_r.
Qed.

(** X7. Splitting a batch. For items that all carry an explicit positive
    date, committing the batch [a ++ b] in one transaction leaves the same
    store as committing [a] and then [b] in two calls, whatever the clocks:
    the transaction boundary changes what a failure undoes, not what a
    success stores. *)
Theorem batch_split (w w1 w2 : World) (a b : list TautulliItem) (db : DB) :
  Forall dated (a ++ b) ->
  store_ok w -> store_ok w1 -> store_ok w2 ->
  fst (ingestItems w (a ++ b) db)
  = fst (ingestItems w2 b (fst (ingestItems w1 a db))).
Proof.
  intros Hd Hw Hw1 Hw2.
  rewrite !ingestItems_ok by assumption. simpl fst.
  rewrite stamps_app, apply_stamps_app.
  apply Forall_app in Hd as [Ha Hb].
  now rewrite (stamps_dated a Ha w w1 0%nat 0%nat),
              (stamps_dated b Hb w w2 (0 + List.length a)%nat 0%nat).
Qed.

Lemma batch_split_witness :
  fst (ingestItems (calm 5)
                   ([item 1 "alice" (Some "10.0.0.5") (Some 1000)]
                      ++ [item 1 "al" (Some "10.0.0.6") (Some 500)])
                   empty_db)
  = fst (ingestItems (calm 9) [item 1 "al" (Some "10.0.0.6") (Some 500)]
                     (fst (ingestItems (calm 7)
                                       [item 1 "alice" (Some "10.0.0.5") (Some 1000)]
                                       empty_db))).
Proof.
  apply (batch_split (calm 5) (calm 7) (calm 9)); try apply store_ok_calm.
  repeat constructor; eexists; (split; [reflexivity | lia]).
Defined.

(** ** Users that a batch does not mention *)

Lemma upsert_ip_other (uid : Z) (e : user_ip_history_row) (t : list user_ip_history_row) :
  uih_user_id e <> uid ->
  filter (fun r => uih_user_id r =? uid) (upsert_ip e t)
  = filter (fun r => uih_user_id r =? uid) t.
Proof.
  intros He. apply Z.eqb_neq in He.
  induction t as [| r t IH]; simpl; [now rewrite He |].
  destruct (uq_eqb (uq_user_ip r) (uq_user_ip e)) eqn:E; simpl.
  - apply uq_eqb_eq in E. inversion E as [[Hu Hi]]. now rewrite Hu, He.
  - now rewrite IH.
Qed.

(** X8. A batch frames the users it does not reference: if no item of the
    batch has user id [uid], then after [ingestItems], committed or not,
    the registry row of [uid] and the history rows of [uid] are what they
    were, so the history page of [uid] is answered as before. *)
Theorem other_users_untouched
        (w w' : World) (arr : list TautulliItem) (db : DB) (uid : Z) (path : string) :
  Forall (fun it => UserID it <> uid) arr ->
  ParseInt (TrimPrefix path "/partial/user/") = Some uid ->
  find_user uid (fst (ingestItems w arr db)) = find_user uid db
  /\ filter (fun r => uih_user_id r =? uid)
            (user_ip_history (fst (ingestItems w arr db)))
     = filter (fun r => uih_user_id r =? uid) (user_ip_history db)
  /\ handleUserIPs w' path (fst (ingestItems w arr db)) = handleUserIPs w' path db.
Proof.
  intros Hno Hp.
  assert (find_user uid (fst (ingestItems w arr db)) = find_user uid db
          /\ filter (fun r => uih_user_id r =? uid)
                    (user_ip_history (fst (ingestItems w arr db)))
             = filter (fun r => uih_user_id r =? uid) (user_ip_history db))
    as [Hu Hh].
  { destruct (ingestItems_cases w arr db) as [[e H] | H]; rewrite H; simpl;
      [split; reflexivity |].
    assert (Forall (fun o => UserID (fst o) <> uid) (stamps w 0 arr)) as Hobs.
    { apply Forall_forall. intros o Ho. rewrite Forall_forall in Hno.
      apply Hno. rewrite <- (stamps_items w arr 0). now apply in_map. }
    clear H. split.
    - change (find_user uid (apply_stamps (stamps w 0 arr) db) = find_user uid db).
      rewrite find_user_apply, excluded_users_for.
      replace (filter (fun o => UserID (fst o) =? uid) (stamps w 0 arr)) with
        (@nil (TautulliItem * string)); [reflexivity |].
      symmetry. induction Hobs as [| o obs Ho _ IH]; [reflexivity |].
      simpl. apply Z.eqb_neq in Ho. rewrite Ho. exact IH.
    - generalize (user_ip_history db) as t.
      induction Hobs as [| o obs Ho _ IH]; intros t; [reflexivity |].
      simpl. rewrite IH. unfold step_history.
      destruct (address_of (fst o)); [| reflexivity].
      now apply upsert_ip_other. }
  split; [exact Hu |]. split; [exact Hh |].
  unfold handleUserIPs, history_of. now rewrite Hp, Hu, Hh.
Qed.

Lemma other_users_untouched_witness :
  let db := fst (ingestItems (calm 0) [item 1 "alice" (Some "10.0.0.5") (Some 1000)]
                             empty_db) in
  handleUserIPs (calm 0) "/partial/user/1"
                (fst (ingestItems (calm 9) [item 2 "bob" (Some "10.0.0.5") None] db))
  = handleUserIPs (calm 0) "/partial/user/1" db.
Proof.
  intros db.
  apply (other_users_untouched (calm 9) (calm 0) [item 2 "bob" (Some "10.0.0.5") None]
                               db 1 "/partial/user/1").
  - repeat constructor. discriminate.
  - reflexivity.
Defined.

(** ** The bounds of a history row *)

Lemma stamps_pair_seen (uid : Z) (ip : string) (w : World) (arr : list TautulliItem) :
  Forall (fun it => UserID it = uid -> address_of it = Some ip -> in_rfc3339_range it)
         arr ->
  forall i,
    let rows := filter (fun e => uq_eqb (uq_user_ip e) (uid, ip))
                       (flat_map excluded_ips (stamps w i arr)) in
    let dates :=
      flat_map (fun it =>
                  if (UserID it =? uid)
                     && match address_of it with
                        | Some a => (a =? ip)%string
                        | None => false
                        end
                  then match Date it with Some d => [d] | None => [] end
                  else [])
               arr in
    map uih_last_seen rows = map formatRFC3339 dates
    /\ map uih_first_seen rows = map formatRFC3339 dates.
Proof.
  induction 1 as [| it arr Hit _ IH]; intros i; [split; reflexivity |].
  cbv zeta in *. simpl. rewrite filter_app, !map_app.
  destruct (IH (S i)) as [IH1 IH2]. rewrite IH1, IH2. clear IH IH1 IH2.
  unfold excluded_ips. simpl fst.
  destruct (address_of it) as [a |] eqn:Ea;
    [| rewrite andb_false_r; split; reflexivity].
  simpl. unfold uq_eqb, uq_user_ip. simpl.
  destruct ((UserID it =? uid) && (a =? ip)%string) eqn:E; [| split; reflexivity].
  apply andb_true_iff in E as [Eu Ei].
  apply Z.eqb_eq in Eu. apply String.eqb_eq in Ei. subst a.
  destruct (Hit Eu eq_refl) as (d & Hd & Hr). rewrite Hd. simpl.
  unfold effective_ts. rewrite Hd.
  replace (0 <? d) with true by (symmetry; apply Z.ltb_lt; lia).
  split; reflexivity.
Qed.

Lemma calls_pair_seen (uid : Z) (ip : string) (calls : list (World * list TautulliItem)) :
  items_for_pair uid ip in_rfc3339_range calls ->
  let rows := filter (fun e => uq_eqb (uq_user_ip e) (uid, ip))
                     (flat_map excluded_ips (all_stamps calls)) in
  map uih_last_seen rows = map formatRFC3339 (dates_for_pair uid ip calls)
  /\ map uih_first_seen rows = map formatRFC3339 (dates_for_pair uid ip calls).
Proof.
  unfold items_for_pair, all_stamps, dates_for_pair.
  induction 1 as [| c calls Hc _ IH]; [split; reflexivity |].
  cbv zeta in *. simpl. rewrite flat_map_app, filter_app, !map_app.
  destruct IH as [IH1 IH2]. rewrite IH1, IH2.
  destruct (stamps_pair_seen uid ip (fst c) (snd c) Hc 0) as [H1 H2].
  cbv zeta in H1, H2. rewrite H1, H2. split; reflexivity.
Qed.

Lemma pair_dates_in_range (uid : Z) (ip : string)
      (calls : list (World * list TautulliItem)) :
  items_for_pair uid ip in_rfc3339_range calls ->
  Forall (fun d => 0 <= d <= maxRFC3339) (dates_for_pair uid ip calls).
Proof.
  unfold items_for_pair, dates_for_pair. intros H.
  apply Forall_flat_map. eapply Forall_impl; [| exact H]. intros c Hc.
  apply Forall_flat_map. eapply Forall_impl; [| exact Hc]. intros it Hit.
  destruct (Z.eqb_spec (UserID it) uid) as [E | _]; [| constructor].
  destruct (address_of it) as [a |] eqn:Ea; [| constructor]. simpl.
  destruct (String.eqb_spec a ip) as [-> | _]; [| constructor].
  destruct (Hit E Ea) as (d & Hd & Hr). rewrite Hd. repeat constructor; lia.
Qed.

(** X9. The bounds of a history row. For calls that all commit and a pair
    (user, address) that is not stored before them: if every item that
    carries the pair has an explicit positive date not after
    9999-12-31T23:59:59Z, and there is at least one, then afterwards the
    row of the pair has as [last_seen] the text of the greatest of these
    dates and as [first_seen] the text of the first of them in call order,
    which need not be the least. *)
Theorem pair_bounds
        (uid : Z) (ip : string) (calls : list (World * list TautulliItem)) (db : DB) :
  Forall (fun c => store_ok (fst c)) calls ->
  items_for_pair uid ip in_rfc3339_range calls ->
  dates_for_pair uid ip calls <> [] ->
  find_ip uid ip db = None ->
  exists r,
    find_ip uid ip (ingest_calls calls db) = Some r
    /\ uih_last_seen r = formatRFC3339 (max_list (dates_for_pair uid ip calls))
    /\ uih_first_seen r = formatRFC3339 (hd 0 (dates_for_pair uid ip calls)).
Proof.
  intros Hok Hit Hne Hdb.
  rewrite (ingest_calls_ok calls Hok), find_ip_apply, Hdb, fold_merged_none.
  destruct (calls_pair_seen uid ip calls Hit) as [HL HF]. cbv zeta in HL, HF.
  pose proof (pair_dates_in_range uid ip calls Hit) as HR.
  destruct (dates_for_pair uid ip calls) as [| d ds]; [congruence |].
  destruct (filter _ _) as [| e es]; [discriminate |].
  eexists. split; [reflexivity |].
  rewrite fold_update_ip. simpl in *. inversion HL as [[He Hes]].
  injection HF as Hf _. inversion HR; subst.
  rewrite He, Hes. split; [now apply fold_greater_format | exact Hf].
Qed.

Lemma pair_bounds_witness :
  let calls := [(calm 0, [item 1 "alice" (Some "10.0.0.5") (Some 1000)]);
                (calm 0, [item 1 "alice" (Some "10.0.0.5") (Some 500);
                          item 1 "alice" (Some "10.0.0.5") (Some 2000)])] in
  exists r,
    find_ip 1 "10.0.0.5" (ingest_calls calls empty_db) = Some r
    /\ uih_last_seen r = formatRFC3339 (max_list (dates_for_pair 1 "10.0.0.5" calls))
    /\ uih_first_seen r = formatRFC3339 (hd 0 (dates_for_pair 1 "10.0.0.5" calls)).
Proof.
  intros calls.
  apply (pair_bounds 1 "10.0.0.5" calls empty_db).
  - repeat constructor.
  - unfold items_for_pair. repeat (apply Forall_cons || apply Forall_nil);
      simpl; intros _ _; eexists; (split; [reflexivity | unfold maxRFC3339; lia]).
  - discriminate.
  - reflexivity.
Defined.

(** ** From an observation to the projection *)

Lemma In_upsert_ip (e x : user_ip_history_row) (t : list user_ip_history_row) :
  In x (upsert_ip e t) ->
  In x t \/ find (fun r => uq_eqb (uq_user_ip r) (uq_user_ip e)) (upsert_ip e t) = Some x.
Proof.
  induction t as [| r t IH]; simpl.
  - intros [<- | []]. right. now rewrite (proj2 (uq_eqb_eq _ _) eq_refl).
  - destruct (uq_eqb (uq_user_ip r) (uq_user_ip e)) eqn:E; simpl.
    + intros [<- | Hx]; [right | left; now right].
      change (uq_user_ip (update_ip r e)) with (uq_user_ip r). now rewrite E.
    + intros [<- | Hx]; [left; now left |].
      rewrite E. destruct (IH Hx) as [H | H]; [left; now right | now right].
Qed.

Lemma text_gt_asym (a b : string) : text_gt a b = true -> text_gt b a = false.
Proof.
  intros H. apply text_gt_lt in H. unfold text_gt. now rewrite H.
Qed.

(** X10. A new latest observation becomes the projection. When a committed
    one-item batch carries an address for a user and its time stamp text is
    greater than the [last_seen] of every history row stored for that user,
    the view [users_last_ip] shows that address as [last_ip] and that time
    stamp as [updated_at] for the user. *)
Theorem latest_after_ingest
        (w : World) (it : TautulliItem) (ip : string) (db : DB) (pu : plex_users_row) :
  snd (ingestItems w [it] db) = None ->
  address_of it = Some ip ->
  pu_id pu = UserID it ->
  (forall r, In r (user_ip_history db) -> uih_user_id r = UserID it ->
             text_gt (formatRFC3339 (effective_ts (now w 0) it)) (uih_last_seen r)
             = true) ->
  uli_last_ip (last_ip_row (fst (ingestItems w [it] db)) pu) = Some ip
  /\ uli_updated_at (last_ip_row (fst (ingestItems w [it] db)) pu)
     = Some (formatRFC3339 (effective_ts (now w 0) it)).
Proof.
  intros Hok Ha Hpu Hlater.
  destruct (ingestItems_cases w [it] db) as [[e H] | H]; rewrite H in *;
    simpl in Hok; [discriminate |]. clear H Hok.
  set (ts := formatRFC3339 (effective_ts (now w 0) it)) in *.
  set (e := ip_of_item it ip ts).
  assert (user_ip_history (apply_stamps (stamps w 0 [it]) db)
          = upsert_ip e (user_ip_history db)) as Hh.
  { simpl. unfold step_history. simpl. now rewrite Ha. }
  unfold last_ip_row, latest_observation.
  cbn [fst uli_last_ip uli_updated_at].
  rewrite Hh, Hpu. clear Hh.
  set (t := user_ip_history db) in *.
  assert (exists x,
             find (fun r => uq_eqb (uq_user_ip r) (uq_user_ip e)) (upsert_ip e t) = Some x
             /\ uih_ip x = ip /\ uih_last_seen x = ts /\ uih_user_id x = UserID it)
    as (x & Hx & Hxi & Hxl & Hxu).
  { rewrite (lookup_upsert _ _ uq_user_ip uq_eqb update_ip upsert_ip uq_eqb_eq)
      by (reflexivity || auto using upsert_ip_cons).
    rewrite (proj2 (uq_eqb_eq _ _) eq_refl).
    destruct (find (fun r => uq_eqb (uq_user_ip r) (uq_user_ip e)) t) as [r0 |] eqn:E0.
    - apply find_some in E0 as [Hin Hk]. apply uq_eqb_eq in Hk.
      inversion Hk as [[Hu Hi]]. eexists. split; [reflexivity |]. simpl.
      repeat split; try assumption.
      unfold case_greater. now rewrite (text_gt_asym _ _ (Hlater r0 Hin Hu)).
    - eexists. split; [reflexivity |]. repeat split. }
  assert (hd_error (history_of (UserID it) (upsert_ip e t)) = Some x) as Hhd.
  { unfold history_of.
    apply (order_by_hd_unique _ last_seen_desc last_seen_desc_total last_seen_desc_trans).
    - apply filter_In. split; [| now apply Z.eqb_eq].
      apply find_some in Hx. tauto.
    - intros y Hy. apply filter_In in Hy as [Hy Hyu]. apply Z.eqb_eq in Hyu.
      destruct (In_upsert_ip e y t Hy) as [Hin | Hf].
      + right. unfold last_seen_desc, text_le. rewrite Hxl.
        now rewrite (Hlater y Hin Hyu).
      + left. congruence. }
  rewrite Hhd. simpl. now rewrite Hxi, Hxl.
Qed.

Lemma latest_after_ingest_witness :
  let db := fst (ingestItems (calm 0) [item 1 "alice" (Some "10.0.0.1") (Some 100)]
                             empty_db) in
  let pu := {| pu_id := 1; pu_username := "alice"; pu_friendly_name := None;
               pu_user_thumb := None; pu_last_seen := formatRFC3339 200 |} in
  let it := item 1 "alice" (Some "10.0.0.2") (Some 200) in
  uli_last_ip (last_ip_row (fst (ingestItems (calm 0) [it] db)) pu) = Some "10.0.0.2"
  /\ uli_updated_at (last_ip_row (fst (ingestItems (calm 0) [it] db)) pu)
     = Some (formatRFC3339 (effective_ts (now (calm 0) 0) it)).
Proof.
  intros db pu it.
  apply (latest_after_ingest (calm 0) it "10.0.0.2" db pu).
  - reflexivity.
  - reflexivity.
  - reflexivity.
  - intros r [<- | []] _. reflexivity.
Defined.

(** ** The width and order of the stored time stamps *)

Lemma length_append (a b : string) :
  String.length (a ++ b) = (String.length a + String.length b)%nat.
Proof. induction a as [| c a IH]; simpl; [| rewrite IH]; reflexivity. Qed.

Lemma appendInt_2_length (x : Z) : 0 <= x <= 99 -> String.length (appendInt x 2) = 2%nat.
Proof. intros H. now rewrite appendInt_2. Qed.

Lemma appendInt_4_length (x : Z) : 0 <= x <= 9999 -> String.length (appendInt x 4) = 4%nat.
Proof.
  intros H. rewrite appendInt_4, length_append by assumption.
  rewrite !appendInt_2_length by (Z.div_mod_to_equations; lia). reflexivity.
Qed.

(** X11. The time stamp text that [ingestItems] stores for an instant from
    the epoch to 9999-12-31T23:59:59Z is 20 bytes long, distinct instants
    have distinct texts, and the comparison [old > new] that the two
    upserts make on the texts is the comparison of the instants. *)
Theorem rfc3339_text_order (a b : Z) :
  0 <= a <= maxRFC3339 -> 0 <= b <= maxRFC3339 ->
  String.length (formatRFC3339 a) = 20%nat
  /\ (formatRFC3339 a = formatRFC3339 b <-> a = b)
  /\ text_gt (formatRFC3339 a) (formatRFC3339 b) = (b <? a)
  /\ case_greater (formatRFC3339 a) (formatRFC3339 b) = formatRFC3339 (Z.max a b).
Proof.
  intros Ha Hb. split; [| split; [| split]].
  - unfold formatRFC3339, appendFormatRFC3339.
    rewrite abs_of_unix_small by assumption.
    destruct (absDate (a + 9223372028715321600)) as [[Y M] D] eqn:ED.
    destruct (absClock (a + 9223372028715321600)) as [[h m] s] eqn:EC.
    pose proof (year_in_range a Y M D Ha ED).
    pose proof (absDate_bounds (a + 9223372028715321600) Y M D ltac:(lia) ED).
    pose proof (absClock_bounds _ h m s EC).
    rewrite !length_append, appendInt_4_length, !appendInt_2_length by lia.
    reflexivity.
  - split; [| now intros ->]. intros E.
    pose proof (formatRFC3339_compare a b Ha Hb) as Hc.
    rewrite E, compare_refl in Hc. symmetry in Hc. now apply Z.compare_eq in Hc.
  - unfold text_gt. rewrite (formatRFC3339_compare a b Ha Hb).
    unfold Z.ltb. rewrite (Z.compare_antisym a b). now destruct (a ?= b).
  - now apply case_greater_format.
Qed.

Lemma rfc3339_text_order_witness :
  String.length (formatRFC3339 1000) = 20%nat
  /\ (formatRFC3339 1000 = formatRFC3339 maxRFC3339 <-> 1000 = maxRFC3339)
  /\ text_gt (formatRFC3339 1000) (formatRFC3339 maxRFC3339) = (maxRFC3339 <? 1000)
  /\ case_greater (formatRFC3339 1000) (formatRFC3339 maxRFC3339)
     = formatRFC3339 (Z.max 1000 maxRFC3339).
Proof. apply (rfc3339_text_order 1000 maxRFC3339); unfold maxRFC3339; lia. Defined.

(** ** Start-up *)

Lemma ping_loop_all_fail (ping : nat -> option string) (n : nat) :
  forall k err sleeps,
    (forall j, (j < n)%nat -> ping (k + j)%nat <> None) ->
    ping_loop ping n k err sleeps
    = (match n with O => err | S m => ping (k + m)%nat end, (sleeps + n)%nat).
Proof.
  induction n as [| n IH]; intros k err sleeps Hall; simpl.
  - now rewrite Nat.add_0_r.
  - pose proof (Hall 0%nat ltac:(lia)) as H0. rewrite Nat.add_0_r in H0.
    destruct (ping k) as [e |] eqn:E; [| congruence].
    rewrite IH by (intros j Hj; rewrite Nat.add_succ_l, <- Nat.add_succ_r;
                   apply Hall; lia).
    f_equal; [| lia]. destruct n as [| m].
    + now rewrite Nat.add_0_r.
    + now rewrite Nat.add_succ_l, <- Nat.add_succ_r.
Qed.

Lemma ping_loop_first_success (ping : nat -> option string) (m : nat) :
  forall n k err sleeps,
    (m < n)%nat -> ping (k + m)%nat = None ->
    (forall j, (j < m)%nat -> ping (k + j)%nat <> None) ->
    ping_loop ping n k err sleeps = (None, (sleeps + m)%nat).
Proof.
  induction m as [| m IH]; intros n k err sleeps Hm Hs Hf;
    (destruct n as [| n]; [lia |]); simpl.
  - rewrite Nat.add_0_r in Hs. now rewrite Hs, Nat.add_0_r.
  - pose proof (Hf 0%nat ltac:(lia)) as H0. rewrite Nat.add_0_r in H0.
    destruct (ping k) as [e |] eqn:E; [| congruence].
    rewrite (IH n (S k) (Some e) (S sleeps)).
    + f_equal. lia.
    + lia.
    + now rewrite Nat.add_succ_l, <- Nat.add_succ_r.
    + intros j Hj. rewrite Nat.add_succ_l, <- Nat.add_succ_r. apply Hf. lia.
Qed.

Lemma first_success_or_none (ping : nat -> option string) (n : nat) :
  (exists m, (m < n)%nat /\ ping m = None /\ forall j, (j < m)%nat -> ping j <> None)
  \/ (forall j, (j < n)%nat -> ping j <> None).
Proof.
  induction n as [| n [(m & Hm & Hs & Hf) | Hall]].
  - right. intros j Hj. lia.
  - left. exists m. repeat split; try assumption. lia.
  - destruct (ping n) as [e |] eqn:E.
    + right. intros j Hj. assert (j = n \/ j < n)%nat as [-> | Hlt] by lia;
        [congruence | now apply Hall].
    + left. exists n. repeat split; [lia | exact E | exact Hall].
Qed.

(** X12. [pingRetry] returns nil exactly when [tries] is not positive (it
    then pings not at all) or one of the first [tries] pings succeeds. It
    stops at the first success, having slept once per failure before it;
    when all [tries] pings fail it returns the error of the last one, after
    sleeping [tries] times, once also after the last failure. *)
Theorem pingRetry_outcome (ping : nat -> option string) (tries : Z) :
  (tries <= 0 -> pingRetry ping tries = (None, 0%nat))
  /\ (fst (pingRetry ping tries) = None
      <-> tries <= 0 \/ exists k, Z.of_nat k < tries /\ ping k = None)
  /\ (forall k, Z.of_nat k < tries -> ping k = None ->
                (forall j, (j < k)%nat -> ping j <> None) ->
                pingRetry ping tries = (None, k))
  /\ (0 < tries -> (forall k, Z.of_nat k < tries -> ping k <> None) ->
      pingRetry ping tries = (ping (Z.to_nat tries - 1)%nat, Z.to_nat tries)).
Proof.
  unfold pingRetry.
  assert (forall k, Z.of_nat k < tries -> ping k = None ->
                    (forall j, (j < k)%nat -> ping j <> None) ->
                    ping_loop ping (Z.to_nat tries) 0 None 0 = (None, k)) as Hfirst.
  { intros k Hk Hs Hf.
    now rewrite (ping_loop_first_success ping k (Z.to_nat tries) 0 None 0
                                         ltac:(lia) Hs Hf). }
  assert (0 < tries -> (forall k, Z.of_nat k < tries -> ping k <> None) ->
          ping_loop ping (Z.to_nat tries) 0 None 0
          = (ping (Z.to_nat tries - 1)%nat, Z.to_nat tries)) as Hall.
  { intros Hpos Hf.
    rewrite (ping_loop_all_fail ping (Z.to_nat tries) 0 None 0)
      by (intros j Hj; apply Hf; lia).
    destruct (Z.to_nat tries) as [| m] eqn:E; [lia |].
    simpl. now rewrite Nat.sub_0_r. }
  assert (tries <= 0 -> ping_loop ping (Z.to_nat tries) 0 None 0 = (None, 0%nat)) as Hzero.
  { intros Hle. now replace (Z.to_nat tries) with 0%nat by lia. }
  split; [exact Hzero |]. split; [| split; [exact Hfirst | exact Hall]].
  split.
  - intros Hnil. destruct (Z_le_gt_dec tries 0) as [Hle | Hgt]; [now left | right].
    destruct (first_success_or_none ping (Z.to_nat tries))
      as [(m & Hm & Hs & _) | Hf].
    + exists m. split; [lia | exact Hs].
    + rewrite Hall in Hnil by (lia || (intros k Hk; apply Hf; lia)).
      simpl in Hnil. exfalso. apply (Hf (Z.to_nat tries - 1)%nat); [lia | exact Hnil].
  - intros [Hle | (k & Hk & Hs)]; [now rewrite Hzero |].
    destruct (first_success_or_none ping (S k)) as [(m & Hm & Hs' & Hf) | Hf].
    + rewrite (Hfirst m) by (lia || assumption). reflexivity.
    + exfalso. apply (Hf k); [lia | exact Hs].
Qed.

Lemma pingRetry_outcome_witness :
  pingRetry (fun k => if (k <? 3)%nat then Some "database is locked" else None) 10
  = (None, 3%nat).
Proof.
  apply (proj1 (proj2 (proj2 (pingRetry_outcome
                                (fun k => if (k <? 3)%nat then Some "database is locked"
                                          else None)
                                10)))).
  - reflexivity.
  - reflexivity.
  - intros j Hj. destruct (Nat.ltb_spec j 3); [discriminate | lia].
Defined.










(** ** The fetcher *)

Lemma quot_100_is_2 (code : Z) : Z.quot code 100 = 2 <-> 200 <= code <= 299.
Proof.
  pose proof (Z.quot_rem' code 100) as E.
  destruct (Z_lt_le_dec code 0) as [Hneg | Hpos].
  - pose proof (Z.quot_opp_l (- code) 100 ltac:(lia)) as Ho.
    rewrite Z.opp_involutive in Ho.
    pose proof (Z.quot_pos (- code) 100 ltac:(lia) ltac:(lia)). lia.
  - pose proof (Z.rem_bound_pos code 100 Hpos ltac:(lia)). lia.
Qed.

(** X14. [fetchTautulli] hands over items in one case only: a response
    with a status from 200 to 299 whose body decodes and whose lowered
    result is "success"; the items are then the payload list. A URL that
    does not parse, a transport error, any other status, an undecodable
    body and any other result are errors. *)
Theorem fetchTautulli_items (f : Fetched) (items : list TautulliItem) :
  fetchTautulli f = inr items
  <-> exists code body outer,
      f = HttpResponse code body (inr outer)
      /\ 200 <= code <= 299
      /\ ResultLower outer = "success"
      /\ items = Data outer.
Proof.
  split.
  - destruct f as [e | e | code body [e | outer]]; simpl; try discriminate.
    + destruct (negb (Z.quot code 100 =? 2)); discriminate.
    + destruct (Z.eqb_spec (Z.quot code 100) 2) as [Hc | Hc]; simpl; [| discriminate].
      destruct (String.eqb_spec (ResultLower outer) "success") as [Hs | Hs]; simpl;
        [| discriminate].
      intros H. inversion H. exists code, body, outer.
      repeat split; try assumption; apply quot_100_is_2 in Hc; lia.
  - intros (code & body & outer & -> & Hc & Hs & ->). simpl.
    apply quot_100_is_2 in Hc. rewrite Hc, Hs. reflexivity.
Qed.

Lemma fetchTautulli_items_witness :
  exists code body outer,
    HttpResponse 204 "" (inr {| Result := "SUCCESS"; ResultLower := "success";
                                Data := [] |})
    = HttpResponse code body (inr outer)
    /\ 200 <= code <= 299
    /\ ResultLower outer = "success"
    /\ [] = Data outer.
Proof.
  apply (proj1 (fetchTautulli_items
                  (HttpResponse 204 "" (inr {| Result := "SUCCESS";
                                               ResultLower := "success";
                                               Data := [] |}))
                  [])).
  reflexivity.
Defined.

Lemma ingestItems_nil (w : World) (db : DB) : fst (ingestItems w [] db) = db.
Proof.
  destruct (ingestItems_cases w [] db) as [[e H] | H]; rewrite H; [reflexivity |].
  now destruct db.
Qed.

Lemma fetchOnce_store (url : string) (w : World) (f : Fetched) (db : DB) :
  fst (fetchOnce url w f db)
  = match fetchTautulli f with
    | inr items => fst (ingestItems w items db)
    | inl _ => db
    end.
Proof.
  unfold fetchOnce. destruct (fetchTautulli f) as [e | items]; [reflexivity |].
  destruct items as [| it items]; [now rewrite ingestItems_nil |].
  simpl List.length. simpl Nat.eqb. cbv iota.
  now destruct (ingestItems w (it :: items) db) as [db' [e |]].
Qed.

(** X15. The poller feeds the ingestion engine and isolates failures. The
    store after any number of cycles of [runFetcher] is the store after
    ingesting, in order, the batches of the cycles whose request succeeded;
    a cycle whose request failed leaves no trace and does not stop the
    later ones, and when every request fails the store is untouched. *)
Theorem runFetcher_effect (url : string) (cycles : list (World * Fetched)) (db : DB) :
  runFetcher url cycles db = ingest_calls (fetched_batches cycles) db
  /\ ((forall c, In c cycles -> exists e, fetchTautulli (snd c) = inl e) ->
      runFetcher url cycles db = db).
Proof.
  assert (forall db, runFetcher url cycles db = ingest_calls (fetched_batches cycles) db)
    as Hrun.
  { unfold runFetcher, fetched_batches, ingest_calls.
    induction cycles as [| c cycles IH]; intros d; [reflexivity |].
    simpl. rewrite IH, fetchOnce_store, fold_left_app.
    now destruct (fetchTautulli (snd c)). }
  split; [apply Hrun |].
  intros Hfail. rewrite Hrun. clear Hrun.
  replace (fetched_batches cycles) with (@nil (World * list TautulliItem));
    [reflexivity |].
  unfold fetched_batches. induction cycles as [| c cycles IH]; [reflexivity |].
  simpl. destruct (Hfail c (or_introl eq_refl)) as [e He]. rewrite He. simpl.
  apply IH. intros c' Hc'. apply Hfail. now right.
Qed.

Lemma runFetcher_effect_witness :
  runFetcher "http://tautulli:8181/api/v2"
             [(calm 0, TransportError "connection refused");
              (calm 0, HttpResponse 503 "busy" (inl "unexpected end of JSON input"))]
             empty_db
  = empty_db.
Proof.
  apply (proj2 (runFetcher_effect
                  "http://tautulli:8181/api/v2"
                  [(calm 0, TransportError "connection refused");
                   (calm 0, HttpResponse 503 "busy" (inl "unexpected end of JSON input"))]
                  empty_db)).
  intros c [<- | [<- | []]]; eexists; reflexivity.
Defined.

(** X16. A fetched batch is ingested under the contract of the push
    endpoint: in the same world, [fetchOnce] on a successful request leaves
    the store that [handleIngest] leaves for an authorised POST of the same
    items, and logs a fetch error without touching the store when the
    request fails. *)
Theorem fetchOnce_as_push
        (url : string) (w : World) (f : Fetched) (db : DB) :
  (forall items o,
      fetchTautulli f = inr items ->
      fst (fetchOnce url w f db)
      = fst (handleIngest w (POST w (ReadOk (Some items) o)) db))
  /\ (forall e, fetchTautulli f = inl e ->
                fetchOnce url w f db = (db, Some ("fetch error: " ++ e))).
Proof.
  split.
  - intros items o Hf. rewrite fetchOnce_store, Hf.
    unfold handleIngest.
    rewrite (authorized_passes w (POST w (ReadOk (Some items) o)))
      by (right; unfold POST, TrimPrefix; cbn [Authorization];
          now rewrite cut_prefix_app).
    unfold POST. cbn [Method Body decoded]. simpl negb. cbv iota.
    destruct items as [| it items]; [now rewrite ingestItems_nil |].
    simpl List.length. simpl Nat.eqb. cbv iota.
    now destruct (ingestItems w (it :: items) db) as [db' [e |]].
  - intros e Hf. unfold fetchOnce. now rewrite Hf.
Qed.

Lemma fetchOnce_as_push_witness :
  let f := HttpResponse 200 "{}"
                        (inr {| Result := "Success"; ResultLower := "success";
                                Data := [item 1 "alice" (Some "10.0.0.5") (Some 1000)] |}) in
  fst (fetchOnce "http://tautulli:8181/api/v2" (calm 0) f empty_db)
  = fst (handleIngest (calm 0)
                      (POST (calm 0)
                            (ReadOk (Some [item 1 "alice" (Some "10.0.0.5") (Some 1000)])
                                    None))
                      empty_db).
Proof.
  intros f.
  apply (proj1 (fetchOnce_as_push "http://tautulli:8181/api/v2" (calm 0) f empty_db)).
  reflexivity.
Defined.

(** ** From an observation to the history page *)

(** X17. Ingest, then query. After a committed batch that carries the
    address [ip] for user [uid], the history page of [uid] is rendered and
    lists a row with that address; its [last_seen] is not before its
    [first_seen] in the order of the store. *)
Theorem history_lists_ingested
        (w w' : World) (arr : list TautulliItem) (db : DB)
        (uid : Z) (ip path : string) :
  snd (ingestItems w arr db) = None ->
  Exists (fun it => UserID it = uid /\ address_of it = Some ip) arr ->
  history_invariant db ->
  query_err w' = None ->
  ParseInt (TrimPrefix path "/partial/user/") = Some uid ->
  exists name rows row,
    handleUserIPs w' path (fst (ingestItems w arr db))
    = Render {| Username := name; IPs := rows |}
    /\ In row rows /\ IP row = ip
    /\ text_le (FirstSeen row) (LastSeen row) = true.
Proof.
  intros Hok Hex Hinv Hq Hp.
  pose proof (proj2 (proj2 (stored_after_commit w arr db uid ip Hok)) (or_intror Hex))
    as Hst.
  pose proof (history_invariant_ingest w arr db Hinv) as Hinv'.
  set (db' := fst (ingestItems w arr db)) in *.
  destruct (find_ip uid ip db') as [r |] eqn:Er; [clear Hst | congruence].
  unfold find_ip in Er. apply find_some in Er as [Hin Hk].
  apply uq_eqb_eq in Hk. inversion Hk as [[Hu Hi]].
  unfold handleUserIPs. rewrite Hp, Hq.
  eexists. eexists. exists (ip_row r). split; [reflexivity |]. split; [| split].
  - apply in_map.
    apply (Permutation_in _ (Permutation_sym (history_of_perm uid _))).
    apply filter_In. split; [exact Hin | now apply Z.eqb_eq].
  - reflexivity.
  - unfold history_invariant in Hinv'. rewrite Forall_forall in Hinv'.
    now apply Hinv'.
Qed.

Lemma history_lists_ingested_witness :
  exists name rows row,
    handleUserIPs (calm 0) "/partial/user/1"
                  (fst (ingestItems (calm 0)
                                    [item 1 "alice" (Some "10.0.0.5") (Some 1000)]
                                    empty_db))
    = Render {| Username := name; IPs := rows |}
    /\ In row rows /\ IP row = "10.0.0.5"
    /\ text_le (FirstSeen row) (LastSeen row) = true.
Proof.
  apply (history_lists_ingested
           (calm 0) (calm 0) [item 1 "alice" (Some "10.0.0.5") (Some 1000)]
           empty_db 1 "10.0.0.5" "/partial/user/1").
  - reflexivity.
  - left. split; reflexivity.
  - constructor.
  - reflexivity.
  - reflexivity.
Defined.
